(** * The LLM-IDE agent core: operation tree, code context, agent loop

    A shallow embedding of
    - [debugmaster/agents/llm_ide/action_manager.py]      (the operation history tree),
    - [debugmaster/agents/llm_ide/code_context_manager.py] and [ts_utils.py]
      (structural code excerpts and their rendering),
    - [debugmaster/agents/llm_ide/llm_ide_agent.py]       (reflection, action and
      submission handling of one iteration),
    together with the properties the specification states about them.

    Conventions.
    - Python objects that are mutated and shared (the [OperationNode]s) live in a
      store; a node reference is its index in that store.  Index [0] is the root
      sentinel and index [i+1] is [_all_nodes[i]].
    - Python [int] is [Z]; [len] is [Z.of_nat (length _)].
    - Python [str] is [string]; a character is read as a code point below 256.
    - A [while] loop is a fixpoint on a step budget; [None] means that the budget
      ran out, and every such function is shown to return on the states
      the program can be in.
    - Recursion of the interpreter that follows the data (the comparison of
      two nodes with [==]) is a fixpoint on the depth left before the
      recursion limit; running out of it is [RecursionError]. *)

From Stdlib Require Import ZArith Lia Bool Ascii String List Permutation.
From Stdlib Require Import Decimal DecimalString.
From stdpp Require Import base tactics option list gmap strings sorting.

Local Set Warnings "-register-all,-clear-no-such-hyp".

Local Open Scope string_scope.
Local Open Scope Z_scope.
Local Open Scope nat_scope.
Local Open Scope list_scope.

(** ** Data model *)

(** [CodeChunk] of code_context_manager.py. *)
Record CodeChunk := mkChunk {
  file_path : string;
  class_name : string;
  function : string;
  whole_function : bool;
  lines : list Z;
  eof : bool
}.

Inductive ActionProperty := EXPLOITATIVE | EXPLORATORY.

(** [ActionObservation(action, observation)]. *)
Record ActionObservation := mkObs {
  ao_action : string;
  ao_observation : string
}.

(** *** Python values

    What [json.loads] returns: [None], a [bool], an [int], a [float], a [str],
    a [list], or a [dict] whose keys are [str].  A finite [float] is the
    dyadic number [m * 2^e].  The [json] module has one [nan] object, which it
    returns for every [NaN] of a text. *)
Inductive pyfloat :=
| Finite (m e : Z)
| Infinity (negative : bool)
| NaN.

Inductive json :=
| JNull
| JBool (b : bool)
| JInt (n : Z)
| JFloat (x : pyfloat)
| JStr (s : string)
| JList (items : list json)
| JDict (items : list (string * json)).

(** [bool(v)]. *)
Definition py_truthy (v : json) : bool :=
  match v with
  | JNull => false
  | JBool b => b
  | JInt n => negb (n =? 0)%Z
  | JFloat (Finite m _) => negb (m =? 0)%Z
  | JFloat _ => true
  | JStr s => negb (String.eqb s "")
  | JList l => match l with [] => false | _ :: _ => true end
  | JDict d => match d with [] => false | _ :: _ => true end
  end.

(** The number a [bool], an [int] or a finite [float] stands for, as
    [m * 2^e]. *)
Definition dyadic (v : json) : option (Z * Z) :=
  match v with
  | JBool b => Some (if b then 1%Z else 0%Z, 0%Z)
  | JInt n => Some (n, 0%Z)
  | JFloat (Finite m e) => Some (m, e)
  | _ => None
  end.

Definition dyadic_eqb (x y : Z * Z) : bool :=
  let low := Z.min (snd x) (snd y) in
  (Z.shiftl (fst x) (snd x - low) =? Z.shiftl (fst y) (snd y - low))%Z.

(** [d.get(k)] on the items of a [dict] with [str] keys; a missing key
    gives [None]. *)
Fixpoint json_get (k : string) (d : list (string * json)) : json :=
  match d with
  | [] => JNull
  | (k', v) :: d' => if String.eqb k' k then v else json_get k d'
  end.

Fixpoint json_has (k : string) (d : list (string * json)) : bool :=
  match d with
  | [] => false
  | (k', _) :: d' => String.eqb k' k || json_has k d'
  end.

(** [a is b or a == b], the test that containers apply to their elements and
    dictionaries to their keys, on values that [json.loads] returned: numbers
    compare by value across [bool], [int] and [float], and [nan], being one
    object, is found equal to itself. *)
Fixpoint py_eqb (a b : json) {struct a} : bool :=
  match a, b with
  | JNull, JNull => true
  | JStr s, JStr t => String.eqb s t
  | JList l, JList l' =>
      (fix items_eqb (l l' : list json) : bool :=
         match l, l' with
         | [], [] => true
         | x :: r, y :: r' => py_eqb x y && items_eqb r r'
         | _, _ => false
         end) l l'
  | JDict d, JDict d' =>
      (length d =? length d') &&
      (fix items_eqb (d : list (string * json)) : bool :=
         match d with
         | [] => true
         | (k, v) :: r => json_has k d' && py_eqb v (json_get k d') && items_eqb r
         end) d
  | JFloat (Infinity s), JFloat (Infinity t) => Bool.eqb s t
  | JFloat NaN, JFloat NaN => true
  | _, _ =>
      match dyadic a, dyadic b with
      | Some x, Some y => dyadic_eqb x y
      | _, _ => false
      end
  end.

(** Whether [hash(v)] returns: not for a [list] or a [dict]. *)
Definition py_hashable (v : json) : bool :=
  match v with
  | JList _ | JDict _ => false
  | _ => true
  end.

(** A reference to a node object. *)
Definition node_ref := nat.

(** [OperationNode]: the fields in the order of the dataclass. *)
Record OperationNode := mkNode {
  thoughts : string;
  action : string;
  action_property : option ActionProperty;
  observations : list ActionObservation;
  summary : string;
  valid : option bool;
  lessons : string;
  dead_path_summaries : list string;
  code_chunks : list CodeChunk;
  tool_status : list (json * json);
  code_change : string;
  dead_path : bool;
  invalid_ops : list node_ref;
  parent : option node_ref;
  children : list node_ref
}.

(** [OperationNode(thoughts=t, action=a, action_property=p)]; every other field
    takes its default. *)
Definition new_node (t a : string) (p : option ActionProperty) : OperationNode :=
  mkNode t a p [] "" None "" [] [] [] "" false [] None [].

Global Instance OperationNode_inhabited : Inhabited OperationNode :=
  populate (new_node "" "" None).

(** Field assignments [node.f = v]. *)
Definition set_observations (v : list ActionObservation) (n : OperationNode) :=
  mkNode (thoughts n) (action n) (action_property n) v (summary n) (valid n)
    (lessons n) (dead_path_summaries n) (code_chunks n) (tool_status n)
    (code_change n) (dead_path n) (invalid_ops n) (parent n) (children n).
Definition set_reflection_fields (v : bool) (l s : string) (n : OperationNode) :=
  mkNode (thoughts n) (action n) (action_property n) (observations n) s (Some v)
    l (dead_path_summaries n) (code_chunks n) (tool_status n)
    (code_change n) (dead_path n) (invalid_ops n) (parent n) (children n).
Definition set_dead_path_summaries (v : list string) (n : OperationNode) :=
  mkNode (thoughts n) (action n) (action_property n) (observations n) (summary n)
    (valid n) (lessons n) v (code_chunks n) (tool_status n)
    (code_change n) (dead_path n) (invalid_ops n) (parent n) (children n).
Definition set_code_chunks (v : list CodeChunk) (n : OperationNode) :=
  mkNode (thoughts n) (action n) (action_property n) (observations n) (summary n)
    (valid n) (lessons n) (dead_path_summaries n) v (tool_status n)
    (code_change n) (dead_path n) (invalid_ops n) (parent n) (children n).
Definition set_tool_status (v : list (json * json)) (n : OperationNode) :=
  mkNode (thoughts n) (action n) (action_property n) (observations n) (summary n)
    (valid n) (lessons n) (dead_path_summaries n) (code_chunks n) v
    (code_change n) (dead_path n) (invalid_ops n) (parent n) (children n).
Definition set_code_change (v : string) (n : OperationNode) :=
  mkNode (thoughts n) (action n) (action_property n) (observations n) (summary n)
    (valid n) (lessons n) (dead_path_summaries n) (code_chunks n) (tool_status n)
    v (dead_path n) (invalid_ops n) (parent n) (children n).
Definition set_dead_path (v : bool) (n : OperationNode) :=
  mkNode (thoughts n) (action n) (action_property n) (observations n) (summary n)
    (valid n) (lessons n) (dead_path_summaries n) (code_chunks n) (tool_status n)
    (code_change n) v (invalid_ops n) (parent n) (children n).
Definition set_invalid_ops (v : list node_ref) (n : OperationNode) :=
  mkNode (thoughts n) (action n) (action_property n) (observations n) (summary n)
    (valid n) (lessons n) (dead_path_summaries n) (code_chunks n) (tool_status n)
    (code_change n) (dead_path n) v (parent n) (children n).
Definition set_parent (v : option node_ref) (n : OperationNode) :=
  mkNode (thoughts n) (action n) (action_property n) (observations n) (summary n)
    (valid n) (lessons n) (dead_path_summaries n) (code_chunks n) (tool_status n)
    (code_change n) (dead_path n) (invalid_ops n) v (children n).
Definition set_children (v : list node_ref) (n : OperationNode) :=
  mkNode (thoughts n) (action n) (action_property n) (observations n) (summary n)
    (valid n) (lessons n) (dead_path_summaries n) (code_chunks n) (tool_status n)
    (code_change n) (dead_path n) (invalid_ops n) (parent n) v.

(** ** The operation tree: [ActionManager] *)

(** The state of an [ActionManager].  [nodes] holds the sentinel followed by
    [_all_nodes]; [root] and [_sentinel] are the constant reference [0]. *)
Record ActionManager := mkAM {
  nodes : list OperationNode;
  current : node_ref;
  max_invalid : Z;
  temp_node : option node_ref
}.

Definition sentinel : node_ref := 0.
Definition root : node_ref := sentinel.

(** [ActionManager(max_invalid)]. *)
Definition init (mi : Z) : ActionManager :=
  mkAM [new_node "" "" None] sentinel mi None.

(** The object a reference denotes. *)
Definition node (st : ActionManager) (r : node_ref) : OperationNode :=
  nodes st !!! r.

(** In-place mutation of the object behind a reference. *)
Definition update (r : node_ref) (f : OperationNode -> OperationNode)
    (st : ActionManager) : ActionManager :=
  mkAM (alter f r (nodes st)) (current st) (max_invalid st) (temp_node st).

Definition has_pending_node (st : ActionManager) : bool :=
  match temp_node st with Some _ => true | None => false end.

Definition has_real_current (st : ActionManager) : bool :=
  negb (current st =? sentinel).

Definition active_node (st : ActionManager) : option node_ref :=
  match temp_node st with
  | Some t => Some t
  | None => if has_real_current st then Some (current st) else None
  end.

(** [create_temp_node]: builds the node, stores it as [_temp_node], appends it
    to [_all_nodes] and returns it. *)
Definition create_temp_node (t a : string) (p : option ActionProperty)
    (st : ActionManager) : node_ref * ActionManager :=
  let r := length (nodes st) in
  (r, mkAM (nodes st ++ [new_node t a p]) (current st) (max_invalid st) (Some r)).

Definition commit_admissible (st : ActionManager) : ActionManager :=
  match temp_node st with
  | None => st
  | Some n =>
      let st1 := update n (set_parent (Some (current st))) st in
      let st2 := update (current st)
                   (fun c => set_children (children c ++ [n]) c) st1 in
      mkAM (nodes st2) n (max_invalid st2) None
  end.

Definition commit_invalid (st : ActionManager) : bool * ActionManager :=
  match temp_node st with
  | None => (false, st)
  | Some n =>
      let st1 := update n (set_parent (Some (current st))) st in
      let st2 := update (current st)
                   (fun c => set_invalid_ops (invalid_ops c ++ [n]) c) st1 in
      let st3 := mkAM (nodes st2) (current st2) (max_invalid st2) None in
      ((max_invalid st3 <=? Z.of_nat (length (invalid_ops (node st3 (current st3)))))%Z,
       st3)
  end.

Definition set_observation (obs : list ActionObservation) (st : ActionManager)
    : ActionManager :=
  match temp_node st with
  | Some t => update t (set_observations obs) st
  | None => st
  end.

Definition set_reflection (v : bool) (l s : string) (st : ActionManager)
    : ActionManager :=
  match temp_node st with
  | Some t => update t (set_reflection_fields v l s) st
  | None => st
  end.

Definition is_exploratory (p : option ActionProperty) : bool :=
  match p with Some EXPLORATORY => true | _ => false end.

(** The loop of [find_backtrack_target]: [n] is the loop variable [node]. *)
Fixpoint find_backtrack_loop (fuel : nat) (st : ActionManager)
    (n : option node_ref) : option (option node_ref) :=
  match fuel with
  | O => None
  | S fuel' =>
      match n with
      | None => Some None
      | Some r =>
          if r =? sentinel then Some None
          else if is_exploratory (action_property (node st r)) then Some (Some r)
          else find_backtrack_loop fuel' st (parent (node st r))
      end
  end.

(** The step budget of a walk over the tree: one more than the number of
    node objects. *)
Definition budget (st : ActionManager) : nat := S (length (nodes st)).

Definition find_backtrack_target (st : ActionManager) : option (option node_ref) :=
  find_backtrack_loop (budget st) st (parent (node st (current st))).

(** The loop of [backtrack_to]: walk up until the parent is [target]. *)
Fixpoint dead_child_loop (fuel : nat) (st : ActionManager) (target : node_ref)
    (n : option node_ref) : option (option node_ref) :=
  match fuel with
  | O => None
  | S fuel' =>
      match n with
      | None => Some None
      | Some r =>
          match parent (node st r) with
          | Some p => if p =? target then Some (Some r)
                      else dead_child_loop fuel' st target (Some p)
          | None => dead_child_loop fuel' st target None
          end
      end
  end.

Definition backtrack_to (target : node_ref) (dead_path_summary : string)
    (st : ActionManager) : option ActionManager :=
  match dead_child_loop (budget st) st target (Some (current st)) with
  | None => None
  | Some found =>
      let st1 := match found with
                 | Some r => update r (set_dead_path true) st
                 | None => st
                 end in
      let st2 := update target
                   (fun t => set_dead_path_summaries
                               (dead_path_summaries t ++ [dead_path_summary]) t)
                   st1 in
      Some (mkAM (nodes st2) target (max_invalid st2) (temp_node st2))
  end.

(** The loop of [get_path_to]; the result is the list before [path.reverse()]. *)
Fixpoint path_loop (fuel : nat) (st : ActionManager) (n : option node_ref)
    : option (list node_ref) :=
  match fuel with
  | O => None
  | S fuel' =>
      match n with
      | None => Some []
      | Some r =>
          if r =? sentinel then Some []
          else match path_loop fuel' st (parent (node st r)) with
               | Some l => Some (r :: l)
               | None => None
               end
      end
  end.

Definition get_path_to (target : node_ref) (st : ActionManager)
    : option (list node_ref) :=
  match path_loop (budget st) st (Some target) with
  | Some l => Some (rev l)
  | None => None
  end.

Definition get_path_from_root_to_current (st : ActionManager)
    : option (list node_ref) :=
  if current st =? sentinel then Some [] else get_path_to (current st) st.

Definition get_rejected_actions (st : ActionManager) : option (list node_ref) :=
  match get_path_from_root_to_current st with
  | Some p => Some (concat (map (fun r => invalid_ops (node st r)) p))
  | None => None
  end.

(** *** Live children *)

Definition is_live (st : ActionManager) (c : node_ref) : bool :=
  negb (dead_path (node st c)).

Definition has_children (st : ActionManager) (c : node_ref) : bool :=
  match children (node st c) with [] => false | _ :: _ => true end.

Definition live_children (st : ActionManager) (n : node_ref) : list node_ref :=
  List.filter (is_live st) (children (node st n)).

(** *** [==] on two nodes

    [OperationNode] is a [@dataclass], so [a == b] on two node objects is the
    generated comparison: the tuples of the fields, in the order of the
    class, are compared item by item, an item pair being equal when the two
    are one object or compare equal, and the first unequal pair decides.  The
    twelve fields before [invalid_ops] hold no node; [invalid_ops], [parent]
    and [children] hold nodes, whose comparison calls [==] on nodes again. *)

Global Instance ActionProperty_eq_dec : EqDecision ActionProperty.
Proof. solve_decision. Defined.
Global Instance ActionObservation_eq_dec : EqDecision ActionObservation.
Proof. solve_decision. Defined.
Global Instance CodeChunk_eq_dec : EqDecision CodeChunk.
Proof. solve_decision. Defined.

(** [d1 == d2] on two [tool_status] dictionaries: the same number of keys,
    and every key of the first in the second with an equal value. *)
Fixpoint status_get (k : json) (d : list (json * json)) : option json :=
  match d with
  | [] => None
  | (k', v) :: d' => if py_eqb k' k then Some v else status_get k d'
  end.

Definition status_eqb (d1 d2 : list (json * json)) : bool :=
  (length d1 =? length d2) &&
  forallb (fun entry =>
             match status_get (fst entry) d2 with
             | Some v => py_eqb (snd entry) v
             | None => false
             end) d1.

(** The fields [thoughts] to [dead_path]. *)
Definition plain_fields_eqb (x y : OperationNode) : bool :=
  String.eqb (thoughts x) (thoughts y)
  && String.eqb (action x) (action y)
  && bool_decide (action_property x = action_property y)
  && bool_decide (observations x = observations y)
  && String.eqb (summary x) (summary y)
  && bool_decide (valid x = valid y)
  && String.eqb (lessons x) (lessons y)
  && bool_decide (dead_path_summaries x = dead_path_summaries y)
  && bool_decide (code_chunks x = code_chunks y)
  && status_eqb (tool_status x) (tool_status y)
  && String.eqb (code_change x) (code_change y)
  && Bool.eqb (dead_path x) (dead_path y).

(** The outcome of a call that the recursion limit may end. *)
Inductive outcome (A : Type) :=
| Returns (value : A)
| RecursionError.
Arguments Returns {A} value.
Arguments RecursionError {A}.

Section NodeEq.

Variable st : ActionManager.

(** Two lists of nodes of the same length, item by item; [eq] is [==] on two
    nodes that are not one object. *)
Fixpoint items_eq (eq : node_ref -> node_ref -> outcome bool)
    (l1 l2 : list node_ref) : outcome bool :=
  match l1, l2 with
  | a :: l1', b :: l2' =>
      if a =? b then items_eq eq l1' l2'
      else match eq a b with
           | Returns true => items_eq eq l1' l2'
           | other => other
           end
  | _, _ => Returns true
  end.

(** [l1 == l2]: lists of different lengths are unequal without a look at
    their items. *)
Definition refs_eq (eq : node_ref -> node_ref -> outcome bool)
    (l1 l2 : list node_ref) : outcome bool :=
  if length l1 =? length l2 then items_eq eq l1 l2 else Returns false.

(** The [parent] fields: [None] equals only [None]. *)
Definition parent_eq (eq : node_ref -> node_ref -> outcome bool)
    (p q : option node_ref) : outcome bool :=
  match p, q with
  | None, None => Returns true
  | Some a, Some b => if a =? b then Returns true else eq a b
  | _, _ => Returns false
  end.

(** [a == b] for two node objects [a] and [b] that are not one object, with
    room for [depth] nested comparisons of nodes before the recursion
    limit. *)
Fixpoint node_eq (depth : nat) (a b : node_ref) : outcome bool :=
  match depth with
  | O => RecursionError
  | S depth' =>
      let x := node st a in
      let y := node st b in
      if negb (plain_fields_eqb x y) then Returns false
      else
        match refs_eq (node_eq depth') (invalid_ops x) (invalid_ops y) with
        | Returns true =>
            match parent_eq (node_eq depth') (parent x) (parent y) with
            | Returns true =>
                refs_eq (node_eq depth') (children x) (children y)
            | other => other
            end
        | other => other
        end
  end.

(** [x in chain]: the first item that is [x] itself or compares equal to it
    ends the search. *)
Fixpoint node_in (depth : nat) (x : node_ref) (chain : list node_ref)
    : outcome bool :=
  match chain with
  | [] => Returns false
  | e :: rest =>
      if e =? x then Returns true
      else match node_eq depth e x with
           | Returns false => node_in depth x rest
           | other => other
           end
  end.

End NodeEq.

(** *** The reasoning chain *)

(** The [while node:] loop of [get_reasoning_chain], entered with [node = n]. *)
Fixpoint chain_loop (fuel : nat) (st : ActionManager) (n : node_ref)
    : option (list node_ref) :=
  match fuel with
  | O => None
  | S fuel' =>
      let live := live_children st n in
      let children_with_children := List.filter (has_children st) live in
      match children_with_children with
      | c :: _ => cons n <$> chain_loop fuel' st c
      | [] =>
          match last live with
          | Some c => cons n <$> chain_loop fuel' st c
          | None => Some [n]
          end
      end
  end.

(** [get_reasoning_chain], with room for [depth] nested comparisons of nodes
    in [self.current not in chain]; that test is evaluated only when
    [has_real_current] holds. *)
Definition get_reasoning_chain (depth : nat) (st : ActionManager)
    : option (outcome (list node_ref)) :=
  match live_children st sentinel with
  | [] => Some (Returns [])
  | r :: _ =>
      match chain_loop (budget st) st r with
      | None => None
      | Some chain =>
          if has_real_current st then
            match node_in st depth (current st) chain with
            | Returns true => Some (Returns chain)
            | Returns false => Some (Returns (chain ++ [current st]))
            | RecursionError => Some RecursionError
            end
          else Some (Returns chain)
      end
  end.



(** [x] is one of the nodes of [chain]. *)
Definition on_chain (x : node_ref) (chain : list node_ref) : bool :=
  existsb (Nat.eqb x) chain.



(** The spine the descent of [get_reasoning_chain] follows from a node:
    - [spine_leaf]: a node without live children ends it;
    - [spine_first]: otherwise the first live child that has children is next;
    - [spine_last]: when no live child has children, the last live child is. *)
Inductive spine_from (st : ActionManager) : node_ref -> list node_ref -> Prop :=
| spine_leaf n :
    live_children st n = [] -> spine_from st n [n]
| spine_first n pre c post l :
    live_children st n = pre ++ c :: post ->
    Forall (fun x => children (node st x) = []) pre ->
    children (node st c) <> [] ->
    spine_from st c l ->
    spine_from st n (n :: l)
| spine_last n pre c l :
    live_children st n = pre ++ [c] ->
    Forall (fun x => children (node st x) = []) (pre ++ [c]) ->
    spine_from st c l ->
    spine_from st n (n :: l).

(** A call of a method of the manager, and what a sequence of calls makes of
    a state. *)
Inductive tree_call :=
| CreateTempNode (t a : string) (p : option ActionProperty)
| CommitAdmissible
| CommitInvalid
| BacktrackTo (target : node_ref) (dead_path_summary : string).

Definition run_tree_call (c : tree_call) (st : ActionManager)
    : option ActionManager :=
  match c with
  | CreateTempNode t a p => Some (snd (create_temp_node t a p st))
  | CommitAdmissible => Some (commit_admissible st)
  | CommitInvalid => Some (snd (commit_invalid st))
  | BacktrackTo target dead_path_summary => backtrack_to target dead_path_summary st
  end.

Fixpoint run_tree_calls (cs : list tree_call) (st : ActionManager)
    : option ActionManager :=
  match cs with
  | [] => Some st
  | c :: cs' =>
      match run_tree_call c st with
      | Some st' => run_tree_calls cs' st'
      | None => None
      end
  end.







(** Two commits and two rejections with the same texts: [A] is committed and
    [X1] is rejected under it, then [B], a node with the texts of [A], is
    committed and [X2], a node with the texts of [X1], is rejected under
    it. *)
Definition twin_calls : list tree_call :=
  [ CreateTempNode "look" "ls" None; CommitAdmissible;
    CreateTempNode "x" "y" None; CommitInvalid;
    CreateTempNode "look" "ls" None; CommitAdmissible;
    CreateTempNode "x" "y" None; CommitInvalid ].

Definition twin_state : ActionManager :=
  mkAM
    [ set_children [1] (new_node "" "" None);
      set_children [3]
        (set_invalid_ops [2] (set_parent (Some 0) (new_node "look" "ls" None)));
      set_parent (Some 1) (new_node "x" "y" None);
      set_invalid_ops [4] (set_parent (Some 1) (new_node "look" "ls" None));
      set_parent (Some 3) (new_node "x" "y" None) ]
    3 3 None.

(** What the specification says of [create_temp_node]: it fails when a temp
    node exists already.  [inl tt] stands for the failure it calls
    PendingExists. *)
Definition spec_create_temp_node (t a : string) (p : option ActionProperty)
    (st : ActionManager) : unit + node_ref * ActionManager :=
  if has_pending_node st then inl tt else inr (create_temp_node t a p st).

(** A manager with one committed node and a pending temp node. *)
Definition pending_state : ActionManager :=
  snd (create_temp_node "second" "b" None
        (commit_admissible (snd (create_temp_node "first" "a" None (init 3))))).

(** Scenario S2: [max_invalid = 2], commit [A], then reject two nodes. *)
Definition s2_after_A : ActionManager :=
  commit_admissible (snd (create_temp_node "A" "a" None (init 2))).
Definition s2_first : bool * ActionManager :=
  commit_invalid (snd (create_temp_node "np1" "a" None s2_after_A)).
Definition s2_second : bool * ActionManager :=
  commit_invalid (snd (create_temp_node "np2" "a" None (snd s2_first))).


(** *** Legal operations *)

(** What the agent writes on the active node besides the manager's own
    methods: [code_chunks.append], [tool_status[pkg] = ...], [code_change = ...]. *)
Definition append_code_chunk (ch : CodeChunk) (n : OperationNode) : OperationNode :=
  set_code_chunks (code_chunks n ++ [ch]) n.

(** [d[k] = v]: the value of a key that is there already is replaced, and a
    new key is added at the end. *)
Fixpoint dict_set (k v : json) (d : list (json * json)) : list (json * json) :=
  match d with
  | [] => [(k, v)]
  | (k', v') :: d' =>
      if py_eqb k' k then (k', v) :: d' else (k', v') :: dict_set k v d'
  end.

Definition put_tool_status (pkg status : json) (n : OperationNode)
    : OperationNode :=
  set_tool_status (dict_set pkg status (tool_status n)) n.

Definition on_active (f : OperationNode -> OperationNode) (st : ActionManager)
    : ActionManager :=
  match active_node st with
  | Some r => update r f st
  | None => st
  end.

(** One legal operation: a method of the manager, a write of the agent on the
    active node, or a backtrack to the target [find_backtrack_target] returned. *)
Inductive step : ActionManager -> ActionManager -> Prop :=
| step_create_temp_node t a p st :
    step st (snd (create_temp_node t a p st))
| step_set_observation obs st :
    step st (set_observation obs st)
| step_set_reflection v l s st :
    step st (set_reflection v l s st)
| step_commit_admissible st :
    step st (commit_admissible st)
| step_commit_invalid st :
    step st (snd (commit_invalid st))
| step_backtrack_to target dead_path_summary st st' :
    find_backtrack_target st = Some (Some target) ->
    backtrack_to target dead_path_summary st = Some st' ->
    step st st'
| step_code_chunk ch st :
    step st (on_active (append_code_chunk ch) st)
| step_tool_status pkg status st :
    step st (on_active (put_tool_status pkg status) st)
| step_code_change diff st :
    step st (on_active (set_code_change diff) st).

Inductive reachable : ActionManager -> Prop :=
| reachable_init mi : reachable (init mi)
| reachable_step st st' : reachable st -> step st st' -> reachable st'.

(** [dead st c]: the object behind [c] is flagged as a dead path. *)
Definition dead (st : ActionManager) (c : node_ref) : Prop :=
  dead_path (node st c) = true.

(** [b] is the child through which the path to [current] leaves [a]: it is the
    last child of [a], it is live, and every earlier child is a dead path. *)
Record linked (st : ActionManager) (a b : node_ref) : Prop := mkLinked {
  linked_parent : parent (node st b) = Some a;
  linked_lt : a < b;
  linked_children :
    (exists pre, children (node st a) = pre ++ [b] /\ Forall (dead st) pre);
  linked_live : dead_path (node st b) = false
}.

Inductive linked_path (st : ActionManager) : node_ref -> list node_ref -> Prop :=
| linked_nil a : linked_path st a []
| linked_cons a b l :
    linked st a b -> linked_path st b l -> linked_path st a (b :: l).

(** References below [fresh_bound] were created before the pending temp node. *)
Definition fresh_bound (st : ActionManager) : nat :=
  match temp_node st with
  | Some t => t
  | None => length (nodes st)
  end.

(** The invariant of the legal operations; [p] is the path from the sentinel
    (excluded) to [current]. *)
Record path_inv (st : ActionManager) (p : list node_ref) : Prop := mkPathInv {
  inv_root : parent (node st sentinel) = None;
  inv_path : linked_path st sentinel p;
  inv_current : last (sentinel :: p) = Some (current st);
  inv_children : Forall (dead st) (children (node st (current st)));
  inv_bound : Forall (fun x => x < fresh_bound st) (sentinel :: p);
  inv_fresh : fresh_bound st <= length (nodes st);
  inv_temp : forall t, temp_node st = Some t ->
             t < length (nodes st) /\
             children (node st t) = [] /\
             dead_path (node st t) = false
}.

(** Scenario S3 followed by a commit: [A] exploratory, [B], [C], a backtrack
    to [A], then [D]. *)
Definition commit_new (t a : string) (p : option ActionProperty)
    (st : ActionManager) : ActionManager :=
  commit_admissible (snd (create_temp_node t a p st)).

Definition s3_before_backtrack : ActionManager :=
  commit_new "C" "c" (Some EXPLOITATIVE)
    (commit_new "B" "b" (Some EXPLOITATIVE)
       (commit_new "A" "a" (Some EXPLORATORY) (init 3))).

Definition s3_after_backtrack : option ActionManager :=
  backtrack_to 1 "dead" s3_before_backtrack.

Definition s3_final : ActionManager :=
  match s3_after_backtrack with
  | Some st => commit_new "D" "d" (Some EXPLOITATIVE) st
  | None => init 3
  end.

(** *** Further operations of the tree *)

(** The loop of [get_dead_path]: the nodes appended to [path], and the value
    of [node] when the loop ends. *)
Fixpoint dead_path_loop (fuel : nat) (st : ActionManager) (from_node : node_ref)
    (n : option node_ref) : option (list node_ref * option node_ref) :=
  match fuel with
  | O => None
  | S fuel' =>
      match n with
      | None => Some ([], None)
      | Some r =>
          if r =? from_node then Some ([], Some r)
          else match dead_path_loop fuel' st from_node (parent (node st r)) with
               | Some (l, stop) => Some (r :: l, stop)
               | None => None
               end
      end
  end.

Definition get_dead_path (from_node : node_ref) (st : ActionManager)
    : option (list node_ref) :=
  if current st =? sentinel then Some []
  else
    match dead_path_loop (budget st) st from_node (Some (current st)) with
    | None => None
    | Some (l, stop) =>
        Some (rev (match stop with
                   | Some _ => l ++ [from_node]
                   | None => l
                   end))
    end.

(** No node on [l] is marked [EXPLORATORY]. *)
Definition none_exploratory (st : ActionManager) (l : list node_ref) : Prop :=
  Forall (fun x => is_exploratory (action_property (node st x)) = false) l.

(** What a legal operation may do to an existing node object: the fields given
    to the constructor stay, a dead-path flag is never cleared, and the lists
    the manager and the agent append to only grow at the end. *)
Record grows (n n' : OperationNode) : Prop := mkGrows {
  grows_thoughts : thoughts n' = thoughts n;
  grows_action : action n' = action n;
  grows_property : action_property n' = action_property n;
  grows_dead : dead_path n = true -> dead_path n' = true;
  grows_children : children n `prefix_of` children n';
  grows_invalid : invalid_ops n `prefix_of` invalid_ops n';
  grows_summaries : dead_path_summaries n `prefix_of` dead_path_summaries n';
  grows_chunks : code_chunks n `prefix_of` code_chunks n'
}.

(** ** Python strings *)

Definition code (c : ascii) : nat := nat_of_ascii c.

Definition between (lo hi n : nat) : bool := (lo <=? n) && (n <=? hi).

(** [str.isspace] on one character: what [strip], [lstrip] and [split] remove. *)
Definition is_space (c : ascii) : bool :=
  between 9 13 (code c) || between 28 32 (code c)
  || (code c =? 133) || (code c =? 160).

(** The line boundaries of [str.splitlines]. *)
Definition is_linebreak (c : ascii) : bool :=
  between 10 13 (code c) || between 28 30 (code c) || (code c =? 133).

Definition is_cr (c : ascii) : bool := code c =? 13.
Definition is_lf (c : ascii) : bool := code c =? 10.

Fixpoint lstrip (s : string) : string :=
  match s with
  | String c s' => if is_space c then lstrip s' else s
  | EmptyString => EmptyString
  end.

Fixpoint rstrip (s : string) : string :=
  match s with
  | EmptyString => EmptyString
  | String c s' =>
      match rstrip s' with
      | EmptyString => if is_space c then EmptyString else String c EmptyString
      | r => String c r
      end
  end.

Definition strip (s : string) : string := rstrip (lstrip s).

(** [s.splitlines(keepends=True)]. *)
Fixpoint splitlines_keepends (s : string) : list string :=
  match s with
  | EmptyString => []
  | String c s' =>
      if is_cr c then
        match s' with
        | String d s'' =>
            if is_lf d then String c (String d EmptyString) :: splitlines_keepends s''
            else String c EmptyString :: splitlines_keepends s'
        | EmptyString => [String c EmptyString]
        end
      else if is_linebreak c then String c EmptyString :: splitlines_keepends s'
      else match splitlines_keepends s' with
           | [] => [String c EmptyString]
           | l :: ls => String c l :: ls
           end
  end.

(** [s.splitlines()]. *)
Fixpoint splitlines (s : string) : list string :=
  match s with
  | EmptyString => []
  | String c s' =>
      if is_cr c then
        match s' with
        | String d s'' =>
            if is_lf d then EmptyString :: splitlines s''
            else EmptyString :: splitlines s'
        | EmptyString => [EmptyString]
        end
      else if is_linebreak c then EmptyString :: splitlines s'
      else match splitlines s' with
           | [] => [String c EmptyString]
           | l :: ls => String c l :: ls
           end
  end.

(** ["".join(l)] and [sep.join(l)]. *)
Definition join_empty (l : list string) : string :=
  fold_right String.append EmptyString l.

Fixpoint join (sep : string) (l : list string) : string :=
  match l with
  | [] => EmptyString
  | [x] => x
  | x :: l' => (x ++ sep ++ join sep l')%string
  end.

(** [str.lower] on one character. *)
Definition lower_char (c : ascii) : ascii :=
  if between 65 90 (code c)
     || (between 192 222 (code c) && negb (code c =? 215))
  then ascii_of_nat (code c + 32) else c.

Fixpoint lower (s : string) : string :=
  match s with
  | EmptyString => EmptyString
  | String c s' => String (lower_char c) (lower s')
  end.

(** [s[len(p):]] when [s.startswith(p)]. *)
Fixpoint strip_prefix (p s : string) : option string :=
  match p with
  | EmptyString => Some s
  | String a p' =>
      match s with
      | EmptyString => None
      | String c s' => if Ascii.eqb a c then strip_prefix p' s' else None
      end
  end.

Definition startswith (s p : string) : bool :=
  match strip_prefix p s with Some _ => true | None => false end.

(** [(s[:i], s[i+len(p):])] for [i = s.find(p)], when [p] occurs in [s]. *)
Fixpoint split_at_first (p s : string) : option (string * string) :=
  match strip_prefix p s with
  | Some rest => Some (EmptyString, rest)
  | None =>
      match s with
      | EmptyString => None
      | String c s' =>
          match split_at_first p s' with
          | Some (before, rest) => Some (String c before, rest)
          | None => None
          end
      end
  end.

(** [s.endswith(p)] and the text before the suffix. *)
Fixpoint strip_suffix (p s : string) : option string :=
  if String.eqb s p then Some EmptyString
  else match s with
       | EmptyString => None
       | String c s' =>
           match strip_suffix p s' with
           | Some r => Some (String c r)
           | None => None
           end
       end.

Definition endswith (s p : string) : bool :=
  match strip_suffix p s with Some _ => true | None => false end.

(** [s.split()]: the maximal runs of characters that are not whitespace. *)
Fixpoint split_ws_aux (cur : option string) (s : string) : list string :=
  match s with
  | EmptyString => match cur with Some w => [w] | None => [] end
  | String c s' =>
      if is_space c then
        match cur with
        | Some w => w :: split_ws_aux None s'
        | None => split_ws_aux None s'
        end
      else
        split_ws_aux
          (Some (match cur with Some w => w ++ String c EmptyString
                              | None => String c EmptyString end)%string) s'
  end.

Definition split_ws (s : string) : list string := split_ws_aux None s.

(** [str(n)] for an integer. *)
Definition str_of_Z (n : Z) : string :=
  DecimalString.NilZero.string_of_int (Z.to_int n).

(** [int(s)]: the whitespace that [int] removes around the number, an
    optional sign, then digits, where single underscores may separate digits;
    at most 4300 digits, the limit of the interpreter for the conversion.
    [None] is [ValueError]. *)
Definition is_int_space (c : ascii) : bool :=
  between 9 13 (code c) || (code c =? 32) || (code c =? 133) || (code c =? 160).

Fixpoint int_lstrip (s : string) : string :=
  match s with
  | String c s' => if is_int_space c then int_lstrip s' else s
  | EmptyString => EmptyString
  end.

Fixpoint int_rstrip (s : string) : string :=
  match s with
  | EmptyString => EmptyString
  | String c s' =>
      match int_rstrip s' with
      | EmptyString => if is_int_space c then EmptyString else String c EmptyString
      | r => String c r
      end
  end.

Definition digit_value (c : ascii) : option Z :=
  if between 48 57 (code c) then Some (Z.of_nat (code c - 48)) else None.

Fixpoint parse_digits (acc : Z) (prev_digit : bool) (s : string) : option Z :=
  match s with
  | EmptyString => if prev_digit then Some acc else None
  | String c s' =>
      match digit_value c with
      | Some d => parse_digits (10 * acc + d)%Z true s'
      | None =>
          if (code c =? 95) && prev_digit then
            match s' with
            | EmptyString => None
            | String _ _ => parse_digits acc false s'
            end
          else None
      end
  end.

Fixpoint count_digits (s : string) : nat :=
  match s with
  | EmptyString => 0
  | String c s' =>
      (if between 48 57 (code c) then 1 else 0) + count_digits s'
  end.

Definition max_str_digits : nat := 4300.

Definition int_of_string (s : string) : option Z :=
  let stripped := int_rstrip (int_lstrip s) in
  if max_str_digits <? count_digits stripped then None
  else
    match stripped with
    | String "-" s' => Z.opp <$> parse_digits 0 false s'
    | String "+" s' => parse_digits 0 false s'
    | _ => parse_digits 0 false stripped
    end.

(** [f"{n:>{width}}"]: right-aligned in [width] columns. *)
Definition pad_left (width : nat) (s : string) : string :=
  (String.concat "" (repeat " " (width - String.length s)) ++ s)%string.

(** The regular expression [<tag>(.*?)</tag>] with [re.DOTALL], for a tag
    whose characters stand for themselves in a pattern: the first opening
    tag that a closing tag follows, and the text up to the first closing tag
    after it. *)
Definition search_tag (tag content : string) : option (string * string) :=
  match split_at_first ("<" ++ tag ++ ">") content with
  | Some (_, after) => split_at_first ("</" ++ tag ++ ">") after
  | None => None
  end.

(** ** The syntax tree (ts_utils.py) *)

(** A node of the parser's tree, with what the code reads of it: [type],
    [start_point], [end_point] (0-based row and column), [text],
    [child_by_field_name("name")] and [children]. *)
Inductive ts_node : Type :=
  TSNode (ts_type : string) (start_point end_point : nat * nat)
         (ts_text : string) (name_field : option ts_node)
         (ts_children : list ts_node).

Definition ts_type (n : ts_node) : string :=
  match n with TSNode t _ _ _ _ _ => t end.
Definition start_point (n : ts_node) : nat * nat :=
  match n with TSNode _ s _ _ _ _ => s end.
Definition end_point (n : ts_node) : nat * nat :=
  match n with TSNode _ _ e _ _ _ => e end.
Definition ts_text (n : ts_node) : string :=
  match n with TSNode _ _ _ x _ _ => x end.
Definition name_field (n : ts_node) : option ts_node :=
  match n with TSNode _ _ _ _ f _ => f end.
Definition ts_children (n : ts_node) : list ts_node :=
  match n with TSNode _ _ _ _ _ c => c end.

(** [node.start_point[0]] and [node.end_point[0]] as integers. *)
Definition start_row (n : ts_node) : Z := Z.of_nat (fst (start_point n)).
Definition end_row (n : ts_node) : Z := Z.of_nat (fst (end_point n)).

(** The nesting depth of a tree: the step budget of the walks that recurse
    through a child found by a search. *)
Fixpoint ts_height (n : ts_node) : nat :=
  match n with
  | TSNode _ _ _ _ _ cs =>
      S ((fix heights (l : list ts_node) : nat :=
            match l with
            | [] => 0
            | c :: l' => Nat.max (ts_height c) (heights l')
            end) cs)
  end.

(** [list(range(a, b))]. *)
Definition range_Z (a b : Z) : list Z :=
  map (fun i => (a + Z.of_nat i)%Z) (seq 0 (Z.to_nat (b - a))).

(** [ts_utils.line_range]. *)
Definition line_range (start end_ : Z) : list Z :=
  if (start <=? end_)%Z then range_Z start (end_ + 1) else [].

(** [ts_utils.enclosing_node]: [walk] with the [nonlocal result] passed along. *)
Fixpoint enclosing_walk (idx : Z) (target_type : string) (n : ts_node)
    (result : option ts_node) : option ts_node :=
  match n with
  | TSNode t s e _ _ cs =>
      if ((Z.of_nat (fst s) <=? idx) && (idx <=? Z.of_nat (fst e)))%Z then
        (fix walk_children (l : list ts_node) (r : option ts_node)
           : option ts_node :=
           match l with
           | [] => r
           | c :: l' => walk_children l' (enclosing_walk idx target_type c r)
           end) cs (if String.eqb t target_type then Some n else result)
      else result
  end.

Definition enclosing_node (root : ts_node) (line_num : Z) (target_type : string)
    : option ts_node :=
  enclosing_walk (line_num - 1) target_type root None.

Definition find_children (n : ts_node) (child_type : string) : list ts_node :=
  List.filter (fun c => String.eqb (ts_type c) child_type) (ts_children n).

Definition find_first_child (n : ts_node) (child_type : string) : option ts_node :=
  List.find (fun c => String.eqb (ts_type c) child_type) (ts_children n).

Definition node_name (n : ts_node) : string :=
  match find_first_child n "identifier" with
  | Some c => ts_text c
  | None => ""
  end.

Definition node_lines (n : ts_node) : Z * Z :=
  ((start_row n + 1)%Z, (end_row n + 1)%Z).

Definition node_text (n : option ts_node) : string :=
  match n with Some x => ts_text x | None => "" end.

(** ** The code context manager *)

(** [sorted(set(l))]: the elements of [l] in ascending order, each once. *)
Fixpoint insert_sorted (x : Z) (l : list Z) : list Z :=
  match l with
  | [] => [x]
  | y :: l' =>
      if (x <? y)%Z then x :: l
      else if (x =? y)%Z then l
      else y :: insert_sorted x l'
  end.

Definition sorted_set (l : list Z) : list Z := fold_right insert_sorted [] l.

(** The manager's fields.  [get_file_calls] is not a field of the class: it
    records, in order, the invocations of [get_file_fn], each with its path
    and the content it returned. *)
Record CodeContextManager := mkCCM {
  cwd : string;
  _file_cache : gmap string string;
  _parse_cache : gmap string ts_node;
  get_file_calls : list (string * string)
}.

(** [CodeContextManager(get_file_fn, cwd)]; the delegate is passed to each
    operation instead, since what it returns changes with the sandbox. *)
Definition new_manager (cwd_ : string) : CodeContextManager :=
  mkCCM cwd_ ∅ ∅ [].

Definition _resolve_path (m : CodeContextManager) (file_path : string) : string :=
  if negb (String.eqb (cwd m) "") && negb (startswith file_path "/")
  then (cwd m ++ "/" ++ file_path)%string
  else file_path.

Definition empty_chunk (file_path_ : string) : CodeChunk :=
  mkChunk file_path_ "" "" false [] false.

Section CodeContext.

(** The parser: [ts_utils.parse_python]. *)
Variable parse_python : string -> ts_node.

(** [get_file_fn]: the sandbox's file reader at the time of a call. *)
Definition file_reader := string -> string.

Definition _read_file (get_file_fn : file_reader) (file_path_ : string)
    (m : CodeContextManager) : string * CodeContextManager :=
  match _file_cache m !! file_path_ with
  | Some content => (content, m)
  | None =>
      let content := get_file_fn file_path_ in
      (content,
       mkCCM (cwd m) (<[file_path_ := content]> (_file_cache m)) (_parse_cache m)
             (get_file_calls m ++ [(file_path_, content)]))
  end.

Definition _parse_file (get_file_fn : file_reader) (file_path_ : string)
    (m : CodeContextManager) : ts_node * CodeContextManager :=
  let (content, m1) := _read_file get_file_fn file_path_ m in
  match _parse_cache m1 !! file_path_ with
  | Some tree => (tree, m1)
  | None =>
      let tree := parse_python content in
      (tree,
       mkCCM (cwd m1) (_file_cache m1) (<[file_path_ := tree]> (_parse_cache m1))
             (get_file_calls m1))
  end.

(** [len(content.splitlines())]. *)
Definition line_count (content : string) : Z :=
  Z.of_nat (length (splitlines content)).

Definition get_nearby_code_context (get_file_fn : file_reader)
    (file_path_ : string) (line_number window_size : Z)
    (m : CodeContextManager) : CodeChunk * CodeContextManager :=
  let read_path := _resolve_path m file_path_ in
  let (content, m1) := _read_file get_file_fn read_path m in
  if String.eqb content "" then (empty_chunk file_path_, m1)
  else
    let total_lines := line_count content in
    let (root_node, m2) := _parse_file get_file_fn read_path m1 in
    let func_node := enclosing_node root_node line_number "function_definition" in
    let class_node := enclosing_node root_node line_number "class_definition" in
    let class_name_ := match class_node with Some c => node_name c | None => "" end in
    let func_name := match func_node with Some f => node_name f | None => "" end in
    let half := (window_size / 2)%Z in
    match func_node with
    | None =>
        (mkChunk file_path_ class_name_ func_name false
           (range_Z (Z.max 1 (line_number - half))
                    (Z.min total_lines (line_number + half) + 1))
           false, m2)
    | Some f =>
        let (func_start, func_end) := node_lines f in
        let func_len := (func_end - func_start + 1)%Z in
        if (func_len <=? window_size)%Z then
          (mkChunk file_path_ class_name_ func_name true
             (range_Z func_start (func_end + 1)) false, m2)
        else
          (mkChunk file_path_ class_name_ func_name false
             (range_Z (Z.max func_start (line_number - half))
                      (Z.min func_end (line_number + half) + 1))
             false, m2)
    end.

Definition get_code_lines (get_file_fn : file_reader)
    (file_path_ : string) (start end_ : Z)
    (m : CodeContextManager) : CodeChunk * CodeContextManager :=
  let read_path := _resolve_path m file_path_ in
  let (content, m1) := _read_file get_file_fn read_path m in
  if String.eqb content "" then (empty_chunk file_path_, m1)
  else
    let total := line_count content in
    let clamped_end := Z.min end_ total in
    (mkChunk file_path_ "" "" false
       (range_Z (Z.max 1 start) (clamped_end + 1)) (total <? end_)%Z, m1).

(** *** Rendering *)

Definition same_key (a b : CodeChunk) : bool :=
  String.eqb (file_path a) (file_path b)
  && String.eqb (class_name a) (class_name b)
  && String.eqb (function a) (function b).

(** One iteration of the loop of [_merge_chunks].  [by_key] is the dictionary
    in insertion order; every value carries its key. *)
Fixpoint merge_into (chunk : CodeChunk) (by_key : list CodeChunk) : list CodeChunk :=
  match by_key with
  | [] =>
      [mkChunk (file_path chunk) (class_name chunk) (function chunk)
         (whole_function chunk) (sorted_set (lines chunk)) (eof chunk)]
  | existing :: rest =>
      if same_key existing chunk then
        mkChunk (file_path existing) (class_name existing) (function existing)
          (whole_function existing || whole_function chunk)
          (sorted_set (lines existing ++ lines chunk))
          (eof existing || eof chunk) :: rest
      else existing :: merge_into chunk rest
  end.

Definition _merge_chunks (chunks : list CodeChunk) : list CodeChunk :=
  fold_left (fun by_key chunk => merge_into chunk by_key) chunks [].

(** [files.setdefault(chunk.file_path, []).append(chunk)]. *)
Fixpoint group_into (chunk : CodeChunk) (files : list (string * list CodeChunk))
    : list (string * list CodeChunk) :=
  match files with
  | [] => [(file_path chunk, [chunk])]
  | (p, cs) :: rest =>
      if String.eqb p (file_path chunk) then (p, cs ++ [chunk]) :: rest
      else (p, cs) :: group_into chunk rest
  end.

Definition group_by_file (merged : list CodeChunk) : list (string * list CodeChunk) :=
  fold_left (fun files chunk => group_into chunk files) merged [].

Definition sig_key := (string * string)%type.

(** The header lines of a definition: from its first line, or from the
    earliest decorator, through the line before the body. *)
Definition signature_span (n : ts_node) (decorator_start : option Z) : list Z :=
  let body := find_first_child n "block" in
  let start := (start_row n + 1)%Z in
  let start := match decorator_start with
               | Some d => if (d =? 0)%Z then start else Z.min start d
               | None => start
               end in
  let end_ := match body with
              | Some b => start_row b
              | None => (end_row n + 1)%Z
              end in
  line_range start (Z.max start end_).

Definition add_signature (class_name_ function_name : string) (n : ts_node)
    (decorator_start : option Z)
    (maps : gmap sig_key (list Z) * gmap sig_key (list Z))
    : gmap sig_key (list Z) * gmap sig_key (list Z) :=
  (<[(class_name_, function_name) := signature_span n decorator_start]> (fst maps),
   <[(class_name_, function_name) :=
       line_range (start_row n + 1) (end_row n + 1)]> (snd maps)).

Definition min_list (d : Z) (l : list Z) : Z := fold_left Z.min l d.

(** [walk] of [_build_signature_map]; the two dictionaries are passed along. *)
Fixpoint signature_walk (fuel : nat) (n : ts_node) (class_name_ : string)
    (decorator_start : option Z)
    (maps : gmap sig_key (list Z) * gmap sig_key (list Z))
    : gmap sig_key (list Z) * gmap sig_key (list Z) :=
  match fuel with
  | O => maps
  | S fuel' =>
      if String.eqb (ts_type n) "decorated_definition" then
        let decorators := find_children n "decorator" in
        let inherited_start :=
          match map (fun deco => (start_row deco + 1)%Z) decorators with
          | [] => decorator_start
          | d :: ds => Some (min_list d ds)
          end in
        fold_left
          (fun mp child =>
             if String.eqb (ts_type child) "decorator" then mp
             else signature_walk fuel' child class_name_ inherited_start mp)
          (ts_children n) maps
      else if String.eqb (ts_type n) "class_definition" then
        let class_text := node_text (name_field n) in
        let span := signature_span n decorator_start in
        let maps1 :=
          (<[(class_text, "") := span]> (<[("", class_text) := span]> (fst maps)),
           snd maps) in
        match find_first_child n "block" with
        | Some body =>
            fold_left
              (fun mp child => signature_walk fuel' child class_text None mp)
              (ts_children body) maps1
        | None => maps1
        end
      else if String.eqb (ts_type n) "function_definition" then
        add_signature class_name_ (node_text (name_field n)) n decorator_start maps
      else
        fold_left
          (fun mp child => signature_walk fuel' child class_name_ None mp)
          (ts_children n) maps
  end.

Definition _build_signature_map (root_node : ts_node)
    : gmap sig_key (list Z) * gmap sig_key (list Z) :=
  signature_walk (ts_height root_node) root_node "" None (∅, ∅).

Definition dict_get {K} `{Countable K} (d : gmap K (list Z)) (k : K) : list Z :=
  match d !! k with Some v => v | None => [] end.

Definition _get_signature_lines (sig_map : gmap sig_key (list Z))
    (class_name_ function_ : string) : list Z :=
  (if String.eqb class_name_ "" then [] else dict_get sig_map (class_name_, ""))
  ++ (if negb (String.eqb function_ "") then dict_get sig_map (class_name_, function_)
      else if negb (String.eqb class_name_ "") then dict_get sig_map ("", class_name_)
      else []).

Definition _get_function_range (range_map : gmap sig_key (list Z))
    (class_name_ function_ : string) : list Z :=
  dict_get range_map (class_name_, function_).

Definition statement_blocks : list string :=
  ["if_statement"; "for_statement"; "while_statement"; "with_statement";
   "try_statement"; "match_statement"].

Definition clause_blocks : list string :=
  ["elif_clause"; "else_clause"; "except_clause"; "finally_clause"; "case_clause"].

Definition type_in (n : ts_node) (types : list string) : bool :=
  existsb (String.eqb (ts_type n)) types.

Fixpoint collect_declarations (fuel : nat) (n : ts_node) : list Z :=
  match fuel with
  | O => []
  | S fuel' =>
      (if type_in n statement_blocks || type_in n clause_blocks
       then [(start_row n + 1)%Z] else [])
      ++ flat_map
           (fun child =>
              if type_in child clause_blocks then collect_declarations fuel' child
              else if String.eqb (ts_type child) "block" then
                flat_map
                  (fun grandchild =>
                     if type_in grandchild clause_blocks
                     then collect_declarations fuel' grandchild else [])
                  (ts_children child)
              else [])
           (ts_children n)
  end.

(** [parents.setdefault(ln, set()).update(local)] for every [ln] of [lns]. *)
Definition add_parents (lns local : list Z) (parents : gmap Z (list Z))
    : gmap Z (list Z) :=
  fold_left (fun ps ln => <[ln := dict_get ps ln ++ local]> ps) lns parents.

(** [walk] of [_build_block_parents]. *)
Fixpoint block_walk (n : ts_node) (enclosing : list Z) (parents : gmap Z (list Z))
    : gmap Z (list Z) :=
  match n with
  | TSNode _ _ _ _ _ cs =>
      let is_statement := type_in n statement_blocks in
      let local := if is_statement
                   then enclosing ++ collect_declarations (ts_height n) n
                   else enclosing in
      let parents1 :=
        if is_statement
        then add_parents (line_range (start_row n + 1) (end_row n + 1)) local parents
        else parents in
      (fix walk_children (l : list ts_node) (ps : gmap Z (list Z))
         : gmap Z (list Z) :=
         match l with
         | [] => ps
         | c :: l' => walk_children l' (block_walk c local ps)
         end) cs parents1
  end.

Definition _build_block_parents (root_node : ts_node) : gmap Z (list Z) :=
  block_walk root_node [] ∅.

Definition _get_block_declaration_lines (block_map : gmap Z (list Z)) (line : Z)
    : list Z :=
  dict_get block_map line.

(** What one chunk adds to [needed] in [_collect_needed_lines]. *)
Definition chunk_needs (sig_map range_map : gmap sig_key (list Z))
    (block_map : gmap Z (list Z)) (chunk : CodeChunk) : list Z :=
  _get_signature_lines sig_map (class_name chunk) (function chunk)
  ++ (if whole_function chunk
      then _get_function_range range_map (class_name chunk) (function chunk)
      else lines chunk
           ++ flat_map (_get_block_declaration_lines block_map) (lines chunk)).

(** [_collect_needed_lines]; the set [needed] is the list of what was added. *)
Definition _collect_needed_lines (chunks : list CodeChunk) (content : string)
    : list Z :=
  let root_node := parse_python content in
  let (sig_map, range_map) := _build_signature_map root_node in
  let block_map := _build_block_parents root_node in
  fold_left (fun needed chunk => needed ++ chunk_needs sig_map range_map block_map chunk)
            chunks [].

Definition max_list (d : Z) (l : list Z) : Z := fold_left Z.max l d.

(** The loop body of [_render_lines]: the state is [(parts, prev_line)]. *)
Definition render_line (file_lines : list string) (width : nat)
    (state : list string * option Z) (line_number : Z)
    : list string * option Z :=
  let (parts, prev_line) := state in
  if ((line_number <? 1) || (Z.of_nat (length file_lines) <? line_number))%Z
  then state
  else
    let parts1 := match prev_line with
                  | Some p => if (p + 1 <? line_number)%Z then parts ++ ["..."]
                              else parts
                  | None => parts
                  end in
    (parts1 ++ [(pad_left width (str_of_Z line_number) ++ " "
                 ++ nth (Z.to_nat (line_number - 1)) file_lines "")%string],
     Some line_number).

Definition newline : string := String (ascii_of_nat 10) EmptyString.

Definition _render_lines (file_lines : list string) (line_numbers : list Z)
    (eof_ : bool) : string :=
  match line_numbers with
  | [] => ""
  | n0 :: ns =>
      let width := String.length (str_of_Z (max_list n0 ns)) + 1 in
      let parts := fst (fold_left (render_line file_lines width) line_numbers
                          ([], None)) in
      join newline (if eof_ then parts ++ ["  [EOF]"] else parts)
  end.

(** The body of the loop over [files.items()] in [render]. *)
Definition render_file (get_file_fn : file_reader)
    (state : list string * CodeContextManager)
    (entry : string * list CodeChunk) : list string * CodeContextManager :=
  let (sections, m) := state in
  let (file_path_, file_chunks) := entry in
  let full_path := _resolve_path m file_path_ in
  let (content, m1) := _read_file get_file_fn full_path m in
  let file_lines := splitlines content in
  match file_lines with
  | [] => (sections, m1)
  | _ :: _ =>
      let needed_lines := _collect_needed_lines file_chunks content in
      match needed_lines with
      | [] => (sections, m1)
      | _ :: _ =>
          let eof_ := existsb eof file_chunks in
          let rendered := _render_lines file_lines (sorted_set needed_lines) eof_ in
          (sections ++ [("## File: `" ++ file_path_ ++ "`" ++ newline ++ rendered)%string],
           m1)
      end
  end.

Definition render (get_file_fn : file_reader) (chunks : list CodeChunk)
    (m : CodeContextManager) : string * CodeContextManager :=
  let merged := _merge_chunks chunks in
  match merged with
  | [] => ("", m)
  | _ :: _ =>
      let (sections, m1) :=
        fold_left (render_file get_file_fn) (group_by_file merged) ([], m) in
      (join (newline ++ newline) sections, m1)
  end.

End CodeContext.

(** *** Enclosing nodes *)




(** [l] lists the integers from [lo] to [hi] in ascending order. *)
Definition interval (l : list Z) (lo hi : Z) : Prop :=
  StronglySorted Z.lt l /\ forall x, In x l <-> (lo <= x <= hi)%Z.

(** The parse cache holds the parse of the cached content. *)
Definition caches_consistent (parse_python : string -> ts_node)
    (m : CodeContextManager) : Prop :=
  forall p tree, _parse_cache m !! p = Some tree ->
  exists content, _file_cache m !! p = Some content /\ tree = parse_python content.

(** A file of five lines without any function. *)
Definition five_lines : string :=
  ("a = 1" ++ newline ++ "b = 2" ++ newline ++ "c = 3" ++ newline
   ++ "d = 4" ++ newline ++ "e = 5" ++ newline)%string.


(** *** Sequences of calls *)

(** A call of one of the manager's operations. *)
Inductive manager_call :=
| CallNearby (file_path_ : string) (line_number window_size : Z)
| CallCodeLines (file_path_ : string) (start end_ : Z)
| CallRender (chunks : list CodeChunk).

Inductive call_result :=
| ResultChunk (chunk : CodeChunk)
| ResultText (text : string).

Definition run_call (parse_python : string -> ts_node) (get_file_fn : file_reader)
    (call : manager_call) (m : CodeContextManager)
    : call_result * CodeContextManager :=
  match call with
  | CallNearby p l w =>
      let (chunk, m') := get_nearby_code_context parse_python get_file_fn p l w m in
      (ResultChunk chunk, m')
  | CallCodeLines p s e =>
      let (chunk, m') := get_code_lines get_file_fn p s e m in
      (ResultChunk chunk, m')
  | CallRender chunks =>
      let (text, m') := render parse_python get_file_fn chunks m in
      (ResultText text, m')
  end.

(** A run: each call comes with the sandbox's reader at the time of the call,
    so a file may change between two calls. *)
Fixpoint run_calls (parse_python : string -> ts_node)
    (calls : list (file_reader * manager_call)) (m : CodeContextManager)
    : CodeContextManager :=
  match calls with
  | [] => m
  | (get_file_fn, call) :: rest =>
      run_calls parse_python rest (snd (run_call parse_python get_file_fn call m))
  end.

(** Two readers agree on every path the manager has not read yet. *)
Definition agree_on_unread (m : CodeContextManager) (fs1 fs2 : file_reader) : Prop :=
  forall p, _file_cache m !! p = None -> fs1 p = fs2 p.

(** The delegate was invoked at most once for each path, and the file cache
    holds exactly what it returned. *)
Definition reads_once (m : CodeContextManager) : Prop :=
  NoDup (map fst (get_file_calls m)) /\
  forall p c, In (p, c) (get_file_calls m) <-> _file_cache m !! p = Some c.

(** [m'] keeps every cache entry of [m]. *)
Definition keeps_cache (m m' : CodeContextManager) : Prop :=
  forall p c, _file_cache m !! p = Some c -> _file_cache m' !! p = Some c.

(** [m'] keeps every cached parse of [m]. *)
Definition keeps_parses (m m' : CodeContextManager) : Prop :=
  forall p tree, _parse_cache m !! p = Some tree -> _parse_cache m' !! p = Some tree.

(** [m] with another parse cache. *)
Definition with_parse_cache (trees : gmap string ts_node) (m : CodeContextManager)
    : CodeContextManager :=
  mkCCM (cwd m) (_file_cache m) trees (get_file_calls m).

(** What every operation maintains: cache entries stay, [cwd] stays, and the
    two invariants of the caches are kept. *)
Definition cache_step_for (parse_python : string -> ts_node)
    (m m' : CodeContextManager) : Prop :=
  keeps_cache m m' /\
  cwd m' = cwd m /\
  (reads_once m -> reads_once m') /\
  (caches_consistent parse_python m -> caches_consistent parse_python m').

(** *** Order of the files in a list of chunks *)

(** The elements of [l] in the order in which they first occur. *)
Fixpoint first_occurrences (l : list string) : list string :=
  match l with
  | [] => []
  | x :: r => x :: List.filter (fun y => negb (String.eqb y x)) (first_occurrences r)
  end.

(** The file paths of [chunks] in the order in which they first occur. *)
Definition file_order (chunks : list CodeChunk) : list string :=
  first_occurrences (map file_path chunks).

(** A one-line file, its tree, and one chunk for each of two paths. *)
Definition one_line : string := ("x = 1" ++ newline)%string.

Definition one_line_tree : ts_node :=
  TSNode "module" (0, 0) (1, 0) one_line None
    [TSNode "expression_statement" (0, 0) (0, 5) "x = 1" None []].

Definition chunk_a : CodeChunk := mkChunk "a.py" "" "" false [1%Z] false.
Definition chunk_b : CodeChunk := mkChunk "b.py" "" "" false [1%Z] false.
Definition chunk_a2 : CodeChunk := mkChunk "a.py" "" "" false [2%Z; 1%Z] true.

(** *** Entries of the merge dictionary *)

(** The entry a chunk is merged into: [existing] updated with [chunk]. *)
Definition merged_with (existing chunk : CodeChunk) : CodeChunk :=
  mkChunk (file_path existing) (class_name existing) (function existing)
    (whole_function existing || whole_function chunk)
    (sorted_set (lines existing ++ lines chunk))
    (eof existing || eof chunk).

(** The entry a chunk with a new key creates. *)
Definition fresh_entry (chunk : CodeChunk) : CodeChunk :=
  mkChunk (file_path chunk) (class_name chunk) (function chunk)
    (whole_function chunk) (sorted_set (lines chunk)) (eof chunk).

Definition key_of (c : CodeChunk) : string * string * string :=
  (file_path c, class_name c, function c).


(** The chunks of [l] whose file is [p], and the entry of [p] in [files]. *)
Definition chunks_of_file (l : list CodeChunk) (p : string) : list CodeChunk :=
  List.filter (fun c => String.eqb p (file_path c)) l.

Definition file_entry (l : list CodeChunk) (p : string) : string * list CodeChunk :=
  (p, chunks_of_file l p).

(** *** Chunks of one key, and chunks of cached files *)

(** The chunks of [l] with the key of [k], in the order of [l]. *)
Definition chunks_of_key (l : list CodeChunk) (k : CodeChunk) : list CodeChunk :=
  List.filter (fun c => same_key k c) l.

(** The file of [c] has been read: its resolved path is in the file cache. *)
Definition known (m : CodeContextManager) (c : CodeChunk) : Prop :=
  is_Some (_file_cache m !! _resolve_path m (file_path c)).




(** *** The sections of a rendered text *)

(** What an operation reads for the resolved path [q]: the cached content,
    and the answer of the reader when the path is not cached. *)
Definition content_for (get_file_fn : file_reader) (m : CodeContextManager)
    (q : string) : string :=
  match _file_cache m !! q with
  | Some c => c
  | None => get_file_fn q
  end.

(** The section of the file [p] in the text of [render], for the merged
    chunks [cs] of that file; [None] when the file has no line to show. *)
Definition file_section (parse_python : string -> ts_node)
    (get_file_fn : file_reader) (m : CodeContextManager)
    (entry : string * list CodeChunk) : option string :=
  let (p, cs) := entry in
  let content := content_for get_file_fn m (_resolve_path m p) in
  match splitlines content with
  | [] => None
  | _ :: _ =>
      match _collect_needed_lines parse_python cs content with
      | [] => None
      | _ :: _ =>
          Some ("## File: `" ++ p ++ "`" ++ newline
                ++ _render_lines (splitlines content)
                     (sorted_set (_collect_needed_lines parse_python cs content))
                     (existsb eof cs))%string
      end
  end.

(** [m'] has the cache of [m] and the answers of [get_file_fn] for further
    paths. *)
Definition extends_by (get_file_fn : file_reader) (m m' : CodeContextManager)
    : Prop :=
  cwd m' = cwd m /\
  forall q, content_for get_file_fn m' q = content_for get_file_fn m q.

(** A file with one function, its tree, the chunk of that function, and a
    parser that finds nothing in any text. *)
Definition one_function : string :=
  ("def f():" ++ newline ++ "    return 1" ++ newline)%string.

Definition one_function_tree : ts_node :=
  TSNode "module" (0, 0) (2, 0) one_function None
    [TSNode "function_definition" (0, 0) (1, 12) "def f(): ..."
       (Some (TSNode "identifier" (0, 4) (0, 5) "f" None []))
       [TSNode "identifier" (0, 4) (0, 5) "f" None [];
        TSNode "parameters" (0, 5) (0, 7) "()" None [];
        TSNode "block" (1, 4) (1, 12) "return 1" None []]].

Definition chunk_f : CodeChunk := mkChunk "a.py" "" "f" true [1%Z; 2%Z] false.

Definition blank_parser : string -> ts_node :=
  fun _ => TSNode "module" (0, 0) (0, 0) "" None [].

(** ** The agent (llm_ide_agent.py): parsing the model's response *)

(** [re]'s [\w] on one character of a [str] pattern. *)
Definition is_word (c : ascii) : bool :=
  between 48 57 (code c) || between 65 90 (code c) || (code c =? 95)
  || between 97 122 (code c) || (code c =? 170) || between 178 179 (code c)
  || (code c =? 181) || between 185 186 (code c) || between 188 190 (code c)
  || between 192 214 (code c) || between 216 246 (code c)
  || between 248 255 (code c).

Definition backtick : string := String (ascii_of_nat 96) EmptyString.
Definition fence : string := (backtick ++ backtick ++ backtick)%string.

(** A character that stands for itself in a regular expression: none of
    [. ^ $ * + ? { } [ ] \ | ( )]. *)
Definition is_literal (c : ascii) : bool :=
  negb (existsb (Nat.eqb (code c))
          [46; 94; 36; 42; 43; 63; 123; 125; 91; 93; 92; 124; 40; 41]).

(** A tag that [rf"<{tag}>(.*?)</{tag}>"] matches as it is written. *)
Fixpoint literal_tag (tag : string) : bool :=
  match tag with
  | EmptyString => true
  | String c tag' => is_literal c && literal_tag tag'
  end.

(** [_parse_tag], for a [literal_tag]; the agent calls it with ["decision"],
    ["summary"], ["lessons"], ["thoughts"] and ["property"]. *)
Definition _parse_tag (content tag : string) : string :=
  match search_tag tag content with
  | Some (group, _) => strip group
  | None => ""
  end.

(** What the greedy [\w*] leaves. *)
Fixpoint drop_word (s : string) : string :=
  match s with
  | String c s' => if is_word c then drop_word s' else s
  | EmptyString => EmptyString
  end.

(** What the optional newline of a pattern leaves. *)
Definition drop_newline (s : string) : string :=
  match s with
  | String c s' => if is_lf c then s' else s
  | EmptyString => EmptyString
  end.

(** [re.sub(r"^```\w*\n?", "", s)]. *)
Definition remove_opening_fence (s : string) : string :=
  match strip_prefix fence s with
  | Some rest => drop_newline (drop_word rest)
  | None => s
  end.

(** The text before a closing fence at the end of [s], with the newline in
    front of the fence when there is one. *)
Definition cut_fence (s : string) : option string :=
  match strip_suffix (newline ++ fence) s with
  | Some r => Some r
  | None => strip_suffix fence s
  end.

(** [re.sub(r"\n?```$", "", s)]; [$] matches at the end of the string and in
    front of a newline that ends the string. *)
Definition remove_closing_fence (s : string) : string :=
  match strip_suffix newline s with
  | Some body =>
      match cut_fence body with
      | Some r => (r ++ newline)%string
      | None => s
      end
  | None =>
      match cut_fence s with
      | Some r => r
      | None => s
      end
  end.

(** [s[1:-1]]. *)
Fixpoint drop_last (s : string) : string :=
  match s with
  | EmptyString => EmptyString
  | String c EmptyString => EmptyString
  | String c s' => String c (drop_last s')
  end.

Definition slice_1_m1 (s : string) : string :=
  match s with
  | EmptyString => EmptyString
  | String _ s' => drop_last s'
  end.

(** [_strip_backticks]. *)
Definition _strip_backticks (text : string) : string :=
  let s := strip text in
  if startswith s fence then
    strip (remove_closing_fence (remove_opening_fence s))
  else if startswith s backtick && endswith s backtick then
    strip (slice_1_m1 s)
  else s.

(** The groups of [re.finditer(r"<tag>(.*?)</tag>", content, re.DOTALL)]; the
    search goes on behind each match.  [None]: the step budget ran out. *)
Fixpoint find_tags (fuel : nat) (tag content : string) : option (list string) :=
  match fuel with
  | O => None
  | S fuel' =>
      match search_tag tag content with
      | Some (group, rest) =>
          match find_tags fuel' tag rest with
          | Some l => Some (group :: l)
          | None => None
          end
      | None => Some []
      end
  end.

(** [_parse_actions]. *)
Definition _parse_actions (content : string) : option (list string) :=
  match find_tags (S (String.length content)) "action" content with
  | Some groups =>
      Some (List.filter (fun a => negb (String.eqb a ""))
              (map _strip_backticks groups))
  | None => None
  end.

(** [ActionProperty(property_str)]; [None] is the [ValueError] that
    [_process_action] turns into [action_property = None]. *)
Definition ActionProperty_of_string (s : string) : option ActionProperty :=
  if String.eqb s "exploratory" then Some EXPLORATORY
  else if String.eqb s "exploitative" then Some EXPLOITATIVE
  else None.

(** *** Code chunks of a node *)

(** [_chunk_key] and the comparison of two keys. *)
Definition _chunk_key (c : CodeChunk) : string * string * string * bool * list Z :=
  (file_path c, class_name c, function c, whole_function c, lines c).

Definition chunk_key_eqb (a b : CodeChunk) : bool :=
  String.eqb (file_path a) (file_path b)
  && String.eqb (class_name a) (class_name b)
  && String.eqb (function a) (function b)
  && Bool.eqb (whole_function a) (whole_function b)
  && bool_decide (lines a = lines b).

(** [_append_unique_code_chunk]. *)
Definition _append_unique_code_chunk (chunks : list CodeChunk) (chunk : CodeChunk)
    : list CodeChunk :=
  if existsb (fun c => chunk_key_eqb chunk c) chunks then chunks
  else chunks ++ [chunk].

(** *** Submission *)

Definition submission_sentinels : list string :=
  ["MINI_SWE_AGENT_FINAL_OUTPUT"; "COMPLETE_TASK_AND_SUBMIT_FINAL_OUTPUT"].

(** No character of [l] is a line boundary. *)
Fixpoint no_linebreak (l : string) : bool :=
  match l with
  | EmptyString => true
  | String c l' => negb (is_linebreak c) && no_linebreak l'
  end.

Definition starts_with_lf (s : string) : bool :=
  match s with
  | String d _ => is_lf d
  | EmptyString => false
  end.

(** [t] ends a line in front of [rest]: it is a line boundary, where a
    carriage return and the line feed behind it are one boundary, or it is
    empty at the end of the text. *)
Definition ends_line (t rest : string) : Prop :=
  (t = "" /\ rest = "")
  \/ (exists c, t = String c "" /\ is_linebreak c = true /\
                 (is_cr c = true -> starts_with_lf rest = false))
  \/ (exists c d, t = String c (String d "") /\ is_cr c = true /\ is_lf d = true).

(** [first] is the first line of [text], its line boundary included, and
    [rest] is what follows it. *)
Definition first_line (text first rest : string) : Prop :=
  text = (first ++ rest)%string /\ first <> "" /\
  exists l t, first = (l ++ t)%string /\ no_linebreak l = true /\ ends_line t rest.

(** [pre] is empty or ends with a line boundary: what follows it starts a
    line. *)
Fixpoint at_line_start (pre : string) : bool :=
  match pre with
  | EmptyString => true
  | String c EmptyString => is_linebreak c
  | String _ pre' => at_line_start pre'
  end.

(** [first] is the first line of [output] that is not blank, its line
    boundary included, and [rest] is what follows it: before it come only
    lines of whitespace, and it holds a character that is not whitespace.
    Lines are those of [str.splitlines]. *)
Definition first_nonblank_line (output first rest : string) : Prop :=
  exists pre l t,
    output = (pre ++ first ++ rest)%string /\ first = (l ++ t)%string /\
    lstrip pre = "" /\ at_line_start pre = true /\
    no_linebreak l = true /\ lstrip l <> "" /\ ends_line t rest.

(** The test of [_check_submission]: [Some text] when [Submitted(text)] is
    raised. *)
Definition submitted_text (output : string) : option string :=
  match splitlines_keepends (lstrip output) with
  | first :: rest =>
      if existsb (String.eqb (strip first)) submission_sentinels
      then Some (join_empty rest) else None
  | [] => None
  end.

(** ** The agent: state, sandbox and exceptions *)

(** The exceptions that leave the methods below. *)
Inductive exn :=
| FormatError (msg : string)
| ExecutionTimeoutError (msg : string)
| Submitted (msg : string)
| NotImplementedError (msg : string)
| ValueError
| TypeError
| AttributeError
| OverflowError
| TimeoutExpired (output : option string).

(** What [env.execute] does: it returns the dictionary with ["output"] and
    ["returncode"], or raises [TimeoutError] or [subprocess.TimeoutExpired]
    with the output captured so far. *)
Inductive exec_result :=
| Completed (output : string) (returncode : Z)
| TimedOut (output : option string).

(** [CodeContext] and [LLMIDEToolResponseFormat] of the tool protocol: the
    fields hold what [json.loads] returned under their keys, unchecked. *)
Record CodeContext := mkCodeContext {
  cc_file_path : json;
  cc_line_number : json
}.

Record ToolResponse := mkToolResponse {
  tr_package_name : json;
  tr_output : json;
  tr_returncode : json;
  tr_code_context : option (list CodeContext);
  tr_status : json
}.

Definition is_none (v : json) : bool :=
  match v with JNull => true | _ => false end.

(** [int(v)] on a value of [json.loads]: a [float] is cut towards zero,
    [OverflowError] for an infinity and [ValueError] for [nan]; a [str] is
    read as a decimal number; [TypeError] for [None], a [list] or a [dict]. *)
Definition py_int (v : json) : exn + Z :=
  match v with
  | JBool b => inr (if b then 1 else 0)%Z
  | JInt n => inr n
  | JFloat (Finite m e) =>
      inr (if (0 <=? e)%Z then (m * 2 ^ e)%Z else Z.quot m (2 ^ (- e)))
  | JFloat (Infinity _) => inl OverflowError
  | JFloat NaN => inl ValueError
  | JStr s =>
      match int_of_string s with
      | Some n => inr n
      | None => inl ValueError
      end
  | JNull | JList _ | JDict _ => inl TypeError
  end.

(** The list comprehension of [from_string] over [data["code_context"]]:
    every item must have a [get], which of the values of [json.loads] only a
    [dict] has; iterating over a [dict] or a [str] gives keys or characters,
    and a number cannot be iterated over. *)
Fixpoint code_context_items (items : list json) : exn + list CodeContext :=
  match items with
  | [] => inr []
  | JDict ctx :: rest =>
      match code_context_items rest with
      | inr contexts =>
          inr (mkCodeContext (json_get "file_path" ctx)
                 (json_get "line_number" ctx) :: contexts)
      | inl e => inl e
      end
  | _ :: _ => inl AttributeError
  end.

Definition code_contexts_of (v : json) : exn + option (list CodeContext) :=
  match v with
  | JNull => inr None
  | JList items =>
      match code_context_items items with
      | inr contexts => inr (Some contexts)
      | inl e => inl e
      end
  | JDict [] | JStr EmptyString => inr (Some [])
  | JDict (_ :: _) | JStr (String _ _) => inl AttributeError
  | JBool _ | JInt _ | JFloat _ => inl TypeError
  end.

(** The body of the loop of [from_string] behind [json.loads]: [data.get]
    raises [AttributeError] unless [data] is a [dict]. *)
Definition from_data (data : json) : exn + ToolResponse :=
  match data with
  | JDict d =>
      match code_contexts_of (json_get "code_context" d) with
      | inr code_contexts =>
          inr (mkToolResponse (json_get "package_name" d) (json_get "output" d)
                 (json_get "returncode" d) code_contexts (json_get "status" d))
      | inl e => inl e
      end
  | _ => inl AttributeError
  end.

(** An entry of [installed_tools]: its ["name"] and ["status"] keys. *)
Record InstalledTool := mkInstalledTool {
  tool_name : string;
  tool_state : option json
}.

(** The outcome of a method: a value, an exception, or a loop of the model
    that ran out of its step budget. *)
Inductive result (A : Type) :=
| Ok (value : A)
| Raise (e : exn)
| OutOfFuel.
Arguments Ok {A} value.
Arguments Raise {A} e.
Arguments OutOfFuel {A}.

(** What lies outside the agent object: the sandbox behind [env], the
    libraries, and the configuration. *)
Class Externals (World : Type) := {
  (** [env.execute] and [env.get_file]. *)
  execute : string -> World -> exec_result * World;
  get_file : World -> string -> string;
  (** [ts_utils.parse_python], [json.loads] ([None] when it raises), and
      [base64.b64encode]. *)
  ts_parse_python : string -> ts_node;
  decode : string -> option json;
  b64encode : string -> string;
  (** [render_template(config.format_error_template)] and
      [render_template(config.timeout_template, output=...)]. *)
  format_error_message : World -> string;
  timeout_message : string -> World -> string;
  (** Whether [config.history_output_path] is set. *)
  history_enabled : bool
}.

(** The fields of the agent the methods below use.  [history_writes] is not a
    field: it lists the files [_save_history_text] wrote, as
    [(round_index, kind, text)]. *)
Record LLMIDEAgent (World : Type) := mkAgent {
  action_manager : ActionManager;
  code_context_manager : option CodeContextManager;
  n_operations : Z;
  installed_tools : list InstalledTool;
  default_code_chunks : list CodeChunk;
  history_writes : list (Z * string * string);
  env : World
}.
Arguments mkAgent {World}.
Arguments action_manager {World}.
Arguments code_context_manager {World}.
Arguments n_operations {World}.
Arguments installed_tools {World}.
Arguments default_code_chunks {World}.
Arguments history_writes {World}.
Arguments env {World}.

Section Agent.

Context {World : Type} {sandbox : Externals World}.

Definition set_action_manager (am : ActionManager) (a : LLMIDEAgent World) :=
  mkAgent am (code_context_manager a) (n_operations a) (installed_tools a)
    (default_code_chunks a) (history_writes a) (env a).
Definition set_code_context_manager (m : option CodeContextManager)
    (a : LLMIDEAgent World) :=
  mkAgent (action_manager a) m (n_operations a) (installed_tools a)
    (default_code_chunks a) (history_writes a) (env a).
Definition set_n_operations (n : Z) (a : LLMIDEAgent World) :=
  mkAgent (action_manager a) (code_context_manager a) n (installed_tools a)
    (default_code_chunks a) (history_writes a) (env a).
Definition set_installed_tools (l : list InstalledTool) (a : LLMIDEAgent World) :=
  mkAgent (action_manager a) (code_context_manager a) (n_operations a) l
    (default_code_chunks a) (history_writes a) (env a).
Definition set_history_writes (l : list (Z * string * string))
    (a : LLMIDEAgent World) :=
  mkAgent (action_manager a) (code_context_manager a) (n_operations a)
    (installed_tools a) (default_code_chunks a) l (env a).
Definition set_env (w : World) (a : LLMIDEAgent World) :=
  mkAgent (action_manager a) (code_context_manager a) (n_operations a)
    (installed_tools a) (default_code_chunks a) (history_writes a) w.

(** *** Methods as state transformers that may raise *)

Definition M (A : Type) : Type :=
  LLMIDEAgent World -> result A * LLMIDEAgent World.

Definition ret {A} (x : A) : M A := fun a => (Ok x, a).
Definition raise {A} (e : exn) : M A := fun a => (Raise e, a).
Definition lift {A} (r : exn + A) : M A :=
  match r with
  | inr x => ret x
  | inl e => raise e
  end.
Definition out_of_fuel {A} : M A := fun a => (OutOfFuel, a).

Definition bind {A B} (m : M A) (f : A -> M B) : M B :=
  fun a =>
    match m a with
    | (Ok x, a') => f x a'
    | (Raise e, a') => (Raise e, a')
    | (OutOfFuel, a') => (OutOfFuel, a')
    end.

Notation "x <-- m ;; f" := (bind m (fun x => f))
  (at level 90, m at next level, right associativity).
Notation "m ;;; f" := (bind m (fun _ => f))
  (at level 90, right associativity).

Definition get_agent : M (LLMIDEAgent World) := fun a => (Ok a, a).
Definition modify (f : LLMIDEAgent World -> LLMIDEAgent World) : M unit :=
  fun a => (Ok tt, f a).

(** A write on the operation tree. *)
Definition tree (f : ActionManager -> ActionManager) : M unit :=
  modify (fun a => set_action_manager (f (action_manager a)) a).

(** [for x in l: body(x)]. *)
Fixpoint for_each {A} (l : list A) (body : A -> M unit) : M unit :=
  match l with
  | [] => ret tt
  | x :: l' => body x ;;; for_each l' body
  end.

(** [self.env.execute(command)] where a timeout is not caught. *)
Definition env_execute (command : string) : M (string * Z) :=
  fun a =>
    match execute command (env a) with
    | (Completed output returncode, w) => (Ok (output, returncode), set_env w a)
    | (TimedOut output, w) => (Raise (TimeoutExpired output), set_env w a)
    end.

(** *** Version control and tool status *)

Definition _get_git_diff : M string :=
  env_execute "git add -N ." ;;;
  r <-- env_execute "git --no-pager diff HEAD" ;;
  ret (if (snd r =? 0)%Z then fst r else "").

Definition _apply_patch (diff : string) : M unit :=
  env_execute
    ("printf '%s' '" ++ b64encode diff ++ "' | base64 -d > /tmp/_vc_patch.diff && "
     ++ "git apply --whitespace=nowarn /tmp/_vc_patch.diff ; "
     ++ "rm -f /tmp/_vc_patch.diff") ;;;
  ret tt.

Definition _sync_version_control : M unit :=
  a <-- get_agent ;;
  if negb (has_real_current (action_manager a)) then ret tt
  else
    let n := node (action_manager a) (current (action_manager a)) in
    current_diff <-- _get_git_diff ;;
    if String.eqb current_diff (code_change n) then ret tt
    else
      env_execute "git reset --hard HEAD && git clean -fd" ;;;
      if String.eqb (code_change n) "" then ret tt
      else _apply_patch (code_change n).

(** [tool["status"] = status] on the first tool whose name equals [pkg];
    a name is a [str], which only a [str] equals. *)
Fixpoint set_tool_state (pkg status_ : json) (tools : list InstalledTool)
    : list InstalledTool :=
  match tools with
  | [] => []
  | t :: rest =>
      if match pkg with JStr name => String.eqb (tool_name t) name | _ => false end
      then mkInstalledTool (tool_name t) (Some status_) :: rest
      else t :: set_tool_state pkg status_ rest
  end.

Definition _update_tool_status : M unit :=
  a <-- get_agent ;;
  if negb (has_real_current (action_manager a)) then ret tt
  else
    let n := node (action_manager a) (current (action_manager a)) in
    for_each (tool_status n)
      (fun entry =>
         modify (fun a' => set_installed_tools
                             (set_tool_state (fst entry) (snd entry)
                                (installed_tools a')) a')).

(** *** History *)

Definition _get_round_index (a : LLMIDEAgent World) : Z := (n_operations a + 1)%Z.

Definition _save_history_text (round_index : Z) (kind text : string) : M unit :=
  if history_enabled
  then modify (fun a => set_history_writes
                          (history_writes a ++ [(round_index, kind, text)]) a)
  else ret tt.

(** *** Built-in tools *)

Definition _handle_code_chunk (chunk : CodeChunk) : M (string * Z) :=
  tree (on_active (append_code_chunk chunk)) ;;;
  ret
    (if whole_function chunk then
       ("Function " ++ function chunk ++ " in file " ++ file_path chunk
        ++ " is added into the code context.")%string
     else match lines chunk with
          | [] => ("No lines found for " ++ file_path chunk)%string
          | first :: _ =>
              ("Lines " ++ str_of_Z first ++ " to "
               ++ str_of_Z (List.last (lines chunk) first) ++ " of file "
               ++ file_path chunk ++ " are added into the code context.")%string
          end,
     0%Z).

(** [annotation(parts[i])] for an [int] parameter. *)
Definition int_arg (part : string) : M Z :=
  match int_of_string part with
  | Some z => ret z
  | None => raise ValueError
  end.

(** A call of the code context manager with the sandbox's reader. *)
Definition with_manager {A}
    (f : file_reader -> CodeContextManager -> A * CodeContextManager)
    (m : CodeContextManager) : M A :=
  fun a =>
    let (x, m') := f (get_file (env a)) m in
    (Ok x, set_code_context_manager (Some m') a).

(** The tool [get-nearby-code-context] on the words behind its name. *)
Definition call_get_nearby_code_context (parts : list string)
    (m : CodeContextManager) : M (string * Z) :=
  match parts with
  | [] => raise TypeError
  | [file_path_] => raise TypeError
  | [file_path_; line] =>
      line_number <-- int_arg line ;;
      chunk <-- with_manager
                  (fun fs => get_nearby_code_context ts_parse_python fs file_path_
                               line_number 100) m ;;
      _handle_code_chunk chunk
  | file_path_ :: line :: window :: _ =>
      line_number <-- int_arg line ;;
      window_size <-- int_arg window ;;
      chunk <-- with_manager
                  (fun fs => get_nearby_code_context ts_parse_python fs file_path_
                               line_number window_size) m ;;
      _handle_code_chunk chunk
  end.

(** The tool [get-code-lines] on the words behind its name. *)
Definition call_get_code_lines (parts : list string) (m : CodeContextManager)
    : M (string * Z) :=
  match parts with
  | [] => raise TypeError
  | [file_path_] => raise TypeError
  | [file_path_; start] => int_arg start ;;; raise TypeError
  | file_path_ :: start :: end_ :: _ =>
      start_line <-- int_arg start ;;
      end_line <-- int_arg end_ ;;
      chunk <-- with_manager
                  (fun fs => get_code_lines fs file_path_ start_line end_line) m ;;
      _handle_code_chunk chunk
  end.

(** [_run_builtin_tool]; the tools are bound to the agent's code context
    manager, as [run] sets them up. *)
Definition _run_builtin_tool (command : string) : M (option (string * Z)) :=
  a <-- get_agent ;;
  match code_context_manager a with
  | None => ret None
  | Some m =>
      let stripped := strip command in
      match strip_prefix "get-nearby-code-context" stripped with
      | Some params_str =>
          r <-- call_get_nearby_code_context (split_ws params_str) m ;;
          ret (Some r)
      | None =>
          match strip_prefix "get-code-lines" stripped with
          | Some params_str =>
              r <-- call_get_code_lines (split_ws params_str) m ;;
              ret (Some r)
          | None => ret None
          end
      end
  end.

(** *** Executing the actions *)

Definition _check_submission (output : string) : M unit :=
  match submitted_text output with
  | Some text =>
      a <-- get_agent ;;
      _save_history_text (_get_round_index a) "response" "Submitted" ;;;
      raise (Submitted text)
  | None => ret tt
  end.

Definition _execute_command (command : string) : M (string * Z) :=
  builtin_result <-- _run_builtin_tool command ;;
  match builtin_result with
  | Some r => ret r
  | None =>
      fun a =>
        match execute command (env a) with
        | (TimedOut output, w) =>
            (Raise (ExecutionTimeoutError
                      (timeout_message (default "" output) w)),
             set_env w a)
        | (Completed output returncode, w) =>
            (_check_submission output ;;; ret (output, returncode)) (set_env w a)
        end
  end.

(** [LLMIDEToolResponseFormat.from_string]. *)
Fixpoint decode_all (json_strs : list string) : M (list ToolResponse) :=
  match json_strs with
  | [] => ret []
  | json_str :: rest =>
      match decode json_str with
      | None => decode_all rest
      | Some data =>
          response <-- lift (from_data data) ;;
          results <-- decode_all rest ;;
          ret (response :: results)
      end
  end.

Definition from_string (raw_str : string) : M (list ToolResponse) :=
  match find_tags (S (String.length raw_str)) "tool-response" raw_str with
  | None => out_of_fuel
  | Some [] => decode_all [raw_str]
  | Some groups => decode_all (map strip groups)
  end.

(** [get_nearby_code_context(file_path, line)] on a path as the tool response
    gave it.  A path that is not a [str] has no [startswith], which
    [_resolve_path] calls when the manager has a working directory, as the
    manager of the agent has ([cwd = "/"] unless the configuration changes
    it); without one, a [list] or a [dict] fails as a key of [_file_cache].
    A number without a working directory is outside the model: the code
    passes it to [get_file_fn] and stores it in the chunk, where the model
    has strings; the model leaves that item out. *)
Definition attach_nearby (file_path_ : json) (line : Z) (m : CodeContextManager)
    : M unit :=
  match file_path_ with
  | JStr path =>
      chunk <-- with_manager
                  (fun fs => get_nearby_code_context ts_parse_python fs
                               path line 100) m ;;
      tree (on_active
              (fun n => set_code_chunks
                          (_append_unique_code_chunk (code_chunks n) chunk) n))
  | _ =>
      if negb (String.eqb (cwd m) "") then raise AttributeError
      else if negb (py_hashable file_path_) then raise TypeError
      else ret tt
  end.

(** The body of the loop of [_attach_code_context_chunks]. *)
Definition attach_code_context (cc : CodeContext) : M unit :=
  let file_path_ := cc_file_path cc in
  let line_number := cc_line_number cc in
  if negb (py_truthy file_path_) || is_none line_number then ret tt
  else
    match py_int line_number with
    | inl TypeError | inl ValueError => ret tt
    | inl e => raise e
    | inr line =>
        if (line <? 1)%Z then ret tt
        else
          a <-- get_agent ;;
          match code_context_manager a with
          | Some m => attach_nearby file_path_ line m
          | None => ret tt
          end
    end.

Definition _attach_code_context_chunks (code_contexts : option (list CodeContext))
    : M unit :=
  a <-- get_agent ;;
  match code_contexts, active_node (action_manager a), code_context_manager a with
  | Some (cc :: ccs), Some _, Some _ => for_each (cc :: ccs) attach_code_context
  | _, _, _ => ret tt
  end.

(** [active.tool_status[pkg] = tr.status] raises [TypeError] when [pkg]
    cannot be hashed. *)
Definition _apply_tool_status_updates (tool_responses : list ToolResponse)
    : M unit :=
  for_each tool_responses
    (fun tr =>
       let pkg := tr_package_name tr in
       if negb (py_truthy pkg) || is_none (tr_status tr) then ret tt
       else
         a <-- get_agent ;;
         (match active_node (action_manager a) with
          | Some _ =>
              if py_hashable pkg
              then tree (on_active (put_tool_status pkg (tr_status tr)))
              else raise TypeError
          | None => ret tt
          end) ;;;
         modify (fun a => set_installed_tools
                            (set_tool_state pkg (tr_status tr)
                               (installed_tools a)) a)).

(** [tr.output or ""] as an item of [str.join], which raises [TypeError] for
    an item that is not a [str]. *)
Definition output_item (tr : ToolResponse) : exn + string :=
  if negb (py_truthy (tr_output tr)) then inr ""
  else match tr_output tr with
       | JStr text => inr text
       | _ => inl TypeError
       end.

Fixpoint output_items (tool_responses : list ToolResponse) : exn + list string :=
  match tool_responses with
  | [] => inr []
  | tr :: rest =>
      match output_item tr, output_items rest with
      | inr text, inr texts => inr (text :: texts)
      | inl e, _ | _, inl e => inl e
      end
  end.

Definition _process_tool_response (raw : string * Z) : M (string * Z) :=
  tool_responses <-- from_string (fst raw) ;;
  match tool_responses with
  | [] => ret (strip (fst raw), snd raw)
  | first :: _ =>
      texts <-- lift (output_items tool_responses) ;;
      let output_text := join newline texts in
      let last_ := List.last tool_responses first in
      returncode <-- lift (py_int (if is_none (tr_returncode last_)
                                   then JInt (snd raw)
                                   else tr_returncode last_)) ;;
      for_each tool_responses
        (fun tr => _attach_code_context_chunks (tr_code_context tr)) ;;;
      _apply_tool_status_updates tool_responses ;;;
      ret (output_text, returncode)
  end.

(** The loop of [_execute_actions]: the state is
    [(observations, last_returncode)]. *)
Fixpoint execute_loop (actions : list string)
    (state : list ActionObservation * Z) : M (list ActionObservation * Z) :=
  match actions with
  | [] => ret state
  | action_ :: rest =>
      raw <-- _execute_command action_ ;;
      r <-- _process_tool_response raw ;;
      let observations' :=
        fst state
        ++ [mkObs action_
              ("[returncode: " ++ str_of_Z (snd r) ++ "]" ++ newline
               ++ strip (fst r))%string] in
      if negb (snd r =? 0)%Z then ret (observations', snd r)
      else execute_loop rest (observations', snd r)
  end.

Definition _execute_actions (actions : list string)
    : M (list ActionObservation * Z) :=
  r <-- execute_loop actions ([], 0%Z) ;;
  a <-- get_agent ;;
  match active_node (action_manager a) with
  | Some _ =>
      diff <-- _get_git_diff ;;
      tree (on_active (set_code_change diff)) ;;;
      ret r
  | None => ret r
  end.

(** *** Reflection and action *)

Definition _process_reflection (content : string) : M unit :=
  let decision := lower (strip (_parse_tag content "decision")) in
  let summary_ := _parse_tag content "summary" in
  let lessons_ := _parse_tag content "lessons" in
  let valid_ := negb (String.eqb decision "reject") in
  tree (set_reflection valid_ lessons_ summary_) ;;;
  if valid_ then
    tree commit_admissible ;;;
    _update_tool_status ;;;
    _sync_version_control
  else
    a <-- get_agent ;;
    let (overflow, am) := commit_invalid (action_manager a) in
    modify (set_action_manager am) ;;;
    if overflow
    then raise (NotImplementedError
                  "Dead-end handling via consecutive invalid overflow is not yet implemented.")
    else ret tt.

Definition _process_action (content : string) : M (list ActionObservation * Z) :=
  let thoughts_ := _parse_tag content "thoughts" in
  match _parse_actions content with
  | None => out_of_fuel
  | Some actions =>
      let action_ := join newline actions in
      let property_str := lower (strip (_parse_tag content "property")) in
      match actions with
      | [] => a <-- get_agent ;; raise (FormatError (format_error_message (env a)))
      | _ :: _ =>
          let action_property_ := ActionProperty_of_string property_str in
          tree (fun am => snd (create_temp_node thoughts_ action_ action_property_ am)) ;;;
          modify (fun a => set_n_operations (n_operations a + 1)%Z a) ;;;
          r <-- _execute_actions actions ;;
          tree (set_observation (fst r)) ;;;
          ret r
      end
  end.

(** What [step] does with the model's response: the reflection on the pending
    node when there was one at the start of the step, then the action. *)
Definition process_response (has_incoming_op : bool) (content : string)
    : M (list ActionObservation * Z) :=
  (if has_incoming_op then _process_reflection content else ret tt) ;;;
  _process_action content.

End Agent.

(** *** What the methods leave unchanged *)

(** [n'] is [n] up to the fields the agent writes on the active node while it
    executes actions: [code_chunks], [tool_status] and [code_change]. *)
Definition same_but_notes (n n' : OperationNode) : Prop :=
  n' = set_code_change (code_change n')
         (set_tool_status (tool_status n')
            (set_code_chunks (code_chunks n') n)).

(** The writes of [_handle_code_chunk], [_attach_code_context_chunks],
    [_apply_tool_status_updates] and [_execute_actions] on the active node. *)
Inductive active_write : (OperationNode -> OperationNode) -> Prop :=
| write_append_chunk ch : active_write (append_code_chunk ch)
| write_unique_chunk ch :
    active_write
      (fun n => set_code_chunks (_append_unique_code_chunk (code_chunks n) ch) n)
| write_tool_status pkg status_ : active_write (put_tool_status pkg status_)
| write_code_change diff : active_write (set_code_change diff).

(** [am'] is [am] up to those fields of the active node. *)
Record notes_only (am am' : ActionManager) : Prop := mkNotesOnly {
  notes_length : length (nodes am') = length (nodes am);
  notes_current : current am' = current am;
  notes_temp : temp_node am' = temp_node am;
  notes_max : max_invalid am' = max_invalid am;
  notes_nodes : forall x, same_but_notes (node am x) (node am' x);
  notes_other : forall x, active_node am <> Some x -> node am' x = node am x
}.

Section AgentFrames.

Context {World : Type} {sandbox : Externals World}.

(** A method keeps the relation [R] between the agent before and after it,
    whether it returns or raises; it raises only exceptions in [P]; and it
    does not run out of step budget. *)
Definition keeps {A} (R : LLMIDEAgent World -> LLMIDEAgent World -> Prop)
    (P : exn -> Prop) (m : M A) : Prop :=
  forall a,
    R a (snd (m a)) /\
    match fst (m a) with
    | Ok _ => True
    | Raise e => P e
    | OutOfFuel => False
    end.

(** The relations kept by the methods that touch only the sandbox, the
    status of the installed tools and the history. *)
Class WorldFrame (R : LLMIDEAgent World -> LLMIDEAgent World -> Prop) := {
  frame_preorder :: PreOrder R;
  frame_env : forall a w, R a (set_env w a);
  frame_tools : forall a pkg status_,
    R a (set_installed_tools (set_tool_state pkg status_ (installed_tools a)) a);
  frame_history : forall a l, R a (set_history_writes l a)
}.

(** The relations kept by the built-in tools: they write on the code context
    manager and, in the tree, on the active node. *)
Class ToolFrame (R : LLMIDEAgent World -> LLMIDEAgent World -> Prop) := {
  frame_tool_preorder :: PreOrder R;
  frame_manager : forall a m, R a (set_code_context_manager m a);
  frame_active : forall a f,
    active_write f ->
    R a (set_action_manager (on_active f (action_manager a)) a)
}.

(** The relations kept by the methods that execute actions. *)
Class ActionFrame (R : LLMIDEAgent World -> LLMIDEAgent World -> Prop) := {
  frame_world :: WorldFrame R;
  frame_tool :: ToolFrame R
}.

(** The relations kept by the handling of a response: it also performs legal
    operations on the tree and counts the operation. *)
Class ResponseFrame (R : LLMIDEAgent World -> LLMIDEAgent World -> Prop) := {
  frame_action :: ActionFrame R;
  frame_step : forall a am',
    step (action_manager a) am' -> R a (set_action_manager am' a);
  frame_count : forall a, R a (set_n_operations (n_operations a + 1)%Z a)
}.

(** What those methods raise: the timeouts of [env.execute]; the errors of
    the built-in tools; and for the execution of actions also those of
    [_execute_command] and of the handling of tool responses. *)
Class WorldExn (P : exn -> Prop) := {
  frame_timeout : forall output, P (TimeoutExpired output)
}.

Class ToolExn (P : exn -> Prop) := {
  frame_value_error : P ValueError;
  frame_type_error : P TypeError
}.

Class ActionExn (P : exn -> Prop) := {
  frame_world_exn :: WorldExn P;
  frame_tool_exn :: ToolExn P;
  frame_execution_timeout : forall msg, P (ExecutionTimeoutError msg);
  frame_submitted : forall msg, P (Submitted msg);
  frame_attribute_error : P AttributeError;
  frame_overflow_error : P OverflowError
}.

Class ResponseExn (P : exn -> Prop) := {
  frame_action_exn :: ActionExn P;
  frame_format_error : forall msg, P (FormatError msg);
  frame_not_implemented : forall msg, P (NotImplementedError msg)
}.

(** The exceptions of the sandbox, and those of the execution of actions. *)
Definition world_exn (e : exn) : Prop := exists output, e = TimeoutExpired output.

Definition action_exn (e : exn) : Prop :=
  world_exn e \/ e = ValueError \/ e = TypeError
  \/ (exists msg, e = ExecutionTimeoutError msg)
  \/ (exists msg, e = Submitted msg)
  \/ e = AttributeError \/ e = OverflowError.

(** The exceptions of the handling of a response. *)
Definition response_exn (e : exn) : Prop :=
  action_exn e \/ (exists msg, e = FormatError msg)
  \/ (exists msg, e = NotImplementedError msg).

(** The errors of a built-in tool. *)
Definition tool_exn (e : exn) : Prop := e = ValueError \/ e = TypeError.

(** The tree stays reachable. *)
Definition keeps_reachable (a a' : LLMIDEAgent World) : Prop :=
  reachable (action_manager a) -> reachable (action_manager a').

(** Only the notes on the active node change, besides what lies outside the
    tree. *)
Definition keeps_tree (a a' : LLMIDEAgent World) : Prop :=
  notes_only (action_manager a) (action_manager a') /\
  n_operations a' = n_operations a /\
  default_code_chunks a' = default_code_chunks a.

(** The agent object does not change but for its list of installed tools and
    its history. *)
Definition same_tree (a a' : LLMIDEAgent World) : Prop :=
  action_manager a' = action_manager a /\
  n_operations a' = n_operations a /\
  code_context_manager a' = code_context_manager a /\
  default_code_chunks a' = default_code_chunks a.

(** A built-in tool stays inside the agent: the sandbox, the history, the
    installed tools and the operation counter are as before. *)
Definition stays_inside (a a' : LLMIDEAgent World) : Prop :=
  env a' = env a /\ history_writes a' = history_writes a /\
  installed_tools a' = installed_tools a /\ n_operations a' = n_operations a /\
  default_code_chunks a' = default_code_chunks a.

(** What the handling of a response never does: add, remove or rename an
    installed tool, change the default code chunks, or lower the operation
    counter. *)
Definition keeps_tools (a a' : LLMIDEAgent World) : Prop :=
  map tool_name (installed_tools a') = map tool_name (installed_tools a) /\
  default_code_chunks a' = default_code_chunks a /\
  (n_operations a <= n_operations a')%Z.


End AgentFrames.

(** A sandbox in which every command prints nothing and succeeds, and whose
    files are empty. *)
Definition quiet_world : Externals unit := {|
  execute := fun _ w => (Completed "" 0, w);
  get_file := fun _ _ => "";
  ts_parse_python := fun _ => TSNode "module" (0, 0) (0, 0) "" None [];
  decode := fun _ => None;
  b64encode := fun s => s;
  format_error_message := fun _ => "format error";
  timeout_message := fun output _ => output;
  history_enabled := false
|}.

(** A sandbox in which every command times out. *)
Definition stuck_world : Externals unit := {|
  execute := fun _ w => (TimedOut None, w);
  get_file := fun _ _ => "";
  ts_parse_python := fun _ => TSNode "module" (0, 0) (0, 0) "" None [];
  decode := fun _ => None;
  b64encode := fun s => s;
  format_error_message := fun _ => "format error";
  timeout_message := fun output _ => output;
  history_enabled := false
|}.

(** A sandbox in which every command prints a tool response whose return
    code is [1e999], which [json.loads] reads as infinity. *)
Definition overflow_world : Externals unit := {|
  execute := fun _ w => (Completed "response" 0, w);
  get_file := fun _ _ => "";
  ts_parse_python := fun _ => TSNode "module" (0, 0) (0, 0) "" None [];
  decode := fun _ => Some (JDict [("returncode", JFloat (Infinity false))]);
  b64encode := fun s => s;
  format_error_message := fun _ => "format error";
  timeout_message := fun output _ => output;
  history_enabled := false
|}.

(** A sandbox in which every command prints a tool response that points to
    line [1e999] of [a.py]. *)
Definition far_line_world : Externals unit := {|
  execute := fun _ w => (Completed "response" 0, w);
  get_file := fun _ _ => "";
  ts_parse_python := fun _ => TSNode "module" (0, 0) (0, 0) "" None [];
  decode := fun _ =>
    Some (JDict [("code_context",
                  JList [JDict [("file_path", JStr "a.py");
                                ("line_number", JFloat (Infinity false))]])]);
  b64encode := fun s => s;
  format_error_message := fun _ => "format error";
  timeout_message := fun output _ => output;
  history_enabled := false
|}.

(** An agent as [__init__] leaves it, with [max_invalid = 3]. *)
Definition new_agent : LLMIDEAgent unit :=
  mkAgent (init 3) None 0 [] [] [] tt.

(** The agent after a first step whose response asked for [ls]. *)
Definition agent_after_ls : LLMIDEAgent unit :=
  snd (_process_action (sandbox := quiet_world)
         "<thoughts>look</thoughts><action>ls</action>" new_agent).
(** ** Properties of the operation tree *)

(** *** Reading and writing the store *)

Lemma node_update_eq r f st :
  r < length (nodes st) -> node (update r f st) r = f (node st r).
Proof. intros H. unfold node, update; simpl. by apply list_lookup_total_alter_eq. Qed.

Lemma node_update_ne r r' f st :
  r <> r' -> node (update r f st) r' = node st r'.
Proof. intros H. unfold node, update; simpl. by apply list_lookup_total_alter_ne. Qed.

Lemma length_update r f st : length (nodes (update r f st)) = length (nodes st).
Proof. unfold update; simpl. apply length_alter. Qed.

(** A field that [f] does not touch reads the same after [update r f]. *)
Lemma node_update_field {A} (proj : OperationNode -> A) r r' f st :
  (forall n, proj (f n) = proj n) ->
  proj (node (update r f st) r') = proj (node st r').
Proof.
  intros Hf. unfold node, update; simpl.
  rewrite list_lookup_total_alter. case_decide as Hd; [|done].
  destruct Hd as [-> _]. apply Hf.
Qed.

Lemma node_out_of_range st r :
  length (nodes st) <= r -> node st r = new_node "" "" None.
Proof.
  intros H. unfold node. rewrite list_lookup_total_alt.
  by rewrite lookup_ge_None_2.
Qed.

(** *** Lists: the first element a filter keeps, and the last element *)



Lemma first_split_unique {A} (P : A -> Prop) pre c post pre' c' post' :
  pre ++ c :: post = pre' ++ c' :: post' ->
  Forall P pre -> ~ P c -> Forall P pre' -> ~ P c' ->
  pre = pre' /\ c = c'.
Proof.
  revert pre'. induction pre as [|x pre IH]; intros [|y pre'] Heq H1 Hc H2 Hc';
    simpl in Heq; injection Heq as -> Heq.
  - done.
  - inversion H2; subst. contradiction.
  - inversion H1; subst. contradiction.
  - inversion H1; inversion H2; subst.
    destruct (IH pre') as [-> ->]; done.
Qed.



(** *** C1: the descent of the reasoning chain *)


(** The spine from a node is unique: [spine_from] determines the descent. *)
Lemma spine_from_unique st n l1 l2 :
  spine_from st n l1 -> spine_from st n l2 -> l1 = l2.
Proof.
  intros H1. revert l2.
  induction H1 as [n Hnil | n pre c post l Hsplit Hpre Hc _ IH
                  | n pre c l Hsplit Hall _ IH]; intros l2 H2.
  - inversion H2 as [ | ? pre' c' post' ? Hs' | ? pre' c' ? Hs']; subst.
    + done.
    + rewrite Hnil in Hs'. by destruct pre'.
    + rewrite Hnil in Hs'. by destruct pre'.
  - inversion H2 as [ ? Hnil | ? pre' c' post' l' Hs' Hpre' Hc' Hl'
                    | ? pre' c' l' Hs' Hall' Hl']; subst.
    + rewrite Hnil in Hsplit. by destruct pre.
    + rewrite Hsplit in Hs'. f_equal. apply IH.
      by destruct (first_split_unique _ _ _ _ _ _ _ Hs' Hpre Hc Hpre' Hc') as [_ <-].
    + exfalso. rewrite Hsplit in Hs'.
      assert (In c (pre' ++ [c'])) as Hin.
      { rewrite <- Hs'. apply in_or_app. right. by left. }
      rewrite Forall_forall in Hall'. apply Hc.
      apply Hall'. by apply list_elem_of_In.
  - inversion H2 as [ ? Hnil | ? pre' c' post' l' Hs' Hpre' Hc' Hl'
                    | ? pre' c' l' Hs' Hall' Hl']; subst.
    + rewrite Hnil in Hsplit. by destruct pre.
    + exfalso. rewrite Hsplit in Hs'.
      assert (In c' (pre ++ [c])) as Hin.
      { rewrite Hs'. apply in_or_app. right. by left. }
      rewrite Forall_forall in Hall. apply Hc'.
      apply Hall. by apply list_elem_of_In.
    + rewrite Hsplit in Hs'. apply app_inj_tail in Hs' as [_ ->].
      f_equal. by apply IH.
Qed.

(** *** [in] on a chain *)

Lemma Nat_eqb_sym_bool (a b : nat) : (a =? b) = (b =? a).
Proof. destruct (Nat.eqb_spec a b), (Nat.eqb_spec b a); congruence. Qed.

(** Where every other node of the chain differs from [x] in a field before
    [invalid_ops], [x in chain] returns and is membership by identity. *)
Lemma node_in_plain st depth x chain :
  1 <= depth ->
  Forall (fun e => e = x \/
                   plain_fields_eqb (node st e) (node st x) = false) chain ->
  node_in st depth x chain = Returns (on_chain x chain).
Proof.
  intros Hd. destruct depth as [|depth]; [lia|].
  induction 1 as [|e chain He _ IH]; [done|].
  cbn [node_in on_chain existsb]. rewrite (Nat_eqb_sym_bool x e).
  destruct (Nat.eqb_spec e x) as [->|Hne]; [done|].
  destruct He as [?|He]; [done|].
  cbn [node_eq]. rewrite He. cbn [negb orb]. exact IH.
Qed.

(** A node of the chain is never reported missing. *)
Lemma node_in_member st depth x chain :
  In x chain -> node_in st depth x chain <> Returns false.
Proof.
  induction chain as [|e chain IH]; [done|]. intros Hin. cbn [node_in].
  destruct (Nat.eqb_spec e x) as [->|Hne]; [done|].
  destruct Hin as [?|Hin]; [done|].
  destruct (node_eq st depth e x) as [[]|]; [done| |done]. by apply IH.
Qed.

Lemma node_eq_succ st depth a b :
  node_eq st (S depth) a b
  = if negb (plain_fields_eqb (node st a) (node st b)) then Returns false
    else
      match refs_eq (node_eq st depth) (invalid_ops (node st a))
              (invalid_ops (node st b)) with
      | Returns true =>
          match parent_eq (node_eq st depth) (parent (node st a))
                  (parent (node st b)) with
          | Returns true =>
              refs_eq (node_eq st depth) (children (node st a))
                (children (node st b))
          | other => other
          end
      | other => other
      end.
Proof. reflexivity. Qed.

(** *** The states of the counterexamples *)







(** In [twin_state] the comparison of [A] with [B] goes from their
    [invalid_ops] to [X1 == X2], and that comparison from the [parent]
    fields back to [A == B]: no depth is enough. *)
Lemma twin_state_eq_loops depth :
  node_eq twin_state depth 1 3 = RecursionError /\
  node_eq twin_state depth 2 4 = RecursionError.
Proof.
  induction depth as [|depth [IH1 IH2]]; [done|].
  rewrite !node_eq_succ.
  replace (plain_fields_eqb (node twin_state 1) (node twin_state 3)) with true
    by (vm_compute; reflexivity).
  replace (plain_fields_eqb (node twin_state 2) (node twin_state 4)) with true
    by (vm_compute; reflexivity).
  cbn [negb]. split.
  - change (invalid_ops (node twin_state 1)) with [2].
    change (invalid_ops (node twin_state 3)) with [4].
    unfold refs_eq. cbn [length Nat.eqb items_eq]. by rewrite IH2.
  - change (invalid_ops (node twin_state 2)) with (@nil node_ref).
    change (invalid_ops (node twin_state 4)) with (@nil node_ref).
    change (parent (node twin_state 2)) with (Some 1).
    change (parent (node twin_state 4)) with (Some 3).
    unfold refs_eq. cbn [length Nat.eqb items_eq parent_eq]. by rewrite IH1.
Qed.

Lemma twin_state_chain depth :
  get_reasoning_chain depth twin_state = Some RecursionError.
Proof.
  unfold get_reasoning_chain.
  change (live_children twin_state sentinel) with [1]. cbv beta iota.
  assert (chain_loop (budget twin_state) twin_state 1 = Some [1; 3]) as ->
    by reflexivity.
  change (has_real_current twin_state) with true.
  change (current twin_state) with 3. cbn [node_in Nat.eqb].
  by rewrite (proj1 (twin_state_eq_loops depth)).
Qed.




(** *** C4: a second [create_temp_node] *)

(** C4, as stated, fails on the code: with a temp node pending the
    specification has the call fail, and the code returns a new node. *)
Lemma create_temp_node_does_not_fail :
  has_pending_node pending_state = true /\
  spec_create_temp_node "t" "a" None pending_state = inl tt /\
  spec_create_temp_node "t" "a" None pending_state
    <> inr (create_temp_node "t" "a" None pending_state) /\
  temp_node pending_state = Some 2 /\
  fst (create_temp_node "t" "a" None pending_state) = 3 /\
  temp_node (snd (create_temp_node "t" "a" None pending_state)) = Some 3.
Proof. repeat split; try reflexivity. discriminate. Qed.

(** C4 (amended): when a temp node exists, [create_temp_node] does not fail.
    It returns a fresh node with the given fields, which replaces the pending
    one as the temp node; the objects that existed before, the former temp
    node among them, and [current] are unchanged. *)
Theorem create_temp_node_replaces t a p st old :
  temp_node st = Some old ->
  let (r, st') := create_temp_node t a p st in
  r = length (nodes st) /\
  temp_node st' = Some r /\
  node st' r = new_node t a p /\
  current st' = current st /\
  max_invalid st' = max_invalid st /\
  length (nodes st') = S (length (nodes st)) /\
  forall x, x < length (nodes st) -> node st' x = node st x.
Proof.
  intros _. simpl. repeat split.
  - unfold node; simpl. rewrite lookup_total_app_r; [|lia].
    by rewrite Nat.sub_diag.
  - rewrite length_app; simpl; lia.
  - intros x Hx. unfold node; simpl. by rewrite lookup_total_app_l.
Qed.

Lemma create_temp_node_replaces_witness :
  let (r, st') := create_temp_node "t" "a" None pending_state in
  r = length (nodes pending_state) /\
  temp_node st' = Some r /\
  node st' r = new_node "t" "a" None /\
  current st' = current pending_state /\
  max_invalid st' = max_invalid pending_state /\
  length (nodes st') = S (length (nodes pending_state)) /\
  forall x, x < length (nodes pending_state) -> node st' x = node pending_state x.
Proof.
  exact (create_temp_node_replaces "t" "a" None pending_state 2 eq_refl).
Defined.

(** *** C7: [commit_invalid] *)

(** C7: with a temp node pending, [commit_invalid] appends it to
    [current.invalid_ops], clears the temp node, keeps [current], and returns
    [True] exactly when [current.invalid_ops] then has at least [max_invalid]
    elements.  In scenario S2 the two calls return [False] then [True], [A]
    has two invalid operations and stays current. *)
Theorem commit_invalid_overflow st t :
  temp_node st = Some t ->
  current st < length (nodes st) ->
  (let (overflow, st') := commit_invalid st in
   invalid_ops (node st' (current st')) = invalid_ops (node st (current st)) ++ [t] /\
   temp_node st' = None /\
   current st' = current st /\
   max_invalid st' = max_invalid st /\
   (overflow = true <->
    (max_invalid st <= Z.of_nat (length (invalid_ops (node st' (current st')))))%Z)) /\
  (fst s2_first = false /\
   fst s2_second = true /\
   current s2_after_A = 1 /\
   length (invalid_ops (node (snd s2_second) 1)) = 2 /\
   current (snd s2_second) = 1).
Proof.
  intros Ht Hcur. split; [|by repeat split].
  unfold commit_invalid. rewrite Ht. cbn [max_invalid current temp_node nodes update].
  assert (invalid_ops
            (node (mkAM (alter (fun c => set_invalid_ops (invalid_ops c ++ [t]) c)
                           (current st)
                           (alter (set_parent (Some (current st))) t (nodes st)))
                     (current st) (max_invalid st) None) (current st))
          = invalid_ops (node st (current st)) ++ [t]) as Hinv.
  { unfold node; cbn [nodes].
    rewrite list_lookup_total_alter_eq by (by rewrite length_alter).
    cbn [set_invalid_ops invalid_ops]. f_equal.
    rewrite list_lookup_total_alter. by case_decide as Hd; [destruct Hd as [-> _]|]. }
  split; [exact Hinv|]. do 3 (split; [done|]).
  unfold node in *. cbn [nodes current max_invalid] in *.
  apply Z.leb_le.
Qed.

Lemma commit_invalid_overflow_witness :
  (let (overflow, st') :=
     commit_invalid (snd (create_temp_node "np1" "a" None s2_after_A)) in
   invalid_ops (node st' (current st')) =
     invalid_ops (node (snd (create_temp_node "np1" "a" None s2_after_A))
                    (current (snd (create_temp_node "np1" "a" None s2_after_A))))
     ++ [2] /\
   temp_node st' = None /\
   current st' = current (snd (create_temp_node "np1" "a" None s2_after_A)) /\
   max_invalid st' = max_invalid (snd (create_temp_node "np1" "a" None s2_after_A)) /\
   (overflow = true <->
    (max_invalid (snd (create_temp_node "np1" "a" None s2_after_A))
     <= Z.of_nat (length (invalid_ops (node st' (current st')))))%Z)) /\
  (fst s2_first = false /\
   fst s2_second = true /\
   current s2_after_A = 1 /\
   length (invalid_ops (node (snd s2_second) 1)) = 2 /\
   current (snd s2_second) = 1).
Proof.
  apply (commit_invalid_overflow
           (snd (create_temp_node "np1" "a" None s2_after_A)) 2).
  - reflexivity.
  - vm_compute. lia.
Defined.

(** *** The invariant of the legal operations *)

Lemma node_nodes st st' x : nodes st = nodes st' -> node st x = node st' x.
Proof. unfold node. by intros ->. Qed.

Lemma dead_in_range st x : dead st x -> x < length (nodes st).
Proof.
  unfold dead. intros H. destruct (decide (x < length (nodes st))); [done|].
  rewrite node_out_of_range in H by lia. discriminate.
Qed.

Lemma linked_frame st st' a b :
  linked st a b ->
  parent (node st' b) = parent (node st b) ->
  children (node st' a) = children (node st a) ->
  dead_path (node st' b) = dead_path (node st b) ->
  (forall x, dead st x -> dead st' x) ->
  linked st' a b.
Proof.
  intros [Hp Hlt (pre & Hc & Hpre) Hl] Hp' Hc' Hl' Hmono.
  split; [congruence|done| |congruence].
  exists pre. split; [congruence|].
  eapply Forall_impl; [exact Hpre|]. exact Hmono.
Qed.

Lemma linked_path_le st a l c :
  linked_path st a l -> last (a :: l) = Some c -> a <= c.
Proof.
  intros H. revert c. induction H as [a|a b l Hab _ IH]; intros c Hc.
  - simpl in Hc. injection Hc as ->. lia.
  - rewrite last_cons_cons in Hc. apply IH in Hc. destruct Hab. lia.
Qed.

Lemma linked_path_gt st a l : linked_path st a l -> Forall (fun x => a < x) l.
Proof.
  induction 1 as [a|a b l Hab _ IH]; constructor.
  - by destruct Hab.
  - destruct Hab. eapply Forall_impl; [exact IH|]. simpl. lia.
Qed.

Lemma linked_path_frame st st' a l c :
  linked_path st a l ->
  last (a :: l) = Some c ->
  (forall x, In x l -> parent (node st' x) = parent (node st x) /\
                       dead_path (node st' x) = dead_path (node st x)) ->
  (forall x, x < c -> children (node st' x) = children (node st x)) ->
  (forall x, dead st x -> dead st' x) ->
  linked_path st' a l.
Proof.
  intros H. revert c. induction H as [a|a b l Hab Hbl IH];
    intros c Hc Hpd Hch Hmono; constructor.
  - rewrite last_cons_cons in Hc.
    pose proof (linked_path_le _ _ _ _ Hbl Hc).
    destruct (Hpd b) as [? ?]; [by left|].
    apply linked_frame with st; try done.
    apply Hch. destruct Hab. lia.
  - rewrite last_cons_cons in Hc. apply IH with c; try done.
    intros x Hx. apply Hpd. by right.
Qed.

Lemma linked_path_snoc st a l c t :
  linked_path st a l -> last (a :: l) = Some c -> linked st c t ->
  linked_path st a (l ++ [t]).
Proof.
  intros H. revert c. induction H as [a|a b l Hab _ IH]; intros c Hc Hct; simpl.
  - injection Hc as ->. constructor; [done|constructor].
  - rewrite last_cons_cons in Hc. constructor; [done|]. by apply IH with c.
Qed.

Lemma linked_path_app_l st a l1 l2 :
  linked_path st a (l1 ++ l2) -> linked_path st a l1.
Proof.
  revert a. induction l1 as [|b l1 IH]; intros a H; [constructor|].
  inversion H; subst. constructor; [done|]. by apply IH.
Qed.

Lemma linked_path_snoc_inv st a l x :
  linked_path st a (l ++ [x]) ->
  exists y, last (a :: l) = Some y /\ linked st y x.
Proof.
  revert a. induction l as [|b l IH]; intros a H; inversion H; subst.
  - by exists a.
  - rewrite last_cons_cons. by apply IH.
Qed.

(** A state that agrees with [st] on the tree structure satisfies the same
    invariant. *)
Lemma path_inv_ext st st' p :
  length (nodes st') = length (nodes st) ->
  current st' = current st ->
  temp_node st' = temp_node st ->
  (forall x, parent (node st' x) = parent (node st x)) ->
  (forall x, children (node st' x) = children (node st x)) ->
  (forall x, dead_path (node st' x) = dead_path (node st x)) ->
  path_inv st p -> path_inv st' p.
Proof.
  intros Hlen Hcur Htemp Hp Hc Hd [H1 H2 H3 H4 H5 H6 H7].
  assert (fresh_bound st' = fresh_bound st) as Hb.
  { unfold fresh_bound. by rewrite Htemp, Hlen. }
  assert (forall x, dead st x -> dead st' x) as Hmono.
  { unfold dead. intros x. by rewrite Hd. }
  split.
  - by rewrite Hp.
  - eapply linked_path_frame; eauto.
  - by rewrite Hcur.
  - rewrite Hcur, Hc. eapply Forall_impl; [exact H4|]. exact Hmono.
  - by rewrite Hb.
  - by rewrite Hb, Hlen.
  - intros t Ht. rewrite Htemp in Ht. rewrite Hlen, Hc, Hd. by apply H7.
Qed.

Lemma path_inv_update st p r f :
  (forall n, parent (f n) = parent n) ->
  (forall n, children (f n) = children n) ->
  (forall n, dead_path (f n) = dead_path n) ->
  path_inv st p -> path_inv (update r f st) p.
Proof.
  intros Hp Hc Hd. apply path_inv_ext; try done.
  - apply length_update.
  - intros x. by apply (node_update_field parent).
  - intros x. by apply (node_update_field children).
  - intros x. by apply (node_update_field dead_path).
Qed.

Lemma path_inv_on_active st p f :
  (forall n, parent (f n) = parent n) ->
  (forall n, children (f n) = children n) ->
  (forall n, dead_path (f n) = dead_path n) ->
  path_inv st p -> path_inv (on_active f st) p.
Proof.
  intros. unfold on_active. destruct (active_node st); [|done].
  by apply path_inv_update.
Qed.

Lemma path_inv_init mi : path_inv (init mi) [].
Proof.
  split; try done; repeat constructor.
Qed.

Lemma path_inv_create t a p st l :
  path_inv st l -> path_inv (snd (create_temp_node t a p st)) l.
Proof.
  intros [H1 H2 H3 H4 H5 H6 H7]. simpl.
  set (st' := mkAM _ _ _ _).
  assert (forall x, x < length (nodes st) -> node st' x = node st x) as Hold.
  { intros x Hx. unfold node, st'; simpl. by rewrite lookup_total_app_l. }
  assert (forall x, dead st x -> dead st' x) as Hmono.
  { intros x Hx. unfold dead. rewrite Hold; [done|]. by apply dead_in_range. }
  assert (Forall (fun x => x < length (nodes st)) (sentinel :: l)) as Hrange.
  { eapply Forall_impl; [exact H5|]. simpl. lia. }
  assert (current st < length (nodes st)) as Hcur.
  { rewrite Forall_forall in Hrange. apply Hrange.
    eapply last_Some_elem_of. exact H3. }
  inversion Hrange as [|? ? H0 Hl]; subst.
  split.
  - by rewrite Hold.
  - eapply linked_path_frame; eauto.
    + intros x Hx. rewrite Hold; [done|].
      rewrite Forall_forall in Hl. apply Hl. by apply list_elem_of_In.
    + intros x Hx. rewrite Hold; [done|]. lia.
  - done.
  - change (current st') with (current st). rewrite Hold by done.
    eapply Forall_impl; [exact H4|]. exact Hmono.
  - done.
  - unfold fresh_bound, st'; simpl. rewrite length_app; simpl. lia.
  - intros r [= <-]. unfold st' at 1; simpl. rewrite length_app; simpl.
    split; [lia|].
    assert (node st' (length (nodes st)) = new_node t a p) as ->; [|done].
    unfold node, st'; simpl. rewrite lookup_total_app_r by lia.
    by rewrite Nat.sub_diag.
Qed.

Lemma path_inv_current_lt st p :
  path_inv st p -> current st < fresh_bound st.
Proof.
  intros [_ _ H3 _ H5 _ _]. rewrite Forall_forall in H5. apply H5.
  eapply last_Some_elem_of. exact H3.
Qed.

Lemma path_inv_not_temp st p t x :
  path_inv st p -> temp_node st = Some t -> In x (sentinel :: p) -> x < t.
Proof.
  intros [_ _ _ _ H5 _ _] Ht Hx. rewrite Forall_forall in H5.
  apply list_elem_of_In, H5 in Hx. unfold fresh_bound in Hx. by rewrite Ht in Hx.
Qed.

Lemma path_inv_commit_admissible st p t :
  path_inv st p -> temp_node st = Some t ->
  path_inv (commit_admissible st) (p ++ [t]).
Proof.
  intros Hinv Ht.
  pose proof (path_inv_current_lt _ _ Hinv) as Hc.
  pose proof (fun x => path_inv_not_temp _ _ _ x Hinv Ht) as Hlt.
  destruct Hinv as [H1 H2 H3 H4 H5 H6 H7].
  destruct (H7 t Ht) as (Htr & Htc & Htd).
  unfold fresh_bound in Hc, H6. rewrite Ht in Hc, H6.
  unfold commit_admissible. rewrite Ht.
  set (c := current st) in *.
  set (st1 := update t (set_parent (Some c)) st).
  set (st2 := update c (fun n => set_children (children n ++ [t]) n) st1).
  set (st' := mkAM _ _ _ _).
  assert (forall x, node st' x = node st2 x) as Hn by done.
  assert (forall x, dead_path (node st' x) = dead_path (node st x)) as Hd.
  { intros x. rewrite Hn. unfold st2, st1.
    by rewrite !(node_update_field dead_path). }
  assert (forall x, x <> t -> parent (node st' x) = parent (node st x)) as Hp.
  { intros x Hx. rewrite Hn. unfold st2.
    rewrite (node_update_field parent) by done.
    unfold st1. by rewrite node_update_ne. }
  assert (parent (node st' t) = Some c) as Hpt.
  { rewrite Hn. unfold st2. rewrite (node_update_field parent) by done.
    unfold st1. by rewrite node_update_eq. }
  assert (forall x, x <> c -> children (node st' x) = children (node st x)) as Hch.
  { intros x Hx. rewrite Hn. unfold st2. rewrite node_update_ne by done.
    unfold st1. by rewrite (node_update_field children). }
  assert (children (node st' c) = children (node st c) ++ [t]) as Hcc.
  { rewrite Hn. unfold st2.
    rewrite node_update_eq by (unfold st1; rewrite length_update; lia).
    simpl. unfold st1. by rewrite (node_update_field children). }
  assert (length (nodes st') = length (nodes st)) as Hlen.
  { unfold st', st2, st1. simpl. by rewrite !length_alter. }
  assert (forall x, dead st x -> dead st' x) as Hmono.
  { intros x. unfold dead. by rewrite Hd. }
  split.
  - rewrite Hp; [done|]. specialize (Hlt sentinel (or_introl eq_refl)). lia.
  - apply linked_path_snoc with c.
    + apply linked_path_frame with st c; try done.
      * intros x Hx. split; [|done]. apply Hp.
        specialize (Hlt x (or_intror Hx)). lia.
      * intros x Hx. apply Hch. lia.
    + done.
    + split; [done|done| |by rewrite Hd].
      exists (children (node st c)). split; [done|].
      eapply Forall_impl; [exact H4|]. exact Hmono.
  - change (sentinel :: p ++ [t]) with ((sentinel :: p) ++ [t]).
    by rewrite last_snoc.
  - change (current st') with t. rewrite Hch by lia. rewrite Htc. constructor.
  - unfold fresh_bound. change (temp_node st') with (@None node_ref).
    rewrite Hlen. change (sentinel :: p ++ [t]) with ((sentinel :: p) ++ [t]).
    apply Forall_app. split.
    + eapply Forall_impl; [exact H5|]. unfold fresh_bound. rewrite Ht.
      simpl. lia.
    + by repeat constructor.
  - unfold fresh_bound. by change (temp_node st') with (@None node_ref).
  - intros r Hr. discriminate Hr.
Qed.

Lemma path_inv_commit_invalid st p :
  path_inv st p -> path_inv (snd (commit_invalid st)) p.
Proof.
  intros Hinv. unfold commit_invalid.
  destruct (temp_node st) as [t|] eqn:Ht; [|done]. simpl.
  pose proof (path_inv_current_lt _ _ Hinv) as Hc.
  pose proof (fun x => path_inv_not_temp _ _ _ x Hinv Ht) as Hlt.
  destruct Hinv as [H1 H2 H3 H4 H5 H6 H7].
  destruct (H7 t Ht) as (Htr & Htc & Htd).
  unfold fresh_bound in Hc, H6. rewrite Ht in Hc, H6.
  set (c := current st) in *.
  set (st1 := update t (set_parent (Some c)) st).
  set (st2 := update c (fun n => set_invalid_ops (invalid_ops n ++ [t]) n) st1).
  set (st' := mkAM _ _ _ _).
  assert (forall x, node st' x = node st2 x) as Hn by done.
  assert (forall x, dead_path (node st' x) = dead_path (node st x)) as Hd.
  { intros x. rewrite Hn. unfold st2, st1.
    by rewrite !(node_update_field dead_path). }
  assert (forall x, children (node st' x) = children (node st x)) as Hch.
  { intros x. rewrite Hn. unfold st2, st1.
    by rewrite !(node_update_field children). }
  assert (forall x, x <> t -> parent (node st' x) = parent (node st x)) as Hp.
  { intros x Hx. rewrite Hn. unfold st2.
    rewrite (node_update_field parent) by done.
    unfold st1. by rewrite node_update_ne. }
  assert (length (nodes st') = length (nodes st)) as Hlen.
  { unfold st', st2, st1. simpl. by rewrite !length_alter. }
  assert (forall x, dead st x -> dead st' x) as Hmono.
  { intros x. unfold dead. by rewrite Hd. }
  split.
  - rewrite Hp; [done|]. specialize (Hlt sentinel (or_introl eq_refl)). lia.
  - apply linked_path_frame with st c; try done.
    intros x Hx. split; [|done]. apply Hp.
    specialize (Hlt x (or_intror Hx)). lia.
  - done.
  - change (current st') with c. rewrite Hch.
    eapply Forall_impl; [exact H4|]. exact Hmono.
  - unfold fresh_bound. change (temp_node st') with (@None node_ref).
    rewrite Hlen. eapply Forall_impl; [exact H5|]. unfold fresh_bound.
    rewrite Ht. simpl. lia.
  - unfold fresh_bound. by change (temp_node st') with (@None node_ref).
  - intros r Hr. discriminate Hr.
Qed.

Lemma linked_path_app_r st a l1 b l2 :
  linked_path st a (l1 ++ b :: l2) -> linked_path st b l2.
Proof.
  revert a. induction l1 as [|x l1 IH]; intros a H; inversion H; subst; eauto.
Qed.

Lemma linked_path_NoDup st a l : linked_path st a l -> NoDup (a :: l).
Proof.
  induction 1 as [a|a b l Hab Hbl IH].
  - repeat constructor. by intros ?%elem_of_nil.
  - constructor; [|done].
    pose proof (linked_path_gt st a (b :: l)) as Hgt.
    rewrite Forall_forall in Hgt. intros Hin. apply Hgt in Hin; [lia|].
    by constructor.
Qed.

Lemma last_cons_snoc_inv {A} (a y : A) l :
  last (a :: l) = Some y -> a <> y -> exists l', l = l' ++ [y].
Proof.
  intros [l' Hl']%last_Some Hne. destruct l' as [|z l'']; simplify_eq/=.
  by exists l''.
Qed.

(** The target [find_backtrack_target] returns is a proper ancestor of
    [current] on the path. *)
Lemma find_backtrack_on_path st fuel l x target :
  linked_path st sentinel (l ++ [x]) ->
  find_backtrack_loop fuel st (parent (node st x)) = Some (Some target) ->
  exists l1 l2, l = l1 ++ target :: l2.
Proof.
  revert l x. induction fuel as [|fuel IH]; intros l x Hpath Hfind; [done|].
  pose proof (linked_path_snoc_inv _ _ _ _ Hpath) as (y & Hy & Hyx).
  destruct Hyx as [Hpar _ _ _]. rewrite Hpar in Hfind. simpl in Hfind.
  destruct (y =? sentinel) eqn:Hys; [done|]. apply Nat.eqb_neq in Hys.
  destruct (last_cons_snoc_inv _ _ _ Hy) as [l' ->]; [done|].
  destruct (is_exploratory (action_property (node st y))).
  - injection Hfind as <-. by exists l', [].
  - apply linked_path_app_l in Hpath.
    destruct (IH _ _ Hpath Hfind) as (l1 & l2 & ->).
    exists l1, (l2 ++ [y]). by rewrite <- app_assoc.
Qed.

(** The walk of [backtrack_to] stops at the child of [target] on the path. *)
Lemma dead_child_on_path st fuel l1 target m x found :
  linked_path st sentinel (l1 ++ target :: m ++ [x]) ->
  dead_child_loop fuel st target (Some x) = Some found ->
  found = Some (hd x (m ++ [x])).
Proof.
  revert m x. induction fuel as [|fuel IH]; intros m x Hpath Hwalk; [done|].
  simpl in Hwalk.
  assert (linked_path st sentinel ((l1 ++ target :: m) ++ [x])) as Hpath'.
  { by rewrite <- app_assoc. }
  pose proof (linked_path_snoc_inv _ _ _ _ Hpath') as (y & Hy & Hyx).
  destruct Hyx as [Hpar _ _ _]. rewrite Hpar in Hwalk.
  destruct m as [|z m _] using rev_ind.
  - change (sentinel :: l1 ++ [target]) with ((sentinel :: l1) ++ [target]) in Hy.
    rewrite last_snoc in Hy. injection Hy as <-.
    rewrite Nat.eqb_refl in Hwalk. by injection Hwalk as <-.
  - replace (sentinel :: l1 ++ target :: m ++ [z])
      with ((sentinel :: l1 ++ target :: m) ++ [z]) in Hy
      by (simpl; by rewrite <- app_assoc).
    rewrite last_snoc in Hy. injection Hy as <-.
    assert (target < z) as Hlt.
    { pose proof (linked_path_app_r _ _ _ _ _ Hpath) as Hsub.
      apply linked_path_gt in Hsub. rewrite Forall_forall in Hsub.
      apply Hsub. rewrite <- app_assoc. apply elem_of_app. right. by left. }
    destruct (z =? target) eqn:Hzt; [apply Nat.eqb_eq in Hzt; lia|].
    rewrite <- !app_assoc in Hpath. simpl in Hpath.
    assert (linked_path st sentinel (l1 ++ target :: m ++ [z])) as Hpz.
    { replace (l1 ++ target :: m ++ z :: [x])
        with ((l1 ++ target :: m ++ [z]) ++ [x]) in Hpath.
      - by apply linked_path_app_l in Hpath.
      - rewrite <- !app_assoc. simpl. by rewrite <- app_assoc. }
    rewrite (IH _ _ Hpz Hwalk). by destruct m.
Qed.

Lemma path_inv_backtrack st p target s st' :
  path_inv st p ->
  find_backtrack_target st = Some (Some target) ->
  backtrack_to target s st = Some st' ->
  exists p', path_inv st' p'.
Proof.
  intros Hinv Hfind Hback.
  pose proof Hinv as [H1 H2 H3 H4 H5 H6 H7].
  unfold find_backtrack_target in Hfind.
  destruct (decide (current st = sentinel)) as [Hc0|Hc0].
  { rewrite Hc0, H1 in Hfind. done. }
  destruct (last_cons_snoc_inv _ _ _ H3) as [l ->]; [done|].
  set (c := current st) in *.
  destruct (find_backtrack_on_path _ _ _ _ _ H2 Hfind) as (l1 & m & ->).
  rewrite <- app_assoc in H2, H5. simpl in H2, H5.
  unfold backtrack_to in Hback.
  destruct (dead_child_loop (budget st) st target (Some (current st)))
    as [found|] eqn:Hwalk; [|done].
  apply (dead_child_on_path _ _ _ _ _ _ _ H2) in Hwalk. subst found.
  injection Hback as <-. fold c.
  set (b := hd c (m ++ [c])).
  set (st1 := update b (set_dead_path true) st).
  set (st2 := update target
                (fun t => set_dead_path_summaries (dead_path_summaries t ++ [s]) t)
                st1).
  set (st' := mkAM _ _ _ _).
  (* the child [b] of [target] on the path *)
  assert (exists m', m ++ [c] = b :: m') as [m' Hm'].
  { unfold b. destruct m; simpl; eauto. }
  rewrite Hm' in H2, H5.
  pose proof (linked_path_app_r _ _ _ _ _ H2) as Htb.
  inversion Htb as [|? ? ? Hlink _]; subst.
  assert (b < fresh_bound st) as Hbf.
  { rewrite Forall_forall in H5. apply H5.
    apply elem_of_cons. right. apply elem_of_app. right.
    apply elem_of_cons. right. by left. }
  assert (NoDup (sentinel :: l1 ++ target :: b :: m')) as Hnd
    by (by apply linked_path_NoDup with st).
  assert (forall x, In x (sentinel :: l1 ++ [target]) -> x <> b) as Hneb.
  { intros x Hx ->.
    change (sentinel :: l1 ++ target :: b :: m')
      with ((sentinel :: l1) ++ target :: b :: m') in Hnd.
    change (sentinel :: l1 ++ [target]) with ((sentinel :: l1) ++ [target]) in Hx.
    apply NoDup_app in Hnd as (_ & Hdisj & Hnd2).
    apply in_app_or in Hx as [Hx|[<-|[]]].
    - apply (Hdisj b); [by apply list_elem_of_In|].
      apply elem_of_cons. right. by left.
    - apply NoDup_cons in Hnd2 as [Hnot _]. apply Hnot. by left. }
  assert (forall x, node st' x = node st2 x) as Hn by done.
  assert (forall x, parent (node st' x) = parent (node st x)) as Hp.
  { intros x. rewrite Hn. unfold st2, st1.
    by rewrite !(node_update_field parent). }
  assert (forall x, children (node st' x) = children (node st x)) as Hch.
  { intros x. rewrite Hn. unfold st2, st1.
    by rewrite !(node_update_field children). }
  assert (forall x, x <> b -> dead_path (node st' x) = dead_path (node st x)) as Hd.
  { intros x Hx. rewrite Hn. unfold st2.
    rewrite (node_update_field dead_path) by done.
    unfold st1. by rewrite node_update_ne. }
  assert (dead st' b) as Hdb.
  { unfold dead. rewrite Hn. unfold st2.
    rewrite (node_update_field dead_path) by done.
    unfold st1. rewrite node_update_eq; [done|]. lia. }
  assert (length (nodes st') = length (nodes st)) as Hlen.
  { unfold st', st2, st1. simpl. by rewrite !length_alter. }
  assert (forall x, dead st x -> dead st' x) as Hmono.
  { intros x Hx. destruct (decide (x = b)) as [->|Hxb]; [done|].
    unfold dead. by rewrite Hd. }
  assert (fresh_bound st' = fresh_bound st) as Hfb.
  { unfold fresh_bound. change (temp_node st') with (temp_node st).
    by rewrite Hlen. }
  exists (l1 ++ [target]). split.
  - by rewrite Hp.
  - replace (l1 ++ target :: b :: m') with ((l1 ++ [target]) ++ b :: m') in H2
      by (by rewrite <- app_assoc).
    apply linked_path_app_l in H2.
    apply linked_path_frame with st target; try done.
    + change (sentinel :: l1 ++ [target]) with ((sentinel :: l1) ++ [target]).
      by rewrite last_snoc.
    + intros x Hx. split; [done|]. apply Hd, Hneb. by right.
  - change (sentinel :: l1 ++ [target]) with ((sentinel :: l1) ++ [target]).
    by rewrite last_snoc.
  - change (current st') with target. rewrite Hch.
    destruct Hlink as [_ _ (pre & -> & Hpre) _].
    apply Forall_app. split.
    + eapply Forall_impl; [exact Hpre|]. exact Hmono.
    + by repeat constructor.
  - rewrite Hfb.
    replace (sentinel :: l1 ++ target :: b :: m')
      with ((sentinel :: l1 ++ [target]) ++ b :: m') in H5
      by (simpl; by rewrite <- app_assoc).
    by apply Forall_app in H5 as [? _].
  - by rewrite Hfb, Hlen.
  - intros t Ht. change (temp_node st') with (temp_node st) in Ht.
    destruct (H7 t Ht) as (? & ? & ?).
    rewrite Hlen, Hch, Hd; [done|].
    unfold fresh_bound in Hbf. rewrite Ht in Hbf. lia.
Qed.

Lemma path_inv_step st st' p :
  path_inv st p -> step st st' -> exists p', path_inv st' p'.
Proof.
  intros Hinv Hstep. destruct Hstep.
  - exists p. by apply path_inv_create.
  - exists p. unfold set_observation. destruct (temp_node st); [|done].
    by apply path_inv_update.
  - exists p. unfold set_reflection. destruct (temp_node st); [|done].
    by apply path_inv_update.
  - destruct (temp_node st) as [t|] eqn:Ht.
    + exists (p ++ [t]). by apply path_inv_commit_admissible.
    + exists p. unfold commit_admissible. by rewrite Ht.
  - exists p. by apply path_inv_commit_invalid.
  - by eapply path_inv_backtrack.
  - exists p. by apply path_inv_on_active.
  - exists p. by apply path_inv_on_active.
  - exists p. by apply path_inv_on_active.
Qed.

Lemma reachable_path_inv st : reachable st -> exists p, path_inv st p.
Proof.
  induction 1 as [mi|st st' _ [p Hp] Hstep].
  - exists []. apply path_inv_init.
  - by eapply path_inv_step.
Qed.

(** *** C5: the reasoning chain of a reachable state *)

Lemma filter_dead_nil st l : Forall (dead st) l -> List.filter (is_live st) l = [].
Proof.
  induction 1 as [|x l Hx _ IH]; [done|]. simpl.
  unfold is_live at 1. unfold dead in Hx. by rewrite Hx.
Qed.

Lemma live_children_linked st a b : linked st a b -> live_children st a = [b].
Proof.
  intros [_ _ (pre & Hc & Hpre) Hlive]. unfold live_children.
  rewrite Hc, List.filter_app, (filter_dead_nil _ _ Hpre). simpl.
  unfold is_live. by rewrite Hlive.
Qed.

Lemma chain_loop_path st c :
  Forall (dead st) (children (node st c)) ->
  c < length (nodes st) ->
  forall a l, linked_path st a l -> last (a :: l) = Some c ->
  forall fuel, length (nodes st) <= fuel + a ->
  chain_loop fuel st a = Some (a :: l).
Proof.
  intros Hdead Hc a l Hpath. induction Hpath as [a|a b l Hab Hbl IH];
    intros Hlast fuel Hfuel.
  - injection Hlast as ->. destruct fuel as [|fuel]; [lia|]. simpl.
    unfold live_children. by rewrite (filter_dead_nil _ _ Hdead).
  - rewrite last_cons_cons in Hlast.
    pose proof (linked_path_le _ _ _ _ Hbl Hlast).
    destruct fuel as [|fuel]; [destruct Hab; lia|]. simpl.
    rewrite (live_children_linked _ _ _ Hab). simpl.
    assert (chain_loop fuel st b = Some (b :: l)) as Hrec.
    { apply IH; [done|]. destruct Hab. lia. }
    destruct (has_children st b); simpl; by rewrite Hrec.
Qed.

(** On a state that satisfies the invariant the descent follows the path to
    [current]; the call returns that path unless the search for [current]
    on it ends in [RecursionError]. *)
Lemma path_inv_chain depth st p :
  path_inv st p ->
  get_reasoning_chain depth st
  = Some (if has_real_current st then
            match node_in st depth (current st) p with
            | Returns _ => Returns p
            | RecursionError => RecursionError
            end
          else Returns p).
Proof.
  intros Hinv. pose proof (path_inv_current_lt _ _ Hinv) as Hcur.
  destruct Hinv as [H1 H2 H3 H4 H5 H6 H7].
  unfold get_reasoning_chain.
  destruct H2 as [a|a b l Hab Hbl].
  - injection H3 as H3. unfold live_children. rewrite H3.
    rewrite (filter_dead_nil _ _ H4).
    by destruct (has_real_current st).
  - rewrite (live_children_linked _ _ _ Hab).
    rewrite last_cons_cons in H3.
    rewrite (chain_loop_path st (current st) H4 ltac:(lia) b l Hbl H3);
      [|unfold budget; lia].
    destruct (has_real_current st); [|done].
    pose proof (node_in_member st depth (current st) (b :: l)) as Hin.
    destruct (node_in st depth (current st) (b :: l)) as [[]|]; [done| |done].
    exfalso. apply Hin; [|done].
    apply list_elem_of_In. eapply last_Some_elem_of. exact H3.
Qed.

(** Calls other than [backtrack_to] are legal operations. *)
Lemma run_tree_calls_reachable cs :
  Forall (fun c => match c with BacktrackTo _ _ => False | _ => True end) cs ->
  forall st st',
    reachable st -> run_tree_calls cs st = Some st' -> reachable st'.
Proof.
  induction 1 as [|c cs Hc _ IH]; intros st st' Hreach; simpl.
  - by intros [= <-].
  - destruct c as [t a p| | |target dead_path_summary]; simpl; [..|done];
      apply IH; (eapply reachable_step; [exact Hreach|constructor]).
Qed.

Lemma twin_state_reachable : reachable twin_state.
Proof.
  apply (run_tree_calls_reachable twin_calls) with (init 3);
    [repeat constructor|apply reachable_init|reflexivity].
Qed.

(** C5 fails on the code at [twin_state], the state after two commits and
    two rejections with equal texts, which legal operations reach:
    [current] is the node [B], the path from the root to it is [A], [B], and
    [get_reasoning_chain] returns no list: with whatever depth the
    interpreter has left, the search for [current] on the chain ends in
    [RecursionError]. *)
Theorem reasoning_chain_recursion_error :
  run_tree_calls twin_calls (init 3) = Some twin_state /\
  reachable twin_state /\
  current twin_state = 3 /\
  get_path_from_root_to_current twin_state = Some [1; 3] /\
  forall depth, get_reasoning_chain depth twin_state = Some RecursionError.
Proof.
  split_and!; try reflexivity;
    auto using twin_state_reachable, twin_state_chain.
Qed.

Lemma s3_final_reachable : reachable s3_final.
Proof.
  assert (forall t a p st, reachable st -> reachable (commit_new t a p st)) as Hc.
  { intros t a p st H. unfold commit_new.
    eapply reachable_step; [|apply step_commit_admissible].
    eapply reachable_step; [exact H|apply step_create_temp_node]. }
  unfold s3_final.
  destruct s3_after_backtrack as [st|] eqn:Hst; [|apply reachable_init].
  apply Hc. eapply reachable_step.
  - apply (Hc "C" "c" (Some EXPLOITATIVE)), (Hc "B" "b" (Some EXPLOITATIVE)),
      (Hc "A" "a" (Some EXPLORATORY)), (reachable_init 3).
  - apply step_backtrack_to with 1 "dead"; [reflexivity|exact Hst].
Qed.

(** The legal operations return: on a reachable state
    [find_backtrack_target] answers, and [backtrack_to] its answer does. *)
Lemma find_backtrack_loop_total st l x :
  linked_path st sentinel (l ++ [x]) ->
  forall fuel, length l < fuel ->
  exists r, find_backtrack_loop fuel st (parent (node st x)) = Some r.
Proof.
  revert x. induction l as [|y l IH] using rev_ind; intros x Hpath fuel Hfuel.
  - pose proof (linked_path_snoc_inv _ _ _ _ Hpath) as (y & Hy & [Hpar _ _ _]).
    injection Hy as <-. rewrite Hpar. destruct fuel; [simpl in Hfuel; lia|].
    simpl. eauto.
  - pose proof (linked_path_snoc_inv _ _ _ _ Hpath) as (z & Hz & [Hpar _ _ _]).
    change (sentinel :: l ++ [y]) with ((sentinel :: l) ++ [y]) in Hz.
    rewrite last_snoc in Hz. injection Hz as <-. rewrite Hpar.
    rewrite length_app in Hfuel. simpl in Hfuel.
    destruct fuel as [|fuel]; [lia|]. simpl.
    destruct (y =? sentinel); [eauto|].
    destruct (is_exploratory _); [eauto|].
    apply IH; [by apply linked_path_app_l in Hpath|lia].
Qed.

Lemma linked_path_length st a l :
  linked_path st a l -> Forall (fun x => x < length (nodes st)) l ->
  a + length l < length (nodes st) \/ l = [].
Proof.
  induction 1 as [a|a b l Hab _ IH]; [by right|]. intros Hall. left.
  inversion Hall; subst. destruct Hab. destruct IH as [?| ->]; simpl; [done|lia|lia].
Qed.

Theorem find_backtrack_target_total st :
  reachable st -> exists r, find_backtrack_target st = Some r.
Proof.
  intros [p Hinv]%reachable_path_inv. destruct Hinv as [H1 H2 H3 H4 H5 H6 H7].
  unfold find_backtrack_target, budget.
  destruct (decide (current st = sentinel)) as [Hc0|Hc0].
  { rewrite Hc0, H1. simpl. eauto. }
  destruct (last_cons_snoc_inv _ _ _ H3) as [l ->]; [done|].
  apply find_backtrack_loop_total with l; [done|].
  assert (Forall (fun x => x < length (nodes st)) (l ++ [current st])) as Hall.
  { inversion H5; subst. eapply Forall_impl; [done|]. simpl. lia. }
  destruct (linked_path_length _ _ _ H2 Hall) as [Hlen|Hnil].
  - rewrite length_app in Hlen. simpl in Hlen. lia.
  - by destruct l.
Qed.

(** *** Paths, backtracking and rejected actions on reachable states *)

Lemma path_loop_path st l x :
  linked_path st sentinel (l ++ [x]) ->
  forall fuel, S (length l) < fuel ->
  path_loop fuel st (Some x) = Some (x :: rev l).
Proof.
  revert x. induction l as [|y l IH] using rev_ind; intros x Hpath fuel Hfuel.
  - pose proof (linked_path_snoc_inv _ _ _ _ Hpath) as (y & Hy & [Hpar Hlt _ _]).
    injection Hy as <-. destruct fuel as [|[|fuel]]; simpl in *; try lia.
    destruct (x =? sentinel) eqn:Hx;
      [apply Nat.eqb_eq in Hx; unfold sentinel in *; lia|].
    by rewrite Hpar.
  - pose proof (linked_path_snoc_inv _ _ _ _ Hpath) as (z & Hz & [Hpar Hlt _ _]).
    change (sentinel :: l ++ [y]) with ((sentinel :: l) ++ [y]) in Hz.
    rewrite last_snoc in Hz. injection Hz as <-.
    rewrite length_app in Hfuel. simpl in Hfuel.
    destruct fuel as [|fuel]; [lia|]. simpl.
    destruct (x =? sentinel) eqn:Hx;
      [apply Nat.eqb_eq in Hx; unfold sentinel in *; lia|].
    rewrite Hpar, (IH y); [|by apply linked_path_app_l in Hpath|lia].
    by rewrite rev_app_distr.
Qed.

Lemma path_inv_length st p : path_inv st p -> length p < length (nodes st).
Proof.
  intros [_ H2 _ _ H5 H6 _].
  assert (Forall (fun x => x < length (nodes st)) p) as Hall.
  { inversion H5; subst. eapply Forall_impl; [done|]. simpl. lia. }
  destruct (linked_path_length _ _ _ H2 Hall) as [?| ->]; simpl; [lia|].
  inversion H5; subst. lia.
Qed.

Lemma path_inv_get_path st p :
  path_inv st p -> get_path_from_root_to_current st = Some p.
Proof.
  intros Hinv. pose proof (path_inv_length _ _ Hinv) as Hlen.
  destruct Hinv as [H1 H2 H3 H4 H5 H6 H7].
  unfold get_path_from_root_to_current.
  destruct (current st =? sentinel) eqn:Hc.
  - apply Nat.eqb_eq in Hc. destruct H2 as [a|a b l Hab Hbl]; [done|].
    rewrite last_cons_cons in H3.
    pose proof (linked_path_le _ _ _ _ Hbl H3). destruct Hab. lia.
  - apply Nat.eqb_neq in Hc.
    destruct (last_cons_snoc_inv _ _ _ H3) as [l ->]; [done|].
    unfold get_path_to.
    rewrite (path_loop_path st l (current st) H2).
    + simpl. by rewrite rev_involutive.
    + rewrite length_app in Hlen. simpl in Hlen. unfold budget. lia.
Qed.

(** On a state that legal operations reach, the path from the root to
    [current] is computed; it holds no node flagged as a dead path, is empty
    or starts at a child of the root sentinel, and ends at [current] when
    that is not the sentinel.  [get_reasoning_chain] returns exactly that
    path or ends in [RecursionError], and only with a [current] that is not
    the sentinel can it end so; it returns the path whenever there is room
    for one comparison and every other node of the path differs from
    [current] in a field before [invalid_ops]. *)
Theorem reasoning_chain_is_path depth st :
  reachable st ->
  exists p,
    get_path_from_root_to_current st = Some p /\
    Forall (fun n => dead_path (node st n) = false) p /\
    (p = [] \/
     exists n rest, p = n :: rest /\ In n (children (node st sentinel))) /\
    (current st <> sentinel -> last p = Some (current st)) /\
    (get_reasoning_chain depth st = Some (Returns p) \/
     current st <> sentinel /\
     get_reasoning_chain depth st = Some RecursionError) /\
    (1 <= depth ->
     Forall (fun e => e = current st \/
                      plain_fields_eqb (node st e) (node st (current st)) = false)
       p ->
     get_reasoning_chain depth st = Some (Returns p)).
Proof.
  intros [p Hinv]%reachable_path_inv. exists p.
  pose proof (path_inv_chain depth st p Hinv) as Hchain.
  split; [by apply path_inv_get_path|].
  destruct Hinv as [H1 H2 H3 H4 H5 H6 H7]. split_and!.
  - clear -H2. induction H2 as [a|a b l Hab _ IH]; constructor; [|done].
    by destruct Hab.
  - destruct H2 as [a|a b l Hab _]; [by left|]. right. exists b, l.
    split; [done|]. destruct Hab as [_ _ (pre & -> & _) _].
    apply in_or_app. right. by left.
  - intros Hne. destruct p as [|b l].
    + simpl in H3. injection H3 as H3. by symmetry in H3.
    + by rewrite last_cons_cons in H3.
  - rewrite Hchain. unfold has_real_current.
    destruct (Nat.eqb_spec (current st) sentinel) as [Heq|Hne]; cbn [negb];
      [by left|].
    destruct (node_in st depth (current st) p) as [found|]; [by left|by right].
  - intros Hd Hall. rewrite Hchain.
    rewrite (node_in_plain st depth (current st) p Hd Hall).
    by destruct (has_real_current st).
Qed.

Lemma reasoning_chain_is_path_witness :
  exists p,
    get_path_from_root_to_current s3_final = Some p /\
    Forall (fun n => dead_path (node s3_final n) = false) p /\
    (p = [] \/
     exists n rest, p = n :: rest /\ In n (children (node s3_final sentinel))) /\
    (current s3_final <> sentinel -> last p = Some (current s3_final)) /\
    (get_reasoning_chain 1 s3_final = Some (Returns p) \/
     current s3_final <> sentinel /\
     get_reasoning_chain 1 s3_final = Some RecursionError) /\
    (1 <= 1 ->
     Forall (fun e => e = current s3_final \/
                      plain_fields_eqb (node s3_final e)
                        (node s3_final (current s3_final)) = false)
       p ->
     get_reasoning_chain 1 s3_final = Some (Returns p)).
Proof.
  exact (reasoning_chain_is_path 1 s3_final s3_final_reachable).
Defined.

(** [commit_admissible] in a reachable state with a pending node [t]: [t]
    becomes [current], its parent is the former [current], and the path from
    the root grows by [t]. *)
Theorem commit_admissible_extends_path st t :
  reachable st -> temp_node st = Some t ->
  exists p,
    get_path_from_root_to_current st = Some p /\
    get_path_from_root_to_current (commit_admissible st) = Some (p ++ [t]) /\
    current (commit_admissible st) = t /\
    temp_node (commit_admissible st) = None /\
    parent (node (commit_admissible st) t) = Some (current st) /\
    children (node (commit_admissible st) (current st))
      = children (node st (current st)) ++ [t].
Proof.
  intros [p Hinv]%reachable_path_inv Ht. exists p.
  pose proof (path_inv_commit_admissible _ _ _ Hinv Ht) as Hinv'.
  split; [by apply path_inv_get_path|].
  split; [by apply path_inv_get_path|].
  pose proof (path_inv_current_lt _ _ Hinv) as Hc.
  destruct Hinv as [H1 H2 H3 H4 H5 H6 H7]. destruct (H7 t Ht) as (Htr & _).
  unfold fresh_bound in Hc, H6. rewrite Ht in Hc, H6.
  unfold commit_admissible. rewrite Ht. cbn [current temp_node].
  split; [done|]. split; [done|].
  set (st1 := update t (set_parent (Some (current st))) st).
  set (st2 := update (current st) _ st1).
  change (node (mkAM (nodes st2) t (max_invalid st2) None)) with (node st2).
  split.
  - unfold st2. rewrite (node_update_field parent) by done.
    unfold st1. by rewrite node_update_eq.
  - unfold st2. rewrite node_update_eq by (unfold st1; rewrite length_update; lia).
    cbn [children set_children]. unfold st1.
    by rewrite (node_update_field children).
Qed.

Lemma pending_state_reachable : reachable pending_state.
Proof.
  unfold pending_state.
  eapply reachable_step; [|apply step_create_temp_node].
  eapply reachable_step; [|apply step_commit_admissible].
  eapply reachable_step; [apply (reachable_init 3)|apply step_create_temp_node].
Qed.

Lemma commit_admissible_extends_path_witness :
  exists p,
    get_path_from_root_to_current pending_state = Some p /\
    get_path_from_root_to_current (commit_admissible pending_state)
      = Some (p ++ [2]) /\
    current (commit_admissible pending_state) = 2 /\
    temp_node (commit_admissible pending_state) = None /\
    parent (node (commit_admissible pending_state) 2)
      = Some (current pending_state) /\
    children (node (commit_admissible pending_state) (current pending_state))
      = children (node pending_state (current pending_state)) ++ [2].
Proof.
  exact (commit_admissible_extends_path pending_state 2
           pending_state_reachable eq_refl).
Defined.

Lemma none_exploratory_snoc st l y :
  none_exploratory st l -> is_exploratory (action_property (node st y)) = false ->
  none_exploratory st (l ++ [y]).
Proof. intros Hl Hy. apply Forall_app. split; [done|]. by repeat constructor. Qed.

Lemma find_backtrack_loop_spec st fuel l x r :
  linked_path st sentinel (l ++ [x]) ->
  find_backtrack_loop fuel st (parent (node st x)) = Some r ->
  match r with
  | Some target =>
      exists l1 l2, l = l1 ++ target :: l2 /\
                    is_exploratory (action_property (node st target)) = true /\
                    none_exploratory st l2
  | None => none_exploratory st l
  end.
Proof.
  revert l x. induction fuel as [|fuel IH]; intros l x Hpath Hfind; [done|].
  pose proof (linked_path_snoc_inv _ _ _ _ Hpath) as (y & Hy & Hyx).
  destruct Hyx as [Hpar _ _ _]. rewrite Hpar in Hfind. simpl in Hfind.
  destruct (y =? sentinel) eqn:Hys.
  - apply Nat.eqb_eq in Hys. subst y. injection Hfind as <-.
    destruct l as [|z l _] using rev_ind; [constructor|].
    change (sentinel :: l ++ [z]) with ((sentinel :: l) ++ [z]) in Hy.
    rewrite last_snoc in Hy. injection Hy as ->.
    apply linked_path_app_l, linked_path_gt in Hpath.
    rewrite Forall_forall in Hpath.
    assert (sentinel < sentinel); [|lia].
    apply Hpath, elem_of_app. right. by left.
  - apply Nat.eqb_neq in Hys.
    destruct (last_cons_snoc_inv _ _ _ Hy) as [l' ->]; [done|].
    destruct (is_exploratory (action_property (node st y))) eqn:Hexp.
    + injection Hfind as <-. exists l', []. split; [done|]. split; [done|].
      constructor.
    + apply linked_path_app_l in Hpath. specialize (IH _ _ Hpath Hfind).
      destruct r as [target|].
      * destruct IH as (l1 & l2 & -> & Ht & Hl2).
        exists l1, (l2 ++ [y]). split; [by rewrite <- app_assoc|].
        split; [done|]. by apply none_exploratory_snoc.
      * by apply none_exploratory_snoc.
Qed.

(** [find_backtrack_target] on a reachable state returns the closest proper
    ancestor of [current] that is marked [EXPLORATORY]: no node between it
    and [current] is exploratory; it returns [None] exactly when no proper
    ancestor is exploratory.  The sentinel is never returned. *)
Theorem find_backtrack_target_closest st :
  reachable st ->
  exists p r,
    get_path_from_root_to_current st = Some p /\
    find_backtrack_target st = Some r /\
    match r with
    | Some target =>
        exists l1 l2,
          p = l1 ++ target :: l2 ++ [current st] /\
          is_exploratory (action_property (node st target)) = true /\
          none_exploratory st l2 /\
          target <> sentinel /\ target <> current st
    | None => forall l, p = l ++ [current st] -> none_exploratory st l
    end.
Proof.
  intros Hreach. destruct (find_backtrack_target_total _ Hreach) as [r Hr].
  apply reachable_path_inv in Hreach as [p Hinv]. exists p, r.
  split; [by apply path_inv_get_path|]. split; [done|].
  destruct Hinv as [H1 H2 H3 H4 H5 H6 H7]. unfold find_backtrack_target in Hr.
  destruct (decide (current st = sentinel)) as [Hc0|Hc0].
  { rewrite Hc0, H1 in Hr. simpl in Hr. injection Hr as <-.
    intros l ->. apply linked_path_gt in H2. rewrite Forall_forall in H2.
    assert (sentinel < current st); [|lia].
    apply H2, elem_of_app. right. by left. }
  destruct (last_cons_snoc_inv _ _ _ H3) as [l ->]; [done|].
  pose proof (find_backtrack_loop_spec _ _ _ _ _ H2 Hr) as Hspec.
  destruct r as [target|].
  - destruct Hspec as (l1 & l2 & -> & Hexp & Hnone).
    exists l1, l2. split; [by rewrite <- app_assoc|]. split; [done|].
    split; [done|].
    pose proof (linked_path_NoDup _ _ _ H2) as Hnd.
    pose proof (linked_path_gt _ _ _ H2) as Hgt.
    rewrite Forall_forall in Hgt. split.
    + assert (sentinel < target); [|lia].
      apply Hgt. rewrite <- app_assoc. apply elem_of_app. right. by left.
    + intros ->. apply NoDup_cons in Hnd as [_ Hnd].
      rewrite <- app_assoc in Hnd. apply NoDup_app in Hnd as (_ & _ & Hnd).
      apply NoDup_cons in Hnd as [Hnot _]. apply Hnot.
      apply elem_of_app. right. by left.
  - intros l' Heq. apply app_inj_tail in Heq as [<- _]. done.
Qed.

Lemma find_backtrack_target_closest_witness :
  exists p r,
    get_path_from_root_to_current s3_before_backtrack = Some p /\
    find_backtrack_target s3_before_backtrack = Some r /\
    match r with
    | Some target =>
        exists l1 l2,
          p = l1 ++ target :: l2 ++ [current s3_before_backtrack] /\
          is_exploratory (action_property (node s3_before_backtrack target)) = true /\
          none_exploratory s3_before_backtrack l2 /\
          target <> sentinel /\ target <> current s3_before_backtrack
    | None =>
        forall l, p = l ++ [current s3_before_backtrack] ->
                  none_exploratory s3_before_backtrack l
    end.
Proof.
  apply (find_backtrack_target_closest s3_before_backtrack).
  assert (forall t a p st, reachable st -> reachable (commit_new t a p st)) as Hc.
  { intros t a p st H. unfold commit_new.
    eapply reachable_step; [|apply step_commit_admissible].
    eapply reachable_step; [exact H|apply step_create_temp_node]. }
  apply Hc, Hc, Hc, (reachable_init 3).
Defined.

Lemma dead_child_loop_total st l1 target m x :
  linked_path st sentinel (l1 ++ target :: m ++ [x]) ->
  forall fuel, length m < fuel ->
  exists found, dead_child_loop fuel st target (Some x) = Some found.
Proof.
  revert x. induction m as [|z m IH] using rev_ind; intros x Hpath fuel Hfuel.
  - assert (linked_path st sentinel ((l1 ++ [target]) ++ [x])) as Hp
      by (by rewrite <- app_assoc).
    pose proof (linked_path_snoc_inv _ _ _ _ Hp) as (y & Hy & [Hpar _ _ _]).
    change (sentinel :: l1 ++ [target]) with ((sentinel :: l1) ++ [target]) in Hy.
    rewrite last_snoc in Hy. injection Hy as <-.
    destruct fuel as [|fuel]; [simpl in Hfuel; lia|]. simpl.
    rewrite Hpar, Nat.eqb_refl. eauto.
  - assert (linked_path st sentinel ((l1 ++ target :: m ++ [z]) ++ [x])) as Hp.
    { replace ((l1 ++ target :: m ++ [z]) ++ [x])
        with (l1 ++ target :: (m ++ [z]) ++ [x]); [done|].
      by rewrite <- (app_assoc l1). }
    pose proof (linked_path_snoc_inv _ _ _ _ Hp) as (y & Hy & [Hpar _ _ _]).
    replace (sentinel :: l1 ++ target :: m ++ [z])
      with ((sentinel :: l1 ++ target :: m) ++ [z]) in Hy
      by (simpl; by rewrite <- app_assoc).
    rewrite last_snoc in Hy. injection Hy as <-.
    rewrite length_app in Hfuel. simpl in Hfuel.
    destruct fuel as [|fuel]; [lia|]. simpl. rewrite Hpar.
    destruct (z =? target); [eauto|].
    apply IH; [by apply linked_path_app_l in Hp|lia].
Qed.

Lemma path_loop_ext st st' :
  (forall x, parent (node st' x) = parent (node st x)) ->
  forall fuel n, path_loop fuel st' n = path_loop fuel st n.
Proof.
  intros Hp. induction fuel as [|fuel IH]; intros n; [done|]. simpl.
  destruct n as [r|]; [|done]. destruct (r =? sentinel); [done|].
  by rewrite Hp, IH.
Qed.

(** [backtrack_to] the target that [find_backtrack_target] returned, in a
    reachable state: the call returns; [current] becomes the target; the
    summary is appended to the target's [dead_path_summaries]; the child of
    the target on the former path, and no other node, gets [dead_path]; the
    links of the tree are unchanged, and the path from the root is the former
    path cut after the target. *)
Theorem backtrack_to_effect st target s :
  reachable st ->
  find_backtrack_target st = Some (Some target) ->
  exists st' l1 b l2,
    get_path_from_root_to_current st = Some (l1 ++ target :: b :: l2) /\
    backtrack_to target s st = Some st' /\
    current st' = target /\
    temp_node st' = temp_node st /\
    get_path_from_root_to_current st' = Some (l1 ++ [target]) /\
    dead_path (node st' b) = true /\
    (forall x, x <> b -> dead_path (node st' x) = dead_path (node st x)) /\
    dead_path_summaries (node st' target)
      = dead_path_summaries (node st target) ++ [s] /\
    (forall x, parent (node st' x) = parent (node st x) /\
               children (node st' x) = children (node st x)).
Proof.
  intros [p Hinv]%reachable_path_inv Hfind.
  pose proof (path_inv_get_path _ _ Hinv) as Hpath.
  pose proof (path_inv_length _ _ Hinv) as Hplen.
  pose proof Hinv as [H1 H2 H3 H4 H5 H6 H7].
  pose proof Hfind as Hfind'. unfold find_backtrack_target in Hfind.
  destruct (decide (current st = sentinel)) as [Hc0|Hc0].
  { rewrite Hc0, H1 in Hfind. done. }
  destruct (last_cons_snoc_inv _ _ _ H3) as [l ->]; [done|].
  destruct (find_backtrack_on_path _ _ _ _ _ H2 Hfind) as (l1 & m & ->).
  rewrite <- app_assoc in H2, H5, Hpath, Hplen. simpl in H2, H5, Hpath, Hplen.
  destruct (dead_child_loop_total _ _ _ _ _ H2 (budget st)) as [found Hwalk].
  { rewrite length_app in Hplen. simpl in Hplen. rewrite length_app in Hplen.
    unfold budget. lia. }
  pose proof (dead_child_on_path _ _ _ _ _ _ _ H2 Hwalk) as ->.
  set (c := current st) in *. set (b := hd c (m ++ [c])) in *.
  assert (exists m', m ++ [c] = b :: m') as [m' Hm'].
  { unfold b. destruct m; simpl; eauto. }
  rewrite Hm' in H2, H5, Hpath.
  assert (b < length (nodes st)) as Hb.
  { rewrite Forall_forall in H5.
    assert (b < fresh_bound st); [|lia]. apply H5.
    apply elem_of_cons. right. apply elem_of_app. right.
    apply elem_of_cons. right. by left. }
  assert (target < length (nodes st)) as Ht.
  { rewrite Forall_forall in H5.
    assert (target < fresh_bound st); [|lia]. apply H5.
    apply elem_of_cons. right. apply elem_of_app. right. by left. }
  unfold backtrack_to. fold c. rewrite Hwalk.
  set (st1 := update b (set_dead_path true) st).
  set (st2 := update target
                (fun t => set_dead_path_summaries (dead_path_summaries t ++ [s]) t)
                st1).
  exists (mkAM (nodes st2) target (max_invalid st2) (temp_node st2)), l1, b, m'.
  set (st' := mkAM _ _ _ _).
  assert (forall x, node st' x = node st2 x) as Hn by done.
  assert (forall x, parent (node st' x) = parent (node st x)) as Hp.
  { intros x. rewrite Hn. unfold st2, st1.
    by rewrite !(node_update_field parent). }
  split; [done|]. split; [done|]. split; [done|]. split; [done|]. split.
  { unfold get_path_from_root_to_current. change (current st') with target.
    assert (linked_path st sentinel (l1 ++ [target])) as Hpre.
    { replace (l1 ++ target :: b :: m') with ((l1 ++ [target]) ++ b :: m') in H2
        by (by rewrite <- app_assoc).
      by apply linked_path_app_l in H2. }
    pose proof (linked_path_gt _ _ _ Hpre) as Hgt. rewrite Forall_forall in Hgt.
    assert (sentinel < target) as Hpos.
    { apply Hgt, elem_of_app. right. by left. }
    destruct (target =? sentinel) eqn:E; [apply Nat.eqb_eq in E; lia|].
    unfold get_path_to. rewrite (path_loop_ext st st' Hp).
    rewrite (path_loop_path st l1 target Hpre).
    - simpl. by rewrite rev_involutive.
    - unfold budget, st', st2, st1. simpl. rewrite !length_alter.
      rewrite length_app in Hplen. simpl in Hplen. lia. }
  split.
  { rewrite Hn. unfold st2. rewrite (node_update_field dead_path) by done.
    unfold st1. by rewrite node_update_eq. }
  split.
  { intros x Hx. rewrite Hn. unfold st2.
    rewrite (node_update_field dead_path) by done.
    unfold st1. by rewrite node_update_ne. }
  split.
  { rewrite Hn. unfold st2.
    rewrite node_update_eq by (unfold st1; by rewrite length_update).
    cbn [dead_path_summaries set_dead_path_summaries]. unfold st1.
    by rewrite (node_update_field dead_path_summaries). }
  intros x. split; [done|]. rewrite Hn. unfold st2, st1.
  by rewrite !(node_update_field children).
Qed.

Lemma s3_before_backtrack_reachable : reachable s3_before_backtrack.
Proof.
  assert (forall t a p st, reachable st -> reachable (commit_new t a p st)) as Hc.
  { intros t a p st H. unfold commit_new.
    eapply reachable_step; [|apply step_commit_admissible].
    eapply reachable_step; [exact H|apply step_create_temp_node]. }
  apply Hc, Hc, Hc, (reachable_init 3).
Qed.

Lemma backtrack_to_effect_witness :
  exists st' l1 b l2,
    get_path_from_root_to_current s3_before_backtrack
      = Some (l1 ++ 1 :: b :: l2) /\
    backtrack_to 1 "dead" s3_before_backtrack = Some st' /\
    current st' = 1 /\
    temp_node st' = temp_node s3_before_backtrack /\
    get_path_from_root_to_current st' = Some (l1 ++ [1]) /\
    dead_path (node st' b) = true /\
    (forall x, x <> b ->
               dead_path (node st' x) = dead_path (node s3_before_backtrack x)) /\
    dead_path_summaries (node st' 1)
      = dead_path_summaries (node s3_before_backtrack 1) ++ ["dead"] /\
    (forall x, parent (node st' x) = parent (node s3_before_backtrack x) /\
               children (node st' x) = children (node s3_before_backtrack x)).
Proof.
  exact (backtrack_to_effect s3_before_backtrack 1 "dead"
           s3_before_backtrack_reachable eq_refl).
Defined.

Lemma dead_path_loop_found st from l :
  linked_path st from l ->
  forall x, last (from :: l) = Some x ->
  forall fuel, length l < fuel ->
  dead_path_loop fuel st from (Some x) = Some (rev l, Some from).
Proof.
  induction l as [|y l IH] using rev_ind; intros Hpath x Hlast fuel Hfuel.
  - injection Hlast as <-. destruct fuel as [|fuel]; [simpl in Hfuel; lia|].
    simpl. by rewrite Nat.eqb_refl.
  - change (from :: l ++ [y]) with ((from :: l) ++ [y]) in Hlast.
    rewrite last_snoc in Hlast. injection Hlast as <-.
    pose proof (linked_path_snoc_inv _ _ _ _ Hpath) as (z & Hz & [Hpar _ _ _]).
    pose proof (linked_path_gt _ _ _ Hpath) as Hgt. rewrite Forall_forall in Hgt.
    assert (from < y) as Hlt by (apply Hgt, elem_of_app; right; by left).
    rewrite length_app in Hfuel. simpl in Hfuel.
    destruct fuel as [|fuel]; [lia|]. simpl.
    destruct (y =? from) eqn:E; [apply Nat.eqb_eq in E; lia|].
    rewrite Hpar, (IH (linked_path_app_l _ _ _ _ Hpath) z Hz) by lia.
    by rewrite rev_app_distr.
Qed.

Lemma dead_path_loop_missed st from l :
  parent (node st sentinel) = None ->
  linked_path st sentinel l ->
  from ∉ sentinel :: l ->
  forall x, last (sentinel :: l) = Some x ->
  forall fuel, S (length l) < fuel ->
  dead_path_loop fuel st from (Some x) = Some (rev (sentinel :: l), None).
Proof.
  intros Hroot.
  induction l as [|y l IH] using rev_ind; intros Hpath Hnot x Hlast fuel Hfuel.
  - injection Hlast as <-.
    destruct fuel as [|[|fuel]]; [simpl in Hfuel; lia..|].
    cbn [dead_path_loop].
    destruct (sentinel =? from) eqn:E;
      [apply Nat.eqb_eq in E; exfalso; apply Hnot; rewrite <- E; by left|].
    by rewrite Hroot.
  - change (sentinel :: l ++ [y]) with ((sentinel :: l) ++ [y]) in Hlast, Hnot |- *.
    rewrite last_snoc in Hlast. injection Hlast as <-.
    pose proof (linked_path_snoc_inv _ _ _ _ Hpath) as (z & Hz & [Hpar _ _ _]).
    rewrite length_app in Hfuel. simpl in Hfuel.
    destruct fuel as [|fuel]; [lia|]. cbn [dead_path_loop].
    destruct (y =? from) eqn:E.
    { apply Nat.eqb_eq in E. exfalso. apply Hnot, elem_of_app. right.
      rewrite E. by left. }
    rewrite Hpar, (IH (linked_path_app_l _ _ _ _ Hpath)) with (x := z); [|..].
    + by rewrite (rev_app_distr (sentinel :: l)).
    + intros Hin. apply Hnot, elem_of_app. by left.
    + done.
    + lia.
Qed.

(** [get_dead_path from_node] in a reachable state.  When [from_node] lies on
    the path from the root to [current] the result is the part of that path
    from [from_node] on.  When it does not, and [current] is a real node, the
    walk runs through the sentinel: the result is the whole path preceded by
    the sentinel object. *)
Theorem get_dead_path_of_path st from :
  reachable st ->
  exists p,
    get_path_from_root_to_current st = Some p /\
    (forall l1 l2, p = l1 ++ from :: l2 ->
                   get_dead_path from st = Some (from :: l2)) /\
    (from ∉ p -> get_dead_path from st
                 = Some (if current st =? sentinel then [] else sentinel :: p)).
Proof.
  intros [p Hinv]%reachable_path_inv. exists p.
  pose proof (path_inv_get_path _ _ Hinv) as Hpath.
  pose proof (path_inv_length _ _ Hinv) as Hplen.
  destruct Hinv as [H1 H2 H3 H4 H5 H6 H7].
  pose proof (linked_path_gt _ _ _ H2) as Hgt. rewrite Forall_forall in Hgt.
  split; [done|]. unfold get_dead_path, budget. split.
  - intros l1 l2 ->.
    assert (last (from :: l2) = Some (current st)) as Hlast.
    { replace (sentinel :: l1 ++ from :: l2)
        with ((sentinel :: l1) ++ from :: l2) in H3 by done.
      by rewrite last_app_cons in H3. }
    assert (current st ∈ from :: l2) as Hin.
    { apply last_Some in Hlast as [l' ->]. apply elem_of_app. right. by left. }
    assert (sentinel < current st) as Hpos.
    { apply Hgt, elem_of_app. by right. }
    destruct (current st =? sentinel) eqn:E; [apply Nat.eqb_eq in E; lia|].
    rewrite (dead_path_loop_found st from l2 (linked_path_app_r _ _ _ _ _ H2)
               _ Hlast).
    + by rewrite rev_app_distr, rev_involutive.
    + rewrite length_app in Hplen. simpl in Hplen. lia.
  - intros Hnot. destruct (current st =? sentinel) eqn:E; [done|].
    destruct (decide (from = sentinel)) as [->|Hne].
    + rewrite (dead_path_loop_found st sentinel p H2 _ H3) by lia.
      by rewrite rev_app_distr, rev_involutive.
    + assert (from ∉ sentinel :: p) as Hnot'.
      { by intros [->|Hin]%elem_of_cons. }
      rewrite (dead_path_loop_missed st from p H1 H2 Hnot' _ H3) by lia.
      by rewrite rev_involutive.
Qed.

Lemma get_dead_path_of_path_witness :
  exists p,
    get_path_from_root_to_current s3_before_backtrack = Some p /\
    (forall l1 l2, p = l1 ++ 2 :: l2 ->
                   get_dead_path 2 s3_before_backtrack = Some (2 :: l2)) /\
    (2 ∉ p -> get_dead_path 2 s3_before_backtrack
              = Some (if current s3_before_backtrack =? sentinel then []
                      else sentinel :: p)).
Proof.
  exact (get_dead_path_of_path s3_before_backtrack 2
           s3_before_backtrack_reachable).
Defined.

(** [commit_invalid] in a reachable state with a pending node [t]: when
    [current] is a real node, [get_rejected_actions] afterwards is the former
    list followed by [t]; when [current] is the sentinel, the rejected node is
    stored in the sentinel's [invalid_ops] and [get_rejected_actions] stays
    empty. *)
Theorem commit_invalid_rejected st t :
  reachable st -> temp_node st = Some t ->
  exists rej,
    get_rejected_actions st = Some rej /\
    invalid_ops (node (snd (commit_invalid st)) (current st))
      = invalid_ops (node st (current st)) ++ [t] /\
    get_rejected_actions (snd (commit_invalid st))
      = Some (if current st =? sentinel then [] else rej ++ [t]).
Proof.
  intros [p Hinv]%reachable_path_inv Ht.
  pose proof (path_inv_commit_invalid _ _ Hinv) as Hinv'.
  pose proof (path_inv_get_path _ _ Hinv) as Hpath.
  pose proof (path_inv_get_path _ _ Hinv') as Hpath'.
  pose proof (path_inv_current_lt _ _ Hinv) as Hc.
  destruct Hinv as [H1 H2 H3 H4 H5 H6 H7].
  unfold get_rejected_actions. rewrite Hpath, Hpath'. eexists. split; [done|].
  assert (forall x, invalid_ops (node (snd (commit_invalid st)) x)
                    = if decide (x = current st)
                      then invalid_ops (node st x) ++ [t]
                      else invalid_ops (node st x)) as Hops.
  { intros x. unfold commit_invalid. rewrite Ht.
    cbn [snd]. change (node (mkAM ?n _ _ _) x) with (node (mkAM n (current st) (max_invalid st) (temp_node st)) x).
    set (st1 := update t (set_parent (Some (current st))) st).
    assert (node (mkAM (nodes (update (current st)
              (fun c => set_invalid_ops (invalid_ops c ++ [t]) c) st1))
              (current st) (max_invalid st) (temp_node st)) x
            = node (update (current st)
                (fun c => set_invalid_ops (invalid_ops c ++ [t]) c) st1) x) as ->
      by done.
    case_decide as Hx.
    - subst x. rewrite node_update_eq.
      + cbn [invalid_ops set_invalid_ops]. unfold st1.
        by rewrite (node_update_field invalid_ops).
      + unfold st1. rewrite length_update. unfold fresh_bound in *. lia.
    - rewrite node_update_ne by done. unfold st1.
      by rewrite (node_update_field invalid_ops). }
  split.
  { rewrite Hops. by case_decide. }
  f_equal. destruct (current st =? sentinel) eqn:E.
  - apply Nat.eqb_eq in E. destruct H2 as [a|a b l Hab Hbl]; [done|].
    rewrite last_cons_cons in H3.
    pose proof (linked_path_le _ _ _ _ Hbl H3). destruct Hab. lia.
  - apply Nat.eqb_neq in E.
    destruct (last_cons_snoc_inv _ _ _ H3) as [l ->]; [done|].
    pose proof (linked_path_NoDup _ _ _ H2) as Hnd.
    apply NoDup_cons in Hnd as [_ Hnd].
    apply NoDup_app in Hnd as (_ & Hdisj & _).
    rewrite !map_app, !concat_app. cbn [map concat]. rewrite !app_nil_r.
    rewrite Hops. rewrite decide_True by done. rewrite app_assoc.
    assert (map (fun r => invalid_ops (node (snd (commit_invalid st)) r)) l
            = map (fun r => invalid_ops (node st r)) l) as ->; [|done].
    apply map_ext_in. intros x Hx%list_elem_of_In.
    rewrite Hops. rewrite decide_False; [done|].
    intros ->. apply (Hdisj _ Hx). by left.
Qed.

Lemma commit_invalid_rejected_witness :
  exists rej,
    get_rejected_actions pending_state = Some rej /\
    invalid_ops (node (snd (commit_invalid pending_state)) (current pending_state))
      = invalid_ops (node pending_state (current pending_state)) ++ [2] /\
    get_rejected_actions (snd (commit_invalid pending_state))
      = Some (if current pending_state =? sentinel then [] else rej ++ [2]).
Proof.
  exact (commit_invalid_rejected pending_state 2 pending_state_reachable eq_refl).
Defined.

Lemma grows_refl n : grows n n.
Proof. by split. Qed.

Lemma grows_trans n1 n2 n3 : grows n1 n2 -> grows n2 n3 -> grows n1 n3.
Proof.
  intros [a1 a2 a3 a4 a5 a6 a7 a8] [b1 b2 b3 b4 b5 b6 b7 b8].
  split; try congruence; try (by etrans); auto.
Qed.

Lemma grows_update r f st x :
  (forall n, grows n (f n)) -> grows (node st x) (node (update r f st) x).
Proof.
  intros Hf. unfold node, update; simpl.
  rewrite list_lookup_total_alter.
  case_decide as Hd; [destruct Hd as [-> _]; apply Hf|apply grows_refl].
Qed.

Lemma grows_on_active f st x :
  (forall n, grows n (f n)) -> grows (node st x) (node (on_active f st) x).
Proof.
  intros Hf. unfold on_active.
  destruct (active_node st); [by apply grows_update|apply grows_refl].
Qed.

Lemma step_grows st st' x :
  step st st' -> x < length (nodes st) ->
  x < length (nodes st') /\ max_invalid st' = max_invalid st /\
  grows (node st x) (node st' x).
Proof.
  intros Hstep Hx. destruct Hstep.
  - simpl. rewrite length_app. simpl. split; [lia|]. split; [done|].
    unfold node. simpl. rewrite lookup_total_app_l by done. apply grows_refl.
  - unfold set_observation. destruct (temp_node st); [|by auto using grows_refl].
    rewrite length_update. split_and!; [done..|].
    apply grows_update. intros ?. by split.
  - unfold set_reflection. destruct (temp_node st); [|by auto using grows_refl].
    rewrite length_update. split_and!; [done..|].
    apply grows_update. intros ?. by split.
  - unfold commit_admissible.
    destruct (temp_node st) as [t|]; [|by auto using grows_refl].
    cbn [nodes max_invalid]. rewrite !length_update. split_and!; [done..|].
    eapply grows_trans; [apply (grows_update t (set_parent (Some (current st))))|].
    { intros ?. by split. }
    apply (grows_update (current st)
             (fun c => set_children (children c ++ [t]) c)).
    intros ?. split; try done. by apply prefix_app_r.
  - unfold commit_invalid.
    destruct (temp_node st) as [t|]; [|by auto using grows_refl].
    cbn [snd nodes max_invalid]. rewrite !length_update. split_and!; [done..|].
    eapply grows_trans; [apply (grows_update t (set_parent (Some (current st))))|].
    { intros ?. by split. }
    apply (grows_update (current st)
             (fun c => set_invalid_ops (invalid_ops c ++ [t]) c)).
    intros ?. split; try done. by apply prefix_app_r.
  - unfold backtrack_to in H0.
    destruct (dead_child_loop _ _ _ _) as [found|]; [|done].
    cbv zeta in H0. apply (inj Some) in H0. subst st'.
    assert (forall n, grows n (set_dead_path true n)) as Hd by (intros ?; by split).
    destruct found as [r|]; cbn [nodes max_invalid]; rewrite !length_update.
    + split_and!; [done..|].
      eapply grows_trans; [apply (grows_update r (set_dead_path true) _ _ Hd)|].
      apply (grows_update target
               (fun t => set_dead_path_summaries
                           (dead_path_summaries t ++ [dead_path_summary]) t)).
      intros ?. split; try done. by apply prefix_app_r.
    + split_and!; [done..|].
      apply (grows_update target
               (fun t => set_dead_path_summaries
                           (dead_path_summaries t ++ [dead_path_summary]) t)).
      intros ?. split; try done. by apply prefix_app_r.
  - assert (forall n, grows n (append_code_chunk ch n)) as Hf.
    { intros ?. split; try done. by apply prefix_app_r. }
    split_and!; [|..|by apply grows_on_active];
      unfold on_active; destruct (active_node st); by rewrite ?length_update.
  - assert (forall n, grows n (put_tool_status pkg status n)) as Hf.
    { intros ?. by split. }
    split_and!; [|..|by apply grows_on_active];
      unfold on_active; destruct (active_node st); by rewrite ?length_update.
  - assert (forall n, grows n (set_code_change diff n)) as Hf.
    { intros ?. by split. }
    split_and!; [|..|by apply grows_on_active];
      unfold on_active; destruct (active_node st); by rewrite ?length_update.
Qed.

(** Over any sequence of legal operations an existing node object only grows:
    its [thoughts], [action] and [action_property] stay, a [dead_path] flag is
    never cleared, and [children], [invalid_ops], [dead_path_summaries] and
    [code_chunks] are only appended to; no node is removed from [_all_nodes]
    and [max_invalid] stays. *)
Theorem legal_operations_only_grow st st' x :
  rtc step st st' -> x < length (nodes st) ->
  x < length (nodes st') /\ max_invalid st' = max_invalid st /\
  grows (node st x) (node st' x).
Proof.
  induction 1 as [st|st st1 st' Hstep _ IH]; intros Hx.
  - by auto using grows_refl.
  - destruct (step_grows _ _ _ Hstep Hx) as (Hx1 & Hm1 & Hg1).
    destruct (IH Hx1) as (Hx' & Hm' & Hg').
    split_and!; [done|congruence|by eapply grows_trans].
Qed.

Lemma legal_operations_only_grow_witness :
  1 < length (nodes (commit_new "B" "b" None (commit_new "A" "a" None (init 3)))) /\
  max_invalid (commit_new "B" "b" None (commit_new "A" "a" None (init 3)))
    = max_invalid (commit_new "A" "a" None (init 3)) /\
  grows (node (commit_new "A" "a" None (init 3)) 1)
        (node (commit_new "B" "b" None (commit_new "A" "a" None (init 3))) 1).
Proof.
  apply (legal_operations_only_grow (commit_new "A" "a" None (init 3))).
  - eapply rtc_l; [apply step_create_temp_node|].
    apply rtc_once, step_commit_admissible.
  - vm_compute. lia.
Defined.

(** ** Properties of the code context manager *)

(** *** Ranges *)

Lemma range_Z_In a b x : In x (range_Z a b) <-> (a <= x < b)%Z.
Proof.
  unfold range_Z. rewrite in_map_iff. split.
  - intros (i & <- & Hi%in_seq). lia.
  - intros Hx. exists (Z.to_nat (x - a)). split; [lia|]. apply in_seq. lia.
Qed.

Lemma range_Z_sorted a b : StronglySorted Z.lt (range_Z a b).
Proof.
  unfold range_Z. generalize (Z.to_nat (b - a)) as n. generalize 0 as s.
  intros s n. revert s. induction n as [|n IH]; intros s; simpl; constructor.
  - apply IH.
  - apply Forall_forall. intros x Hx. apply list_elem_of_In in Hx.
    apply in_map_iff in Hx as (i & <- & Hi%in_seq). lia.
Qed.

Lemma range_Z_interval lo hi : interval (range_Z lo (hi + 1)) lo hi.
Proof.
  split; [apply range_Z_sorted|]. intros x. rewrite range_Z_In. lia.
Qed.

Lemma range_Z_length a b : length (range_Z a b) = Z.to_nat (b - a).
Proof. unfold range_Z. by rewrite length_map, length_seq. Qed.

(** *** [enclosing_node] finds an innermost enclosing node *)


Definition walk_children (idx : Z) (ty : string) :=
  fix walk_children (l : list ts_node) (r : option ts_node) : option ts_node :=
    match l with
    | [] => r
    | c :: l' => walk_children l' (enclosing_walk idx ty c r)
    end.






(** *** The caches *)

Section CacheFacts.

Variable parse_python : string -> ts_node.

Lemma read_file_cached fs p m content :
  _file_cache m !! p = Some content -> _read_file fs p m = (content, m).
Proof. intros H. unfold _read_file. by rewrite H. Qed.

Lemma read_file_spec fs p m :
  let (content, m') := _read_file fs p m in
  _file_cache m' !! p = Some content /\
  cwd m' = cwd m /\
  _parse_cache m' = _parse_cache m /\
  (forall q, q <> p -> _file_cache m' !! q = _file_cache m !! q) /\
  (forall c, _file_cache m !! p = Some c -> content = c /\ m' = m) /\
  (_file_cache m !! p = None -> content = fs p).
Proof.
  unfold _read_file. destruct (_file_cache m !! p) as [c|] eqn:Hc; simpl.
  - split_and!; try done. by intros c' [= <-].
  - split_and!; try done.
    + apply lookup_insert_eq.
    + intros q Hq. by apply lookup_insert_ne.
Qed.

Lemma read_file_consistent fs p m :
  caches_consistent parse_python m ->
  caches_consistent parse_python (snd (_read_file fs p m)).
Proof.
  intros Hc. unfold _read_file.
  destruct (_file_cache m !! p) as [c|] eqn:Hp; simpl; [done|].
  intros q tree Hq. simpl in *. destruct (Hc q tree Hq) as (content & Hf & ->).
  exists content. split; [|done].
  rewrite lookup_insert_ne; [done|]. intros <-. congruence.
Qed.


Lemma new_manager_consistent c : caches_consistent parse_python (new_manager c).
Proof. intros p tree H. simpl in H. by rewrite lookup_empty in H. Qed.

(** *** C6: the window of [get_nearby_code_context] *)


End CacheFacts.



(** *** C9: the delegate is called once per path *)

Section Caching.

Variable parse_python : string -> ts_node.

Lemma cache_step_refl m : cache_step_for parse_python m m.
Proof. unfold cache_step_for, keeps_cache. by split_and!. Qed.

Lemma cache_step_trans m1 m2 m3 :
  cache_step_for parse_python m1 m2 -> cache_step_for parse_python m2 m3 -> cache_step_for parse_python m1 m3.
Proof.
  intros (K1 & C1 & R1 & P1) (K2 & C2 & R2 & P2). split_and!; try auto.
  - intros p c H. by apply K2, K1.
  - congruence.
Qed.

Lemma read_file_step fs p m : cache_step_for parse_python m (snd (_read_file fs p m)).
Proof.
  split_and!.
  - intros q c Hq. unfold _read_file.
    destruct (_file_cache m !! p) eqn:Hp; simpl; [done|].
    rewrite lookup_insert_ne; [done|]. intros <-. congruence.
  - unfold _read_file. by destruct (_file_cache m !! p).
  - intros [Hnd Hdom]. unfold _read_file.
    destruct (_file_cache m !! p) eqn:Hp; simpl; [done|]. split; simpl.
    + rewrite map_app. cbn [map fst].
      apply NoDup_app. split_and!; [done| |apply NoDup_singleton].
      intros q Hq ->%list_elem_of_singleton.
      apply list_elem_of_In, in_map_iff in Hq as ([q c] & Hqp & Hq).
      simpl in Hqp. subst q. apply Hdom in Hq. congruence.
    + intros q c. rewrite in_app_iff, Hdom. simpl.
      destruct (decide (p = q)) as [<-|Hne].
      * rewrite lookup_insert_eq. split.
        -- intros [?|[[= <-]|[]]]; [congruence|done].
        -- intros [= <-]. right. by left.
      * rewrite lookup_insert_ne by done. split; [|by left].
        intros [?|[[= ? ?]|[]]]; done.
  - apply read_file_consistent.
Qed.

Lemma parse_file_step fs p m :
  cache_step_for parse_python m (snd (_parse_file parse_python fs p m)).
Proof.
  unfold _parse_file.
  pose proof (read_file_step fs p m) as Hstep.
  pose proof (read_file_spec fs p m) as Hspec.
  destruct (_read_file fs p m) as [content m1]. simpl in Hstep.
  destruct Hspec as (Hcached & _).
  destruct (_parse_cache m1 !! p) eqn:Ht; simpl; [done|].
  eapply cache_step_trans; [exact Hstep|].
  unfold cache_step_for, keeps_cache. split_and!; try done.
  intros Hc q tree Hq. simpl in *.
  destruct (decide (p = q)) as [<-|Hne].
  - rewrite lookup_insert_eq in Hq. injection Hq as <-. eauto.
  - rewrite lookup_insert_ne in Hq by done. by apply Hc.
Qed.

Lemma nearby_step fs p l w m :
  cache_step_for parse_python m (snd (get_nearby_code_context parse_python fs p l w m)).
Proof.
  unfold get_nearby_code_context.
  pose proof (read_file_step fs (_resolve_path m p) m) as H1.
  destruct (_read_file fs (_resolve_path m p) m) as [content m1]. simpl in H1.
  destruct (String.eqb content ""); [done|].
  pose proof (parse_file_step fs (_resolve_path m p) m1) as H2.
  destruct (_parse_file parse_python fs (_resolve_path m p) m1) as [tree m2].
  simpl in H2. pose proof (cache_step_trans _ _ _ H1 H2) as H3.
  destruct (enclosing_node tree l "function_definition"); [|done].
  destruct (node_lines t). by destruct (_ <=? _)%Z.
Qed.

Lemma code_lines_step fs p s e m :
  cache_step_for parse_python m (snd (get_code_lines fs p s e m)).
Proof.
  unfold get_code_lines.
  pose proof (read_file_step fs (_resolve_path m p) m) as H1.
  destruct (_read_file fs (_resolve_path m p) m) as [content m1]. simpl in H1.
  by destruct (String.eqb content "").
Qed.

Lemma render_file_step fs st entry :
  cache_step_for parse_python (snd st) (snd (render_file parse_python fs st entry)).
Proof.
  destruct st as [sections m], entry as [p cs]. unfold render_file.
  pose proof (read_file_step fs (_resolve_path m p) m) as H1.
  destruct (_read_file fs (_resolve_path m p) m) as [content m1]. simpl in H1.
  destruct (splitlines content); [done|].
  by destruct (_collect_needed_lines parse_python cs content).
Qed.

Lemma render_files_step fs files st :
  cache_step_for parse_python (snd st) (snd (fold_left (render_file parse_python fs) files st)).
Proof.
  revert st. induction files as [|entry files IH]; intros st; simpl.
  - apply cache_step_refl.
  - eapply cache_step_trans; [apply render_file_step|apply IH].
Qed.

Lemma render_step fs chunks m :
  cache_step_for parse_python m (snd (render parse_python fs chunks m)).
Proof.
  unfold render. destruct (_merge_chunks chunks); [apply cache_step_refl|].
  pose proof (render_files_step fs (group_by_file (c :: l)) ([], m)) as H.
  by destruct (fold_left _ _ _).
Qed.

Lemma run_call_step fs call m :
  cache_step_for parse_python m (snd (run_call parse_python fs call m)).
Proof.
  destruct call as [p l w|p s e|chunks]; simpl.
  - pose proof (nearby_step fs p l w m). by destruct (get_nearby_code_context _ _ _ _ _ _).
  - pose proof (code_lines_step fs p s e m). by destruct (get_code_lines _ _ _ _ _).
  - pose proof (render_step fs chunks m). by destruct (render _ _ _ _).
Qed.

Lemma run_calls_step calls m : cache_step_for parse_python m (run_calls parse_python calls m).
Proof.
  revert m. induction calls as [|[fs call] calls IH]; intros m; simpl.
  - apply cache_step_refl.
  - eapply cache_step_trans; [apply run_call_step|apply IH].
Qed.

(** Results do not depend on what the reader answers for cached paths. *)
Lemma agree_keeps m m' fs1 fs2 :
  keeps_cache m m' -> agree_on_unread m fs1 fs2 -> agree_on_unread m' fs1 fs2.
Proof.
  intros Hk Ha p Hp. apply Ha. destruct (_file_cache m !! p) eqn:E; [|done].
  apply Hk in E. congruence.
Qed.

Lemma read_file_agree fs1 fs2 p m :
  agree_on_unread m fs1 fs2 -> _read_file fs1 p m = _read_file fs2 p m.
Proof.
  intros Ha. unfold _read_file. destruct (_file_cache m !! p) eqn:Hp; [done|].
  by rewrite (Ha p Hp).
Qed.

Lemma parse_file_agree fs1 fs2 p m :
  agree_on_unread m fs1 fs2 ->
  _parse_file parse_python fs1 p m = _parse_file parse_python fs2 p m.
Proof. intros Ha. unfold _parse_file. by rewrite (read_file_agree fs1 fs2). Qed.

Lemma nearby_agree fs1 fs2 p l w m :
  agree_on_unread m fs1 fs2 ->
  get_nearby_code_context parse_python fs1 p l w m
  = get_nearby_code_context parse_python fs2 p l w m.
Proof.
  intros Ha. unfold get_nearby_code_context.
  rewrite (read_file_agree fs1 fs2 _ _ Ha).
  pose proof (read_file_step fs2 (_resolve_path m p) m) as (Hk & _).
  destruct (_read_file fs2 (_resolve_path m p) m) as [content m1]. simpl in Hk.
  destruct (String.eqb content ""); [done|].
  by rewrite (parse_file_agree fs1 fs2 _ _ (agree_keeps _ _ _ _ Hk Ha)).
Qed.

Lemma code_lines_agree fs1 fs2 p s e m :
  agree_on_unread m fs1 fs2 ->
  get_code_lines fs1 p s e m = get_code_lines fs2 p s e m.
Proof.
  intros Ha. unfold get_code_lines. by rewrite (read_file_agree fs1 fs2 _ _ Ha).
Qed.

Lemma render_file_agree fs1 fs2 st entry :
  agree_on_unread (snd st) fs1 fs2 ->
  render_file parse_python fs1 st entry = render_file parse_python fs2 st entry.
Proof.
  destruct st as [sections m], entry as [p cs]. simpl. intros Ha.
  by rewrite (read_file_agree fs1 fs2 _ _ Ha).
Qed.

Lemma render_files_agree fs1 fs2 files st :
  agree_on_unread (snd st) fs1 fs2 ->
  fold_left (render_file parse_python fs1) files st
  = fold_left (render_file parse_python fs2) files st.
Proof.
  revert st. induction files as [|entry files IH]; intros st Ha; simpl; [done|].
  rewrite (render_file_agree fs1 fs2 _ _ Ha). apply IH.
  pose proof (render_file_step fs2 st entry) as (Hk & _).
  by apply agree_keeps with (snd st).
Qed.

Lemma run_call_agree fs1 fs2 call m :
  agree_on_unread m fs1 fs2 ->
  run_call parse_python fs1 call m = run_call parse_python fs2 call m.
Proof.
  intros Ha. destruct call as [p l w|p s e|chunks]; simpl.
  - by rewrite (nearby_agree fs1 fs2).
  - by rewrite (code_lines_agree fs1 fs2).
  - unfold render. destruct (_merge_chunks chunks); [done|].
    by rewrite (render_files_agree fs1 fs2).
Qed.

Lemma new_manager_reads_once c : reads_once (new_manager c).
Proof.
  split; simpl; [constructor|]. intros p c'. rewrite lookup_empty.
  split; [done|]. by intros ?.
Qed.

End Caching.

(** *** What a call reads, and which parse it uses *)

Lemma read_file_content fs q m :
  fst (_read_file fs q m) = content_for fs m q /\
  _file_cache (snd (_read_file fs q m)) !! q = Some (content_for fs m q) /\
  _parse_cache (snd (_read_file fs q m)) = _parse_cache m.
Proof.
  unfold _read_file, content_for.
  destruct (_file_cache m !! q) as [c|] eqn:Hc; simpl; [done|].
  by rewrite lookup_insert_eq.
Qed.

Lemma parse_file_keeps_parses parse fs q m :
  keeps_parses m (snd (_parse_file parse fs q m)).
Proof.
  unfold _parse_file.
  destruct (read_file_content fs q m) as (_ & _ & Hp).
  destruct (_read_file fs q m) as [content m1]. simpl in Hp.
  destruct (_parse_cache m1 !! q) eqn:Ht; unfold keeps_parses; simpl;
    intros r tree Hr.
  - by rewrite Hp.
  - destruct (decide (q = r)) as [<-|Hne].
    + rewrite <- Hp in Hr. congruence.
    + rewrite lookup_insert_ne by done. by rewrite Hp.
Qed.

(** [get_nearby_code_context] caches the content it reads and, for a file
    that is not empty, the tree it uses: the cached tree of the path when
    there is one, and the parse of the content otherwise. *)
Lemma nearby_reads parse fs p l w m :
  let q := _resolve_path m p in
  let m' := snd (get_nearby_code_context parse fs p l w m) in
  _file_cache m' !! q = Some (content_for fs m q) /\
  keeps_parses m m' /\
  (content_for fs m q <> "" ->
   _parse_cache m' !! q
   = Some match _parse_cache m !! q with
          | Some tree => tree
          | None => parse (content_for fs m q)
          end).
Proof.
  cbv zeta. unfold get_nearby_code_context.
  destruct (read_file_content fs (_resolve_path m p) m) as (Hc & Hf & Hp).
  destruct (_read_file fs (_resolve_path m p) m) as [content m1].
  simpl in Hc, Hf, Hp. subst content.
  destruct (String.eqb _ "") eqn:Hempty.
  { apply String.eqb_eq in Hempty. simpl. split; [done|]. split; [|done].
    intros r tree. by rewrite Hp. }
  assert (keeps_parses m m1) as Hk1 by (intros r tree; by rewrite Hp).
  pose proof (parse_file_keeps_parses parse fs (_resolve_path m p) m1) as Hk2.
  assert (_file_cache (snd (_parse_file parse fs (_resolve_path m p) m1))
            !! _resolve_path m p = Some (content_for fs m (_resolve_path m p))
          /\ _parse_cache (snd (_parse_file parse fs (_resolve_path m p) m1))
               !! _resolve_path m p
             = Some match _parse_cache m !! _resolve_path m p with
                    | Some tree => tree
                    | None => parse (content_for fs m (_resolve_path m p))
                    end) as [Hf2 Hp2].
  { unfold _parse_file. rewrite (read_file_cached _ _ _ _ Hf).
    rewrite Hp. destruct (_parse_cache m !! _resolve_path m p) eqn:Ht; simpl.
    - by rewrite Hp.
    - by rewrite lookup_insert_eq. }
  destruct (_parse_file parse fs (_resolve_path m p) m1) as [tree m2].
  simpl in Hk2, Hf2, Hp2.
  assert (keeps_parses m m2) as Hk by (intros r t Hr; by apply Hk2, Hk1).
  destruct (enclosing_node tree l "function_definition") as [f|]; [|done].
  destruct (node_lines f) as [a b]. by destruct (_ <=? _)%Z.
Qed.

(** With the parse of the path cached, [get_nearby_code_context] depends
    neither on the parser nor on the reader. *)
Lemma nearby_uses_cached_parse parse parse1 parse2 fs1 fs2 p l w m :
  caches_consistent parse m ->
  is_Some (_parse_cache m !! _resolve_path m p) ->
  get_nearby_code_context parse1 fs1 p l w m
  = get_nearby_code_context parse2 fs2 p l w m.
Proof.
  intros Hc [tree Ht]. destruct (Hc _ _ Ht) as (content & Hf & _).
  unfold get_nearby_code_context. rewrite !(read_file_cached _ _ _ _ Hf).
  destruct (String.eqb content ""); [done|].
  unfold _parse_file. rewrite !(read_file_cached _ _ _ _ Hf). by rewrite Ht.
Qed.

Lemma code_lines_reads fs p s e m :
  let q := _resolve_path m p in
  let m' := snd (get_code_lines fs p s e m) in
  _file_cache m' !! q = Some (content_for fs m q) /\
  _parse_cache m' = _parse_cache m.
Proof.
  cbv zeta. unfold get_code_lines.
  destruct (read_file_content fs (_resolve_path m p) m) as (Hc & Hf & Hp).
  destruct (_read_file fs (_resolve_path m p) m) as [content m1].
  simpl in Hc, Hf, Hp. by destruct (String.eqb content "").
Qed.

Lemma extends_by_refl fs m : extends_by fs m m.
Proof. by split. Qed.

Lemma extends_by_trans fs m1 m2 m3 :
  extends_by fs m1 m2 -> extends_by fs m2 m3 -> extends_by fs m1 m3.
Proof. intros [H1 H2] [H3 H4]. split; [congruence|]. intros q. by rewrite H4. Qed.

Lemma read_file_extends fs q m0 m :
  extends_by fs m0 m ->
  fst (_read_file fs q m) = content_for fs m0 q /\
  extends_by fs m0 (snd (_read_file fs q m)).
Proof.
  intros [Hcwd Hsame]. pose proof (Hsame q) as Hq.
  unfold _read_file, content_for in *.
  destruct (_file_cache m !! q) as [c|] eqn:Hc; simpl.
  - split; [done|]. by split.
  - split; [done|]. split; [done|]. intros r. unfold content_for. simpl.
    destruct (decide (q = r)) as [<-|Hne].
    + by rewrite lookup_insert_eq.
    + rewrite lookup_insert_ne by done. apply Hsame.
Qed.

(** [render] reads the file of every chunk, and it neither consults nor
    fills the parse cache. *)
Lemma render_file_frame parse fs trees sections m entry :
  let r := render_file parse fs (sections, m) entry in
  render_file parse fs (sections, with_parse_cache trees m) entry
  = (fst r, with_parse_cache trees (snd r)) /\
  _parse_cache (snd r) = _parse_cache m /\
  extends_by fs m (snd r) /\
  keeps_cache m (snd r) /\
  _file_cache (snd r) !! _resolve_path m (fst entry)
  = Some (content_for fs m (_resolve_path m (fst entry))).
Proof.
  cbv zeta. destruct entry as [p cs]. unfold render_file.
  change (_resolve_path (with_parse_cache trees m) p) with (_resolve_path m p).
  destruct (read_file_content fs (_resolve_path m p) m) as (Hc & Hf & Hp).
  pose proof (read_file_step parse fs (_resolve_path m p) m) as (Hk & _).
  destruct (read_file_extends fs (_resolve_path m p) m m (extends_by_refl fs m))
    as [_ He].
  assert (_read_file fs (_resolve_path m p) (with_parse_cache trees m)
          = (fst (_read_file fs (_resolve_path m p) m),
             with_parse_cache trees (snd (_read_file fs (_resolve_path m p) m))))
    as ->.
  { unfold _read_file, with_parse_cache. simpl.
    by destruct (_file_cache m !! _resolve_path m p). }
  destruct (_read_file fs (_resolve_path m p) m) as [content m1].
  simpl in *.
  destruct (splitlines content); [done|].
  by destruct (_collect_needed_lines parse cs content).
Qed.

Lemma render_files_frame parse fs trees entries sections m :
  let r := fold_left (render_file parse fs) entries (sections, m) in
  fold_left (render_file parse fs) entries (sections, with_parse_cache trees m)
  = (fst r, with_parse_cache trees (snd r)) /\
  _parse_cache (snd r) = _parse_cache m /\
  extends_by fs m (snd r) /\
  keeps_cache m (snd r) /\
  forall entry, In entry entries ->
    _file_cache (snd r) !! _resolve_path m (fst entry)
    = Some (content_for fs m (_resolve_path m (fst entry))).
Proof.
  cbv zeta. revert sections m.
  induction entries as [|entry entries IH]; intros sections m.
  { simpl. split_and!; try done. by intros p c. }
  cbn [fold_left].
  destruct (render_file_frame parse fs trees sections m entry)
    as (H1 & H2 & H3 & H4 & H5).
  rewrite H1.
  destruct (render_file parse fs (sections, m) entry) as [sections1 m1].
  simpl in H2, H3, H4, H5. cbn [fst snd].
  destruct (IH sections1 m1) as (I1 & I2 & I3 & I4 & I5).
  split_and!; [done|congruence|by eapply extends_by_trans| |].
  - intros q c Hq. by apply I4, H4.
  - intros e [<-|He].
    + by apply I4.
    + destruct H3 as [Hcwd Hsame].
      assert (_resolve_path m1 (fst e) = _resolve_path m (fst e)) as Hr
        by (unfold _resolve_path; by rewrite Hcwd).
      rewrite <- Hsame, <- Hr. by apply I5.
Qed.

(** *** [sorted(set(l))] is canonical *)

Lemma insert_sorted_In x y l : In y (insert_sorted x l) <-> y = x \/ In y l.
Proof.
  induction l as [|z l IH]; simpl; [naive_solver|].
  destruct (x <? z)%Z eqn:H1; [simpl; naive_solver|].
  destruct (x =? z)%Z eqn:H2.
  - apply Z.eqb_eq in H2. subst. simpl. naive_solver.
  - simpl. rewrite IH. naive_solver.
Qed.

Lemma insert_sorted_sorted x l :
  StronglySorted Z.lt l -> StronglySorted Z.lt (insert_sorted x l).
Proof.
  induction 1 as [|z l Hl IH Hz]; simpl; [repeat constructor|].
  destruct (x <? z)%Z eqn:H1.
  - apply Z.ltb_lt in H1. constructor; [by constructor|].
    constructor; [done|]. eapply Forall_impl; [exact Hz|]. simpl. lia.
  - destruct (x =? z)%Z eqn:H2; [by constructor|].
    apply Z.ltb_ge in H1. apply Z.eqb_neq in H2.
    constructor; [done|]. apply Forall_forall. intros y Hy.
    apply list_elem_of_In, insert_sorted_In in Hy as [->|Hy]; [lia|].
    rewrite Forall_forall in Hz. by apply Hz, list_elem_of_In.
Qed.

Lemma sorted_set_In x l : In x (sorted_set l) <-> In x l.
Proof.
  induction l as [|y l IH]; simpl; [done|].
  rewrite insert_sorted_In, IH. naive_solver.
Qed.

Lemma sorted_set_sorted l : StronglySorted Z.lt (sorted_set l).
Proof.
  induction l as [|y l IH]; simpl; [constructor|]. by apply insert_sorted_sorted.
Qed.

Lemma strictly_sorted_unique (l1 l2 : list Z) :
  StronglySorted Z.lt l1 -> StronglySorted Z.lt l2 ->
  (forall x, In x l1 <-> In x l2) -> l1 = l2.
Proof.
  intros H1. revert l2. induction H1 as [|a l1 Hs1 IH Ha]; intros l2 H2 Heq.
  - destruct l2 as [|b l2]; [done|]. destruct (proj2 (Heq b)); by left.
  - destruct H2 as [|b l2 Hs2 Hb].
    { destruct (proj1 (Heq a)); by left. }
    rewrite Forall_forall in Ha, Hb.
    assert (a = b) as <-.
    { destruct (proj1 (Heq a) (or_introl eq_refl)) as [->|Hin]; [done|].
      destruct (proj2 (Heq b) (or_introl eq_refl)) as [->|Hin']; [done|].
      apply list_elem_of_In, Hb in Hin. apply list_elem_of_In, Ha in Hin'. lia. }
    f_equal. apply IH; [done|]. intros x. split; intros Hx.
    + destruct (proj1 (Heq x) (or_intror Hx)) as [<-|?]; [|done].
      apply list_elem_of_In, Ha in Hx. lia.
    + destruct (proj2 (Heq x) (or_intror Hx)) as [<-|?]; [|done].
      apply list_elem_of_In, Hb in Hx. lia.
Qed.

Lemma sorted_set_ext l1 l2 :
  (forall x, In x l1 <-> In x l2) -> sorted_set l1 = sorted_set l2.
Proof.
  intros H. apply strictly_sorted_unique; try apply sorted_set_sorted.
  intros x. by rewrite !sorted_set_In.
Qed.

(** *** Merging is invariant under permutations *)

Lemma same_key_true a b :
  same_key a b = true <->
  file_path a = file_path b /\ class_name a = class_name b /\
  function a = function b.
Proof.
  unfold same_key. rewrite !andb_true_iff, !String.eqb_eq. naive_solver.
Qed.

Lemma same_key_sym a b : same_key a b = same_key b a.
Proof.
  unfold same_key.
  by rewrite (String.eqb_sym (file_path a)), (String.eqb_sym (class_name a)),
    (String.eqb_sym (function a)).
Qed.

Lemma same_key_trans a b c :
  same_key a b = true -> same_key a c = same_key b c.
Proof.
  intros (H1 & H2 & H3)%same_key_true. unfold same_key. by rewrite H1, H2, H3.
Qed.

Lemma merge_into_nil c : merge_into c [] = [fresh_entry c].
Proof. done. Qed.

Lemma merge_into_cons c e rest :
  merge_into c (e :: rest) =
  if same_key e c then merged_with e c :: rest else e :: merge_into c rest.
Proof. done. Qed.

Lemma same_key_merged_with e c x : same_key (merged_with e c) x = same_key e x.
Proof. done. Qed.

Lemma same_key_fresh c x : same_key (fresh_entry c) x = same_key c x.
Proof. done. Qed.

Lemma merged_with_comm e x y :
  merged_with (merged_with e x) y = merged_with (merged_with e y) x.
Proof.
  unfold merged_with; simpl. f_equal.
  - by rewrite <- !orb_assoc, (orb_comm (whole_function x)).
  - apply sorted_set_ext. intros z.
    rewrite !in_app_iff, !sorted_set_In, !in_app_iff. naive_solver.
  - by rewrite <- !orb_assoc, (orb_comm (eof x)).
Qed.

Lemma merged_with_fresh_comm x y :
  same_key x y = true ->
  merged_with (fresh_entry x) y = merged_with (fresh_entry y) x.
Proof.
  intros (H1 & H2 & H3)%same_key_true. unfold merged_with, fresh_entry; simpl.
  rewrite H1, H2, H3. f_equal.
  - apply orb_comm.
  - apply sorted_set_ext. intros z.
    rewrite !in_app_iff, !sorted_set_In. naive_solver.
  - apply orb_comm.
Qed.

Lemma merge_into_comm x y acc :
  Permutation (merge_into y (merge_into x acc)) (merge_into x (merge_into y acc)).
Proof.
  induction acc as [|e acc IH].
  - rewrite !merge_into_nil, !merge_into_cons, !same_key_fresh,
      (same_key_sym y x).
    destruct (same_key x y) eqn:Hxy.
    + by rewrite merged_with_fresh_comm.
    + rewrite !merge_into_nil. apply perm_swap.
  - rewrite !merge_into_cons.
    destruct (same_key e x) eqn:Hex, (same_key e y) eqn:Hey;
      rewrite !merge_into_cons, ?same_key_merged_with, ?Hex, ?Hey.
    + by rewrite merged_with_comm.
    + done.
    + done.
    + by constructor.
Qed.

Lemma same_key_key_of a b : same_key a b = true <-> key_of a = key_of b.
Proof.
  rewrite same_key_true. unfold key_of. split.
  - by intros (-> & -> & ->).
  - by intros [= -> -> ->].
Qed.

Lemma merge_into_keys c acc :
  map key_of (merge_into c acc) =
  if existsb (fun e => same_key e c) acc then map key_of acc
  else map key_of acc ++ [key_of c].
Proof.
  induction acc as [|e acc IH]; [done|]. rewrite merge_into_cons. simpl.
  destruct (same_key e c); simpl; [done|]. rewrite IH.
  by destruct (existsb _ acc).
Qed.

Lemma merge_into_nodup c acc :
  NoDup (map key_of acc) -> NoDup (map key_of (merge_into c acc)).
Proof.
  intros Hnd. rewrite merge_into_keys.
  destruct (existsb (fun e => same_key e c) acc) eqn:Hex; [done|].
  apply NoDup_app. split_and!; [done| |apply NoDup_singleton].
  intros k Hk ->%list_elem_of_singleton.
  apply list_elem_of_In, in_map_iff in Hk as (e & Hke & He).
  assert (existsb (fun e => same_key e c) acc = true); [|congruence].
  apply existsb_exists. exists e. split; [done|]. by apply same_key_key_of.
Qed.

Lemma merge_into_perm c acc acc' :
  NoDup (map key_of acc) -> Permutation acc acc' ->
  Permutation (merge_into c acc) (merge_into c acc').
Proof.
  intros Hnd Hp. induction Hp as [|e l l' Hp IH|e1 e2 l|l l' l'' Hp1 IH1 Hp2 IH2].
  - done.
  - rewrite !merge_into_cons. destruct (same_key e c); constructor; [done|].
    apply IH. simpl in Hnd. by apply NoDup_cons in Hnd as [_ ?].
  - rewrite !merge_into_cons.
    destruct (same_key e1 c) eqn:H1, (same_key e2 c) eqn:H2;
      rewrite ?merge_into_cons, ?H1, ?H2; try apply perm_swap.
    exfalso. simpl in Hnd. apply NoDup_cons in Hnd as [Hnot _].
    apply Hnot. apply same_key_key_of in H1, H2.
    replace (key_of e1) with (key_of e2) by congruence. by left.
  - etrans; [by apply IH1|]. apply IH2.
    assert (map key_of l ≡ₚ map key_of l') as Hmap by (by apply Permutation_map).
    by rewrite <- Hmap.
Qed.

Lemma merge_fold_nodup l acc :
  NoDup (map key_of acc) ->
  NoDup (map key_of (fold_left (fun by_key chunk => merge_into chunk by_key) l acc)).
Proof.
  revert acc. induction l as [|c l IH]; intros acc Hnd; simpl; [done|].
  by apply IH, merge_into_nodup.
Qed.

Lemma merge_fold_perm_acc l acc acc' :
  NoDup (map key_of acc) -> Permutation acc acc' ->
  Permutation (fold_left (fun by_key chunk => merge_into chunk by_key) l acc)
              (fold_left (fun by_key chunk => merge_into chunk by_key) l acc').
Proof.
  revert acc acc'. induction l as [|c l IH]; intros acc acc' Hnd Hp; simpl; [done|].
  apply IH; [by apply merge_into_nodup|by apply merge_into_perm].
Qed.

Lemma merge_fold_perm l l' acc :
  NoDup (map key_of acc) -> Permutation l l' ->
  Permutation (fold_left (fun by_key chunk => merge_into chunk by_key) l acc)
              (fold_left (fun by_key chunk => merge_into chunk by_key) l' acc).
Proof.
  intros Hnd Hp. revert acc Hnd.
  induction Hp as [|c l l' Hp IH|c1 c2 l|l l' l'' Hp1 IH1 Hp2 IH2];
    intros acc Hnd; simpl.
  - done.
  - by apply IH, merge_into_nodup.
  - apply merge_fold_perm_acc; [by do 2 apply merge_into_nodup|].
    apply merge_into_comm.
  - etrans; [by apply IH1|by apply IH2].
Qed.

Lemma merge_chunks_perm chunks chunks' :
  Permutation chunks chunks' ->
  Permutation (_merge_chunks chunks) (_merge_chunks chunks').
Proof. apply merge_fold_perm. constructor. Qed.

(** *** Grouping by file *)

Lemma existsb_eqb_In x l : existsb (String.eqb x) l = true <-> In x l.
Proof.
  rewrite existsb_exists. split.
  - by intros (y & Hy & ->%String.eqb_eq).
  - intros H. exists x. by rewrite String.eqb_refl.
Qed.

Lemma first_occurrences_In x l : In x (first_occurrences l) <-> In x l.
Proof.
  induction l as [|y l IH]; simpl; [done|].
  rewrite filter_In, IH, negb_true_iff, String.eqb_neq.
  destruct (decide (y = x)); naive_solver.
Qed.

Lemma first_occurrences_NoDup l : NoDup (first_occurrences l).
Proof.
  induction l as [|y l IH]; simpl; constructor.
  - intros Hin. apply list_elem_of_In, filter_In in Hin as [_ Hne].
    by rewrite String.eqb_refl in Hne.
  - apply NoDup_ListNoDup, List.NoDup_filter. by apply NoDup_ListNoDup.
Qed.

Lemma first_occurrences_snoc l x :
  first_occurrences (l ++ [x]) =
  first_occurrences l ++ (if existsb (String.eqb x) l then [] else [x]).
Proof.
  induction l as [|y l IH]; simpl; [done|]. rewrite IH, List.filter_app.
  f_equal. f_equal. rewrite (String.eqb_sym x y).
  destruct (String.eqb y x) eqn:Hyx; simpl;
    (destruct (existsb _ l); simpl; [done|]);
    by rewrite String.eqb_sym, Hyx.
Qed.

Lemma chunks_of_file_snoc l c p :
  chunks_of_file (l ++ [c]) p =
  chunks_of_file l p ++ (if String.eqb p (file_path c) then [c] else []).
Proof.
  unfold chunks_of_file. rewrite List.filter_app. simpl.
  by destruct (String.eqb p (file_path c)).
Qed.

Lemma group_into_cons c p cs rest :
  group_into c ((p, cs) :: rest) =
  if String.eqb p (file_path c) then (p, cs ++ [c]) :: rest
  else (p, cs) :: group_into c rest.
Proof. done. Qed.

Lemma group_into_entries c l K :
  NoDup K ->
  group_into c (map (file_entry l) K) =
  map (file_entry (l ++ [c])) K
  ++ (if existsb (String.eqb (file_path c)) K then []
      else [(file_path c, [c])]).
Proof.
  induction K as [|p K IH]; intros Hnd; [done|].
  apply NoDup_cons in Hnd as [Hp Hnd].
  change (map (file_entry l) (p :: K))
    with ((p, chunks_of_file l p) :: map (file_entry l) K).
  change (map (file_entry (l ++ [c])) (p :: K))
    with ((p, chunks_of_file (l ++ [c]) p) :: map (file_entry (l ++ [c])) K).
  change (existsb (String.eqb (file_path c)) (p :: K))
    with (String.eqb (file_path c) p || existsb (String.eqb (file_path c)) K).
  rewrite group_into_cons, chunks_of_file_snoc, (String.eqb_sym (file_path c) p).
  destruct (String.eqb p (file_path c)) eqn:Hpc.
  - apply String.eqb_eq in Hpc. subst p.
    rewrite orb_true_l, app_nil_r. f_equal.
    apply map_ext_in. intros q Hq. unfold file_entry.
    rewrite chunks_of_file_snoc.
    destruct (String.eqb q (file_path c)) eqn:Hqc; [|by rewrite app_nil_r].
    apply String.eqb_eq in Hqc. subst q. by apply list_elem_of_In in Hq.
  - rewrite orb_false_l, app_nil_r, (IH Hnd). done.
Qed.

Lemma filter_none {A} (p : A -> bool) l :
  (forall x, In x l -> p x = false) -> List.filter p l = [].
Proof.
  induction l as [|y l IH]; intros H; simpl; [done|].
  rewrite (H y) by (by left). apply IH. intros x Hx. apply H. by right.
Qed.

Lemma group_by_file_spec l :
  group_by_file l = map (file_entry l) (file_order l).
Proof.
  induction l as [|c l IH] using rev_ind; [done|].
  unfold group_by_file, file_order in *. rewrite fold_left_app.
  cbn [fold_left]. rewrite IH.
  rewrite group_into_entries by apply first_occurrences_NoDup.
  rewrite (map_app file_path). cbn [map].
  rewrite first_occurrences_snoc, (map_app (file_entry (l ++ [c]))). f_equal.
  assert (existsb (String.eqb (file_path c)) (first_occurrences (map file_path l))
          = existsb (String.eqb (file_path c)) (map file_path l)) as Hex.
  { apply eq_true_iff_eq. by rewrite !existsb_eqb_In, first_occurrences_In. }
  rewrite Hex.
  destruct (existsb (String.eqb (file_path c)) (map file_path l)) eqn:Hin; [done|].
  cbn [map]. unfold file_entry. rewrite chunks_of_file_snoc, String.eqb_refl.
  assert (chunks_of_file l (file_path c) = []) as ->; [|done].
  unfold chunks_of_file. apply filter_none.
  intros x Hx. apply not_true_is_false. intros Heq%String.eqb_eq.
  assert (existsb (String.eqb (file_path c)) (map file_path l) = true);
    [|congruence].
  apply existsb_eqb_In, in_map_iff. eauto.
Qed.

Lemma merge_into_files c acc :
  map file_path (merge_into c acc) =
  if existsb (fun e => same_key e c) acc then map file_path acc
  else map file_path acc ++ [file_path c].
Proof.
  induction acc as [|e acc IH]; [done|]. rewrite merge_into_cons. simpl.
  destruct (same_key e c); simpl; [done|]. rewrite IH.
  by destruct (existsb _ acc).
Qed.

Lemma merge_chunks_files chunks :
  file_order (_merge_chunks chunks) = file_order chunks /\
  forall p, In p (map file_path (_merge_chunks chunks)) <->
            In p (map file_path chunks).
Proof.
  induction chunks as [|c l [IH1 IH2]] using rev_ind; [done|].
  unfold _merge_chunks, file_order in *. rewrite fold_left_app. simpl.
  rewrite merge_into_files, map_app. simpl.
  set (acc := fold_left _ l []) in *.
  assert (existsb (String.eqb (file_path c)) (map file_path acc)
          = existsb (String.eqb (file_path c)) (map file_path l)) as Hex.
  { apply eq_true_iff_eq. by rewrite !existsb_eqb_In. }
  destruct (existsb (fun e => same_key e c) acc) eqn:Hk.
  - apply existsb_exists in Hk as (e & He & (Hf & _)%same_key_true).
    assert (In (file_path c) (map file_path l)) as Hin.
    { apply IH2, in_map_iff. eauto. }
    split.
    + rewrite first_occurrences_snoc, IH1.
      rewrite (proj2 (existsb_eqb_In _ _) Hin). by rewrite app_nil_r.
    + intros p. rewrite in_app_iff, IH2. simpl. naive_solver.
  - split.
    + by rewrite !first_occurrences_snoc, IH1, Hex.
    + intros p. rewrite !in_app_iff, IH2. done.
Qed.

(** *** Rendering one file *)

Section RenderFacts.

Variable parse_python : string -> ts_node.

Lemma needs_fold_In (f : CodeChunk -> list Z) cs acc x :
  In x (fold_left (fun needed chunk => needed ++ f chunk) cs acc) <->
  In x acc \/ exists c, In c cs /\ In x (f c).
Proof.
  revert acc. induction cs as [|c cs IH]; intros acc; simpl; [naive_solver|].
  rewrite IH, in_app_iff. naive_solver.
Qed.

Lemma collect_needed_perm cs cs' content x :
  Permutation cs cs' ->
  In x (_collect_needed_lines parse_python cs content) <->
  In x (_collect_needed_lines parse_python cs' content).
Proof.
  intros Hp. unfold _collect_needed_lines.
  destruct (_build_signature_map (parse_python content)) as [sig_map range_map].
  rewrite !needs_fold_In. simpl.
  split; intros [[]|(c & Hc & Hx)]; right; exists c; split; try done.
  - by apply (Permutation_in _ Hp).
  - by apply (Permutation_in _ (Permutation_sym Hp)).
Qed.

Lemma render_file_perm fs st p cs cs' :
  Permutation cs cs' ->
  render_file parse_python fs st (p, cs) = render_file parse_python fs st (p, cs').
Proof.
  intros Hp. destruct st as [sections m]. unfold render_file.
  destruct (_read_file fs (_resolve_path m p) m) as [content m1].
  destruct (splitlines content) as [|ln lns]; [done|].
  pose proof (fun x => collect_needed_perm cs cs' content x Hp) as Hsame.
  assert (sorted_set (_collect_needed_lines parse_python cs content)
          = sorted_set (_collect_needed_lines parse_python cs' content)) as Hs
    by (by apply sorted_set_ext).
  assert (existsb eof cs = existsb eof cs') as He.
  { apply eq_true_iff_eq. rewrite !existsb_exists.
    split; intros (c & Hc & Hce); exists c; split; try done.
    - by apply (Permutation_in _ Hp).
    - by apply (Permutation_in _ (Permutation_sym Hp)). }
  destruct (_collect_needed_lines parse_python cs content) as [|a l] eqn:H1,
           (_collect_needed_lines parse_python cs' content) as [|a' l'] eqn:H2.
  - done.
  - destruct (proj2 (Hsame a')). by left.
  - destruct (proj1 (Hsame a)). by left.
  - by rewrite Hs, He.
Qed.

Lemma render_files_perm fs l l' K st :
  Permutation l l' ->
  fold_left (render_file parse_python fs) (map (file_entry l) K) st
  = fold_left (render_file parse_python fs) (map (file_entry l') K) st.
Proof.
  intros Hp. revert st. induction K as [|p K IH]; intros st; [done|].
  cbn [map fold_left].
  change (file_entry l p) with (p, chunks_of_file l p).
  change (file_entry l' p) with (p, chunks_of_file l' p).
  rewrite (render_file_perm fs st p (chunks_of_file l p) (chunks_of_file l' p)).
  - apply IH.
  - unfold chunks_of_file. clear -Hp.
    induction Hp as [|x l l' Hp IH|x y l|l l' l'' Hp1 IH1 Hp2 IH2]; simpl.
    + done.
    + destruct (String.eqb p (file_path x)); [by constructor|done].
    + destruct (String.eqb p (file_path x)), (String.eqb p (file_path y));
        try done. apply perm_swap.
    + by etrans.
Qed.

(** *** The sections of the text *)

Definition section_list (o : option string) : list string :=
  match o with Some x => [x] | None => [] end.

Lemma render_file_section fs m0 sections m entry :
  extends_by fs m0 m ->
  fst (render_file parse_python fs (sections, m) entry)
  = sections ++ section_list (file_section parse_python fs m0 entry) /\
  extends_by fs m0 (snd (render_file parse_python fs (sections, m) entry)).
Proof.
  intros Hext. destruct entry as [p cs]. unfold render_file, file_section.
  pose proof Hext as [Hcwd _].
  assert (_resolve_path m p = _resolve_path m0 p) as ->
    by (unfold _resolve_path; by rewrite Hcwd).
  destruct (read_file_extends fs (_resolve_path m0 p) m0 m Hext) as [Hc He].
  destruct (_read_file fs (_resolve_path m0 p) m) as [content m1].
  simpl in Hc, He. subst content.
  destruct (splitlines _) as [|ln lns] eqn:Hl; simpl.
  { by rewrite app_nil_r. }
  destruct (_collect_needed_lines _ _ _) as [|n ns] eqn:Hn; simpl.
  { by rewrite app_nil_r. }
  done.
Qed.

Lemma render_files_sections fs m0 entries st :
  extends_by fs m0 (snd st) ->
  fst (fold_left (render_file parse_python fs) entries st)
  = fst st ++ omap (file_section parse_python fs m0) entries.
Proof.
  revert st. induction entries as [|entry entries IH]; intros [sections m] Hext.
  { simpl. by rewrite app_nil_r. }
  cbn [fold_left]. simpl in Hext.
  destruct (render_file_section fs m0 sections m entry Hext) as [Hs He].
  destruct (render_file parse_python fs (sections, m) entry) as [sections1 m1].
  simpl in Hs, He. rewrite IH by done. cbn [fst]. rewrite Hs, <- app_assoc.
  f_equal. cbn [omap list_omap].
  by destruct (file_section parse_python fs m0 entry).
Qed.

(** The text of [render] is made of the sections of the files, in the order
    in which the file paths first occur in the list of chunks. *)
Lemma render_sections fs chunks m :
  fst (render parse_python fs chunks m)
  = join (newline ++ newline)
      (omap (file_section parse_python fs m)
         (map (file_entry (_merge_chunks chunks)) (file_order chunks))).
Proof.
  unfold render. destruct (merge_chunks_files chunks) as [Ho _].
  rewrite <- Ho, <- group_by_file_spec.
  destruct (_merge_chunks chunks) as [|c l] eqn:Hm; [done|].
  pose proof (render_files_sections fs m (group_by_file (c :: l)) ([], m)
                (extends_by_refl fs m)) as Hs.
  destruct (fold_left _ _ _) as [sections m1]. simpl in Hs. by rewrite Hs.
Qed.

Lemma file_section_perm fs m p cs cs' :
  Permutation cs cs' ->
  file_section parse_python fs m (p, cs) = file_section parse_python fs m (p, cs').
Proof.
  intros Hp. unfold file_section.
  destruct (splitlines _) as [|ln lns]; [done|].
  set (content := content_for fs m (_resolve_path m p)).
  pose proof (fun x => collect_needed_perm cs cs' content x Hp) as Hsame.
  assert (sorted_set (_collect_needed_lines parse_python cs content)
          = sorted_set (_collect_needed_lines parse_python cs' content)) as Hs
    by (by apply sorted_set_ext).
  assert (existsb eof cs = existsb eof cs') as He.
  { apply eq_true_iff_eq. rewrite !existsb_exists.
    split; intros (c & Hc & Hce); exists c; split; try done.
    - by apply (Permutation_in _ Hp).
    - by apply (Permutation_in _ (Permutation_sym Hp)). }
  destruct (_collect_needed_lines parse_python cs content) as [|a l] eqn:H1,
           (_collect_needed_lines parse_python cs' content) as [|a' l'] eqn:H2.
  - done.
  - destruct (proj2 (Hsame a')). by left.
  - destruct (proj1 (Hsame a)). by left.
  - by rewrite Hs, He.
Qed.

Lemma chunks_of_file_perm l l' p :
  Permutation l l' -> Permutation (chunks_of_file l p) (chunks_of_file l' p).
Proof.
  unfold chunks_of_file.
  induction 1 as [|x l l' Hp IH|x y l|l l' l'' Hp1 IH1 Hp2 IH2]; simpl.
  - done.
  - destruct (String.eqb p (file_path x)); [by constructor|done].
  - destruct (String.eqb p (file_path x)), (String.eqb p (file_path y));
      try done. apply perm_swap.
  - by etrans.
Qed.

(** C3 (amended).  For two lists of chunks that are permutations of each
    other:
    - the section of every file is the same for both lists: within a file
      the text depends on the merged chunks only as a set;
    - the text of [render] is made of the sections of the files that have
      lines to show, in the order in which the file paths first occur in
      the list it is given;
    - so when the file paths first occur in the same order in both lists,
      which every permutation of chunks of one file satisfies, [render]
      gives the same text and leaves the manager in the same state. *)
Theorem render_permutation fs chunks chunks' m :
  Permutation chunks chunks' ->
  (forall p,
     file_section parse_python fs m (file_entry (_merge_chunks chunks) p)
     = file_section parse_python fs m (file_entry (_merge_chunks chunks') p)) /\
  fst (render parse_python fs chunks m)
  = join (newline ++ newline)
      (omap (file_section parse_python fs m)
         (map (file_entry (_merge_chunks chunks)) (file_order chunks))) /\
  fst (render parse_python fs chunks' m)
  = join (newline ++ newline)
      (omap (file_section parse_python fs m)
         (map (file_entry (_merge_chunks chunks)) (file_order chunks'))) /\
  (file_order chunks = file_order chunks' ->
   render parse_python fs chunks m = render parse_python fs chunks' m).
Proof.
  intros Hp.
  pose proof (merge_chunks_perm _ _ Hp) as Hm.
  assert (forall p,
            file_section parse_python fs m (file_entry (_merge_chunks chunks) p)
            = file_section parse_python fs m
                (file_entry (_merge_chunks chunks') p)) as Hsec.
  { intros p. unfold file_entry. by apply file_section_perm, chunks_of_file_perm. }
  split; [exact Hsec|]. split; [apply render_sections|]. split.
  - rewrite render_sections. f_equal.
    induction (file_order chunks') as [|p K IH]; [done|].
    cbn [map omap list_omap]. by rewrite Hsec, IH.
  - intros Hord. unfold render.
    destruct (merge_chunks_files chunks) as [Ho1 _].
    destruct (merge_chunks_files chunks') as [Ho2 _].
    destruct (_merge_chunks chunks) as [|c l] eqn:H1,
             (_merge_chunks chunks') as [|c' l'] eqn:H2.
    + done.
    + by apply Permutation_nil_l in Hm.
    + by apply Permutation_nil_r in Hm.
    + rewrite !group_by_file_spec, Ho1, Ho2, Hord.
      by rewrite (render_files_perm fs (c :: l) (c' :: l') _ _ Hm).
Qed.

End RenderFacts.

(** C3, as stated, fails on the code: swapping two chunks of different files
    swaps the two sections of the output. *)
Lemma render_depends_on_file_order :
  Permutation [chunk_a; chunk_b] [chunk_b; chunk_a] /\
  fst (render (fun _ => one_line_tree) (fun _ => one_line) [chunk_a; chunk_b]
         (new_manager ""))
  = ("## File: `a.py`" ++ newline ++ " 1 x = 1" ++ newline ++ newline
     ++ "## File: `b.py`" ++ newline ++ " 1 x = 1")%string /\
  fst (render (fun _ => one_line_tree) (fun _ => one_line) [chunk_b; chunk_a]
         (new_manager ""))
  = ("## File: `b.py`" ++ newline ++ " 1 x = 1" ++ newline ++ newline
     ++ "## File: `a.py`" ++ newline ++ " 1 x = 1")%string /\
  fst (render (fun _ => one_line_tree) (fun _ => one_line) [chunk_a; chunk_b]
         (new_manager ""))
  <> fst (render (fun _ => one_line_tree) (fun _ => one_line) [chunk_b; chunk_a]
            (new_manager "")).
Proof.
  split; [apply perm_swap|]. split; [by vm_compute|]. split; [by vm_compute|].
  vm_compute. discriminate.
Qed.

Lemma render_permutation_witness :
  let parse := fun _ : string => one_line_tree in
  let fs := fun _ : string => one_line in
  let chunks := [chunk_a; chunk_a2; chunk_b] in
  let chunks' := [chunk_a2; chunk_a; chunk_b] in
  let m := new_manager "" in
  (forall p,
     file_section parse fs m (file_entry (_merge_chunks chunks) p)
     = file_section parse fs m (file_entry (_merge_chunks chunks') p)) /\
  fst (render parse fs chunks m)
  = join (newline ++ newline)
      (omap (file_section parse fs m)
         (map (file_entry (_merge_chunks chunks)) (file_order chunks))) /\
  fst (render parse fs chunks' m)
  = join (newline ++ newline)
      (omap (file_section parse fs m)
         (map (file_entry (_merge_chunks chunks)) (file_order chunks'))) /\
  (file_order chunks = file_order chunks' ->
   render parse fs chunks m = render parse fs chunks' m).
Proof.
  apply (render_permutation (fun _ => one_line_tree) (fun _ => one_line)
           [chunk_a; chunk_a2; chunk_b] [chunk_a2; chunk_a; chunk_b]
           (new_manager "")).
  apply perm_swap.
Defined.

(** ** Further properties of the code context manager *)


(** [get_code_lines]: the chunk carries the path as given and no class or
    function; the parse cache is not touched; for an empty file the chunk has
    no lines and no [eof], whatever [end] is; otherwise the lines are the
    integers from [max(1, start)] to [min(end, total)] in ascending order
    (none when that range is empty) and [eof] holds exactly when [end] lies
    beyond the last line. *)
Theorem get_code_lines_range fs path s e m :
  let content := fst (_read_file fs (_resolve_path m path) m) in
  let chunk := fst (get_code_lines fs path s e m) in
  let total := line_count content in
  file_path chunk = path /\ class_name chunk = "" /\ function chunk = "" /\
  whole_function chunk = false /\
  _parse_cache (snd (get_code_lines fs path s e m)) = _parse_cache m /\
  (content = "" -> lines chunk = [] /\ eof chunk = false) /\
  (content <> "" ->
   interval (lines chunk) (Z.max 1 s) (Z.min e total) /\
   (eof chunk = true <-> (total < e)%Z)).
Proof.
  cbv zeta. unfold get_code_lines.
  pose proof (read_file_spec fs (_resolve_path m path) m) as Hread.
  destruct (_read_file fs (_resolve_path m path) m) as [content m1].
  destruct Hread as (_ & _ & Hparse & _). cbn [fst].
  destruct (String.eqb content "") eqn:Hempty.
  - apply String.eqb_eq in Hempty. by repeat split.
  - apply String.eqb_neq in Hempty. cbn [fst snd file_path class_name function
      whole_function lines eof].
    split_and!; [done..|by intros ?|].
    intros _. split; [apply range_Z_interval|apply Z.ltb_lt].
Qed.

Lemma merge_into_In e' c acc :
  NoDup (map key_of acc) ->
  In e' (merge_into c acc) ->
  (In e' acc /\ same_key e' c = false)
  \/ (exists e, In e acc /\ same_key e c = true /\ e' = merged_with e c)
  \/ ((forall e, In e acc -> same_key e c = false) /\ e' = fresh_entry c).
Proof.
  induction acc as [|a acc IH]; intros Hnd.
  - rewrite merge_into_nil. intros [<-|[]]. right. right. by split.
  - cbn [map] in Hnd. apply NoDup_cons in Hnd as [Ha Hnd].
    rewrite merge_into_cons. destruct (same_key a c) eqn:Hac.
    + intros [<-|Hin].
      * right. left. exists a. split; [by left|done].
      * left. split; [by right|].
        destruct (same_key e' c) eqn:He'; [|done].
        exfalso. apply Ha. apply same_key_key_of in Hac, He'.
        rewrite Hac, <- He'. by apply list_elem_of_In, in_map.
    + intros [<-|Hin].
      * left. split; [by left|done].
      * destruct (IH Hnd Hin) as [[H1 H2]|[(e & H1 & H2 & H3)|[H1 H2]]].
        -- left. split; [by right|done].
        -- right. left. exists e. split; [by right|done].
        -- right. right. split; [|done]. intros e [<-|He]; [done|by apply H1].
Qed.

Lemma merge_chunks_snoc l c :
  _merge_chunks (l ++ [c]) = merge_into c (_merge_chunks l).
Proof. unfold _merge_chunks. by rewrite fold_left_app. Qed.

Lemma merge_chunks_nodup l : NoDup (map key_of (_merge_chunks l)).
Proof. apply merge_fold_nodup. constructor. Qed.

Lemma merge_chunks_keys l k :
  In k (map key_of (_merge_chunks l)) <-> In k (map key_of l).
Proof.
  revert k. induction l as [|c l IH] using rev_ind; intros k; [done|].
  rewrite merge_chunks_snoc, merge_into_keys, map_app, in_app_iff. cbn [map].
  destruct (existsb _ _) eqn:Hex.
  - rewrite IH. split; [by left|]. intros [H|[<-|[]]]; [done|].
    apply existsb_exists in Hex as (e & He & Hk).
    apply same_key_key_of in Hk. rewrite <- Hk. apply IH. by apply in_map.
  - by rewrite in_app_iff, IH.
Qed.

Lemma chunks_of_key_snoc l c k :
  chunks_of_key (l ++ [c]) k =
  chunks_of_key l k ++ (if same_key k c then [c] else []).
Proof. unfold chunks_of_key. rewrite List.filter_app. by cbn [List.filter]. Qed.

Lemma chunks_of_key_ext l k k' :
  (forall x, same_key k x = same_key k' x) ->
  chunks_of_key l k = chunks_of_key l k'.
Proof. intros H. unfold chunks_of_key. apply List.filter_ext. intros x. apply H. Qed.

Lemma existsb_snoc {A} (f : A -> bool) l x :
  existsb f (l ++ [x]) = existsb f l || f x.
Proof. rewrite existsb_app. simpl. by rewrite orb_false_r. Qed.

Lemma merge_chunks_entries chunks :
  forall e, In e (_merge_chunks chunks) ->
     lines e = sorted_set (concat (map lines (chunks_of_key chunks e))) /\
     whole_function e = existsb whole_function (chunks_of_key chunks e) /\
     eof e = existsb eof (chunks_of_key chunks e).
Proof.
  induction chunks as [|c l IH] using rev_ind; [by intros e []|].
  intros e'. rewrite merge_chunks_snoc. intros Hin.
  apply merge_into_In in Hin; [|apply merge_chunks_nodup].
  rewrite chunks_of_key_snoc.
  destruct Hin as [[He Hk]|[(e & He & Hk & ->)|[Hnone ->]]].
  - rewrite Hk, app_nil_r. by apply IH.
  - rewrite same_key_merged_with, Hk.
    rewrite (chunks_of_key_ext l (merged_with e c) e)
      by apply same_key_merged_with.
    destruct (IH e He) as (Hl & Hw & Hf).
    rewrite map_app, concat_app, !existsb_snoc. cbn [map concat].
    cbn [lines whole_function eof merged_with]. rewrite Hw, Hf.
    split; [|done]. apply sorted_set_ext. intros x.
    rewrite !in_app_iff, Hl, sorted_set_In. simpl. tauto.
  - rewrite same_key_fresh.
    assert (same_key c c = true) as -> by (by apply same_key_key_of).
    rewrite (chunks_of_key_ext l (fresh_entry c) c) by apply same_key_fresh.
    assert (chunks_of_key l c = []) as ->.
    { apply filter_none. intros x Hx.
      assert (In (key_of x) (map key_of (_merge_chunks l))) as Hkx
        by (by apply merge_chunks_keys, in_map).
      apply in_map_iff in Hkx as (e & Hke & He).
      specialize (Hnone e He). apply same_key_key_of in Hke.
      rewrite (same_key_trans e x c Hke) in Hnone.
      by rewrite same_key_sym. }
    simpl. by rewrite app_nil_r, !orb_false_r.
Qed.

(** [_merge_chunks]: the keys [(file_path, class_name, function)] of the
    result are pairwise distinct and are the keys of the input; the entry of
    a key has the sorted, duplicate-free union of the lines of the input
    chunks of that key, and its [whole_function] and [eof] flags are the
    disjunctions of theirs. *)
Theorem merge_chunks_groups chunks :
  NoDup (map key_of (_merge_chunks chunks)) /\
  (forall k, In k (map key_of (_merge_chunks chunks)) <-> In k (map key_of chunks)) /\
  (forall e, In e (_merge_chunks chunks) ->
     lines e = sorted_set (concat (map lines (chunks_of_key chunks e))) /\
     whole_function e = existsb whole_function (chunks_of_key chunks e) /\
     eof e = existsb eof (chunks_of_key chunks e)).
Proof.
  split; [apply merge_chunks_nodup|]. split; [apply merge_chunks_keys|].
  apply merge_chunks_entries.
Qed.

Lemma merge_into_fresh c acc :
  (forall e, In e acc -> same_key e c = false) ->
  merge_into c acc = acc ++ [fresh_entry c].
Proof.
  induction acc as [|a acc IH]; intros H; [by rewrite merge_into_nil|].
  rewrite merge_into_cons, (H a) by (by left). simpl. f_equal.
  apply IH. intros e He. apply H. by right.
Qed.

Lemma sorted_set_sorted_id l : StronglySorted Z.lt l -> sorted_set l = l.
Proof.
  intros H. apply strictly_sorted_unique; [apply sorted_set_sorted|done|].
  intros x. apply sorted_set_In.
Qed.

Lemma merge_chunks_fixed l :
  NoDup (map key_of l) ->
  (forall c, In c l -> StronglySorted Z.lt (lines c)) ->
  _merge_chunks l = l.
Proof.
  induction l as [|c l IH] using rev_ind; intros Hnd Hs; [done|].
  rewrite map_app in Hnd. apply NoDup_app in Hnd as (Hnd & Hdisj & _).
  rewrite merge_chunks_snoc, IH; [|done|intros x Hx; apply Hs, in_app_iff; by left].
  rewrite merge_into_fresh.
  - f_equal. f_equal. unfold fresh_entry.
    rewrite sorted_set_sorted_id by (apply Hs, in_app_iff; right; by left).
    by destruct c.
  - intros e He. destruct (same_key e c) eqn:Hk; [|done].
    apply same_key_key_of in Hk. exfalso.
    apply (Hdisj (key_of e)); [by apply list_elem_of_In, in_map|].
    rewrite Hk. simpl. by left.
Qed.

(** [_merge_chunks] is idempotent: merging a merged list changes nothing. *)
Theorem merge_chunks_idempotent chunks :
  _merge_chunks (_merge_chunks chunks) = _merge_chunks chunks.
Proof.
  apply merge_chunks_fixed; [apply merge_chunks_nodup|].
  intros c Hc. destruct (merge_chunks_entries chunks c Hc) as (-> & _).
  apply sorted_set_sorted.
Qed.

Section KnownChunks.

Variable parse_python : string -> ts_node.

Lemma render_file_known fs fs' sections m p cs :
  is_Some (_file_cache m !! _resolve_path m p) ->
  snd (render_file parse_python fs (sections, m) (p, cs)) = m /\
  render_file parse_python fs' (sections, m) (p, cs)
  = render_file parse_python fs (sections, m) (p, cs).
Proof.
  intros [content Hc]. unfold render_file.
  rewrite !(read_file_cached _ _ _ _ Hc).
  destruct (splitlines content); [done|].
  by destruct (_collect_needed_lines _ _ _).
Qed.

Lemma render_files_known fs fs' m files :
  Forall (fun entry => is_Some (_file_cache m !! _resolve_path m (fst entry)))
         files ->
  forall sections,
    snd (fold_left (render_file parse_python fs) files (sections, m)) = m /\
    fold_left (render_file parse_python fs') files (sections, m)
    = fold_left (render_file parse_python fs) files (sections, m).
Proof.
  induction 1 as [|[p cs] files Hp _ IH]; intros sections; [done|].
  cbn [fold_left]. simpl in Hp.
  destruct (render_file_known fs fs' sections m p cs Hp) as [Hm ->].
  destruct (render_file parse_python fs (sections, m) (p, cs)) as [sections' m'].
  simpl in Hm. subst m'. apply IH.
Qed.

(** [render] of chunks whose files are all in the file cache does not call
    [get_file_fn]: the manager is left as it was, and the text does not depend
    on the current content of the sandbox. *)
Theorem render_known_chunks fs fs' chunks m :
  Forall (known m) chunks ->
  snd (render parse_python fs chunks m) = m /\
  render parse_python fs' chunks m = render parse_python fs chunks m.
Proof.
  intros Hknown. unfold render.
  destruct (_merge_chunks chunks) as [|e merged] eqn:Hm; [done|].
  rewrite <- Hm.
  assert (Forall (fun entry =>
            is_Some (_file_cache m !! _resolve_path m (fst entry)))
            (group_by_file (_merge_chunks chunks))) as Hfiles.
  { rewrite group_by_file_spec. apply Forall_forall. intros entry Hin.
    apply list_elem_of_In, in_map_iff in Hin as (p & <- & Hp). simpl.
    unfold file_order in Hp. apply (proj1 (first_occurrences_In _ _)) in Hp.
    destruct (merge_chunks_files chunks) as [_ Hsame].
    apply (proj1 (Hsame p)), in_map_iff in Hp as (c & <- & Hc).
    rewrite Forall_forall in Hknown. change (known m c).
    by apply Hknown, list_elem_of_In. }
  destruct (render_files_known fs fs' m _ Hfiles []) as [Hsnd ->].
  destruct (fold_left _ _ _) as [sections m']. simpl in Hsnd. by subst m'.
Qed.

Lemma known_step m m' c :
  cache_step_for parse_python m m' -> known m c -> known m' c.
Proof.
  intros (Hkeep & Hcwd & _) [content Hc]. unfold known, _resolve_path in *.
  rewrite Hcwd. exists content. by apply Hkeep.
Qed.

Lemma nearby_chunk_known fs p l w m :
  known (snd (get_nearby_code_context parse_python fs p l w m))
        (fst (get_nearby_code_context parse_python fs p l w m)).
Proof.
  unfold get_nearby_code_context.
  pose proof (read_file_spec fs (_resolve_path m p) m) as Hread.
  destruct (_read_file fs (_resolve_path m p) m) as [content m1].
  destruct Hread as (Hcached & Hcwd & _).
  assert (known m1 (empty_chunk p)) as Hk.
  { unfold known, _resolve_path in *. rewrite Hcwd. by exists content. }
  destruct (String.eqb content ""); [done|].
  pose proof (parse_file_step parse_python fs (_resolve_path m p) m1) as Hstep.
  destruct (_parse_file parse_python fs (_resolve_path m p) m1) as [tree m2].
  simpl in Hstep. apply (known_step _ _ _ Hstep) in Hk.
  destruct (enclosing_node tree l "function_definition") as [f|]; [|done].
  destruct (node_lines f) as [a b]. by destruct (_ <=? _)%Z.
Qed.

Lemma code_lines_chunk_known fs p s e m :
  known (snd (get_code_lines fs p s e m)) (fst (get_code_lines fs p s e m)).
Proof.
  unfold get_code_lines.
  pose proof (read_file_spec fs (_resolve_path m p) m) as Hread.
  destruct (_read_file fs (_resolve_path m p) m) as [content m1].
  destruct Hread as (Hcached & Hcwd & _).
  assert (known m1 (empty_chunk p)) as Hk.
  { unfold known, _resolve_path in *. rewrite Hcwd. by exists content. }
  by destruct (String.eqb content "").
Qed.

(** A chunk returned by [get_nearby_code_context] or [get_code_lines] is a
    chunk of a cached file, also when the file is empty, and stays one over
    every later sequence of calls: rendering it never reads a file again. *)
Theorem loaded_chunks_stay_known fs calls m :
  (forall p l w,
     let r := get_nearby_code_context parse_python fs p l w m in
     known (run_calls parse_python calls (snd r)) (fst r)) /\
  (forall p s e,
     let r := get_code_lines fs p s e m in
     known (run_calls parse_python calls (snd r)) (fst r)).
Proof.
  split; intros; cbv zeta;
    (eapply known_step; [apply run_calls_step|]);
    [apply nearby_chunk_known|apply code_lines_chunk_known].
Qed.

End KnownChunks.

Lemma render_known_chunks_witness :
  let m := snd (get_code_lines (fun _ => one_line) "a.py" 1 1 (new_manager "")) in
  snd (render (fun _ => one_line_tree) (fun _ => one_line) [chunk_a] m) = m /\
  render (fun _ => one_line_tree) (fun _ => five_lines) [chunk_a] m
  = render (fun _ => one_line_tree) (fun _ => one_line) [chunk_a] m.
Proof.
  apply render_known_chunks. repeat constructor. by exists one_line.
Defined.

(** *** The class of a nearby chunk *)

Section NearbyClass.

Variable parse_python : string -> ts_node.


End NearbyClass.


(** *** C9: what is read once, and which parse is used *)

Lemma in_file_order chunks c :
  In c chunks -> In (file_path c) (file_order chunks).
Proof.
  intros Hc. unfold file_order. apply first_occurrences_In, in_map_iff. eauto.
Qed.

Lemma render_frame parse fs trees chunks m :
  let r := render parse fs chunks m in
  fst (render parse fs chunks (with_parse_cache trees m)) = fst r /\
  _parse_cache (snd r) = _parse_cache m /\
  keeps_cache m (snd r) /\
  forall c, In c chunks ->
    _file_cache (snd r) !! _resolve_path m (file_path c)
    = Some (content_for fs m (_resolve_path m (file_path c))).
Proof.
  cbv zeta. unfold render.
  destruct (merge_chunks_files chunks) as [Ho _].
  destruct (_merge_chunks chunks) as [|c0 l] eqn:Hm.
  { simpl. split_and!; try done; [by intros p c|].
    intros c Hc%in_file_order. rewrite <- Ho in Hc. by destruct Hc. }
  destruct (render_files_frame parse fs trees (group_by_file (c0 :: l)) [] m)
    as (H1 & H2 & _ & H4 & H5).
  rewrite H1.
  destruct (fold_left (render_file parse fs) (group_by_file (c0 :: l)) ([], m))
    as [sections m1].
  simpl in *. split_and!; try done.
  intros c Hc%in_file_order. rewrite <- Ho in Hc.
  apply (H5 (file_entry (c0 :: l) (file_path c))).
  rewrite group_by_file_spec. by apply in_map.
Qed.

(** C9, as stated, fails on the code: [render] does not use the cached
    parse.  After [get_nearby_code_context] has read and parsed [a.py], the
    tree is in the parse cache; [render], called for the function of that
    file, gives the text that the parser of the call leads to (no text for a
    parser that finds no definition), and it gives the same text when the
    cached tree is taken away. *)
Lemma render_parses_again :
  let fs := fun _ : string => one_function in
  let parse := fun _ : string => one_function_tree in
  let m := snd (get_nearby_code_context parse fs "a.py" 2 100 (new_manager "")) in
  _file_cache m !! "a.py" = Some one_function /\
  _parse_cache m !! "a.py" = Some one_function_tree /\
  fst (render parse fs [chunk_f] m)
  = ("## File: `a.py`" ++ newline ++ " 1 def f():" ++ newline
     ++ " 2     return 1")%string /\
  fst (render blank_parser fs [chunk_f] m) = "" /\
  fst (render parse fs [chunk_f] (with_parse_cache ∅ m))
  = fst (render parse fs [chunk_f] m).
Proof. cbv zeta. split_and!; by vm_compute. Qed.

(** C9 (amended).  In the manager reached by any sequence of calls, made
    while the files of the sandbox change at will:
    - the delegate has been invoked at most once for each path, and the
      file cache holds exactly what it returned; the parse cache holds the
      parse of the cached content;
    - a further call keeps every entry of both caches;
    - a further call reads, for the path of its file, the cached content,
      and for a path that is not cached yet the answer of the reader at
      that time, which it caches; so its result is the same for all readers
      that differ only on cached paths;
    - [get_nearby_code_context] caches the tree of a file that is not
      empty, and with the tree of the path cached its result depends neither
      on the parser nor on the reader;
    - [render] parses the content again: its text is the same whatever the
      parse cache holds, and it leaves the parse cache as it was. *)
Theorem file_cache_reads_once parse_python cwd_ calls :
  let m := run_calls parse_python calls (new_manager cwd_) in
  reads_once m /\
  caches_consistent parse_python m /\
  (forall parse fs call,
     keeps_cache m (snd (run_call parse fs call m)) /\
     keeps_parses m (snd (run_call parse fs call m))) /\
  (forall parse fs p l w,
     _file_cache (snd (get_nearby_code_context parse fs p l w m))
       !! _resolve_path m p
     = Some (content_for fs m (_resolve_path m p))) /\
  (forall fs p s e,
     _file_cache (snd (get_code_lines fs p s e m)) !! _resolve_path m p
     = Some (content_for fs m (_resolve_path m p))) /\
  (forall parse fs chunks c,
     In c chunks ->
     _file_cache (snd (render parse fs chunks m)) !! _resolve_path m (file_path c)
     = Some (content_for fs m (_resolve_path m (file_path c)))) /\
  (forall parse fs1 fs2 call,
     agree_on_unread m fs1 fs2 ->
     run_call parse fs1 call m = run_call parse fs2 call m) /\
  (forall parse fs p l w,
     content_for fs m (_resolve_path m p) <> "" ->
     _parse_cache (snd (get_nearby_code_context parse fs p l w m))
       !! _resolve_path m p
     = Some match _parse_cache m !! _resolve_path m p with
            | Some tree => tree
            | None => parse (content_for fs m (_resolve_path m p))
            end) /\
  (forall parse1 parse2 fs1 fs2 p l w,
     is_Some (_parse_cache m !! _resolve_path m p) ->
     get_nearby_code_context parse1 fs1 p l w m
     = get_nearby_code_context parse2 fs2 p l w m) /\
  (forall parse fs chunks trees,
     fst (render parse fs chunks (with_parse_cache trees m))
     = fst (render parse fs chunks m) /\
     _parse_cache (snd (render parse fs chunks m)) = _parse_cache m).
Proof.
  cbv zeta. set (m := run_calls parse_python calls (new_manager cwd_)).
  destruct (run_calls_step parse_python calls (new_manager cwd_))
    as (_ & _ & Hr & Hc).
  pose proof (Hr (new_manager_reads_once cwd_)) as Hreads.
  pose proof (Hc (new_manager_consistent parse_python cwd_)) as Hcons.
  fold m in Hreads, Hcons.
  split_and!; try done.
  - intros parse fs call. split.
    + by destruct (run_call_step parse fs call m) as (Hk & _).
    + destruct call as [p l w|p s e|chunks]; simpl.
      * pose proof (nearby_reads parse fs p l w m) as (_ & Hk & _).
        by destruct (get_nearby_code_context parse fs p l w m).
      * pose proof (code_lines_reads fs p s e m) as (_ & Hk).
        destruct (get_code_lines fs p s e m) as [chunk m1]. simpl in *.
        intros q tree. by rewrite Hk.
      * pose proof (render_frame parse fs ∅ chunks m) as (_ & Hk & _).
        destruct (render parse fs chunks m) as [text m1]. simpl in *.
        intros q tree. by rewrite Hk.
  - intros parse fs p l w. apply nearby_reads.
  - intros fs p s e. apply code_lines_reads.
  - intros parse fs chunks c Hc'.
    by apply (render_frame parse fs ∅ chunks m).
  - intros parse fs1 fs2 call. apply run_call_agree.
  - intros parse fs p l w. apply nearby_reads.
  - intros parse1 parse2 fs1 fs2 p l w.
    by apply nearby_uses_cached_parse with parse_python.
  - intros parse fs chunks trees.
    destruct (render_frame parse fs trees chunks m) as (H1 & H2 & _).
    by split.
Qed.

(** ** The agent: parsing *)

(** *** Strings *)

Lemma append_cons c (a b : string) :
  (String c a ++ b)%string = String c (a ++ b).
Proof. reflexivity. Qed.

Lemma append_nil_l (b : string) : ("" ++ b)%string = b.
Proof. reflexivity. Qed.

Ltac str_simpl :=
  rewrite ?append_cons, ?append_nil_l in *; simpl in *.

Lemma append_nil_r (s : string) : (s ++ "")%string = s.
Proof. induction s as [|c s IH]; str_simpl; congruence. Qed.

Lemma append_assoc (a b c : string) :
  ((a ++ b) ++ c)%string = (a ++ (b ++ c))%string.
Proof. induction a as [|x a IH]; str_simpl; congruence. Qed.

Lemma length_append (a b : string) :
  String.length (a ++ b) = String.length a + String.length b.
Proof. induction a as [|x a IH]; str_simpl; congruence. Qed.

(** Two decompositions of one string: the shorter prefix is a prefix of the
    longer one. *)
Lemma append_split (a u b v : string) :
  (a ++ u)%string = (b ++ v)%string -> String.length a <= String.length b ->
  exists d, b = (a ++ d)%string /\ u = (d ++ v)%string.
Proof.
  revert b. induction a as [|x a IH]; intros b Heq Hlen.
  - exists b. by str_simpl.
  - destruct b as [|y b]; [simpl in Hlen; lia|].
    str_simpl. injection Heq as -> Heq.
    destruct (IH b Heq) as (d & -> & ->); [lia|]. by exists d.
Qed.

Lemma strip_prefix_spec p s r :
  strip_prefix p s = Some r <-> s = (p ++ r)%string.
Proof.
  revert s. induction p as [|a p IH]; intros s; str_simpl.
  - split; congruence.
  - destruct s as [|c s]; [split; discriminate|].
    destruct (Ascii.eqb a c) eqn:E.
    + apply Ascii.eqb_eq in E as ->. rewrite IH. split; congruence.
    + apply Ascii.eqb_neq in E. split; [discriminate|congruence].
Qed.

Lemma split_at_first_unfold p s :
  split_at_first p s =
  match strip_prefix p s with
  | Some rest => Some (EmptyString, rest)
  | None =>
      match s with
      | EmptyString => None
      | String c s' =>
          match split_at_first p s' with
          | Some (before, rest) => Some (String c before, rest)
          | None => None
          end
      end
  end.
Proof. by destruct s. Qed.

(** [split_at_first] cuts at the first occurrence of the pattern. *)
Lemma split_at_first_Some p s a b :
  split_at_first p s = Some (a, b) ->
  s = (a ++ p ++ b)%string /\
  forall a' b', s = (a' ++ p ++ b')%string -> String.length a <= String.length a'.
Proof.
  revert a. induction s as [|c s IH]; intros a; rewrite split_at_first_unfold.
  - destruct (strip_prefix p "") as [r|] eqn:Hp; [|done].
    intros [= <- <-]. apply strip_prefix_spec in Hp. split; [done|].
    intros; simpl; lia.
  - destruct (strip_prefix p (String c s)) as [r|] eqn:Hp.
    + intros [= <- <-]. apply strip_prefix_spec in Hp. split; [done|].
      intros; simpl; lia.
    + destruct (split_at_first p s) as [[a0 b0]|] eqn:Hs; [|done].
      intros [= <- <-]. destruct (IH a0 eq_refl) as [-> Hmin]. split; [done|].
      intros [|x a'] b' Heq.
      * rewrite append_nil_l in Heq. apply strip_prefix_spec in Heq. congruence.
      * rewrite !append_cons in Heq. injection Heq as -> Heq. simpl.
        specialize (Hmin _ _ Heq). lia.
Qed.

Lemma split_at_first_None p s :
  split_at_first p s = None -> forall a b, s <> (a ++ p ++ b)%string.
Proof.
  induction s as [|c s IH]; rewrite split_at_first_unfold.
  - destruct (strip_prefix p "") as [r|] eqn:Hp; [done|]. intros _ a b Heq.
    destruct a; [|done]. rewrite append_nil_l in Heq.
    apply strip_prefix_spec in Heq. congruence.
  - destruct (strip_prefix p (String c s)) as [r|] eqn:Hp; [done|].
    destruct (split_at_first p s) as [[a0 b0]|] eqn:Hs; [done|].
    intros _ [|x a] b Heq.
    + rewrite append_nil_l in Heq. apply strip_prefix_spec in Heq. congruence.
    + rewrite append_cons in Heq. injection Heq as -> Heq.
      by apply (IH eq_refl a b).
Qed.

(** [_parse_tag] with a tag that the pattern matches as it is written: when
    the content has no opening tag that a closing tag follows, the result is
    the empty string; otherwise the result is the stripped text between the
    first opening tag and the first closing tag behind it, whatever tags
    follow. *)
Theorem parse_tag_first_pair content tag :
  literal_tag tag = true ->
  let opening := ("<" ++ tag ++ ">")%string in
  let closing := ("</" ++ tag ++ ">")%string in
  (_parse_tag content tag = "" /\
   forall a g b, content <> (a ++ opening ++ g ++ closing ++ b)%string)
  \/ exists pre g rest,
       content = (pre ++ opening ++ g ++ closing ++ rest)%string /\
       (forall a b, content = (a ++ opening ++ b)%string ->
                    String.length pre <= String.length a) /\
       (forall a b, (g ++ closing ++ rest)%string = (a ++ closing ++ b)%string ->
                    String.length g <= String.length a) /\
       _parse_tag content tag = strip g.
Proof.
  intros _. cbv zeta. unfold _parse_tag, search_tag.
  generalize ("<" ++ tag ++ ">")%string as o.
  generalize ("</" ++ tag ++ ">")%string as c. intros c o.
  destruct (split_at_first o content) as [[pre after]|] eqn:Ho.
  - apply split_at_first_Some in Ho as [-> Hpre].
    destruct (split_at_first c after) as [[g rest]|] eqn:Hc.
    + apply split_at_first_Some in Hc as [-> Hg]. right. by exists pre, g, rest.
    + left. split; [done|]. intros a g b Heq.
      pose proof (Hpre _ _ Heq) as Hlen.
      destruct (append_split _ _ _ _ Heq Hlen) as (d & -> & Heq').
      assert (String.length o <= String.length (d ++ o ++ g)) as Hlen'.
      { rewrite !length_append. lia. }
      replace (d ++ o ++ g ++ c ++ b)%string
        with ((d ++ o ++ g) ++ c ++ b)%string
        in Heq' by (by rewrite !append_assoc).
      destruct (append_split _ _ _ _ Heq' Hlen') as (d' & _ & Hafter).
      by apply (split_at_first_None _ _ Hc d' b).
  - left. split; [done|]. intros a g b.
    apply (split_at_first_None _ _ Ho a).
Qed.

Lemma parse_tag_first_pair_witness :
  let content := "<thoughts> a </thoughts><thoughts>b</thoughts>" in
  let opening := ("<" ++ "thoughts" ++ ">")%string in
  let closing := ("</" ++ "thoughts" ++ ">")%string in
  (_parse_tag content "thoughts" = "" /\
   forall a g b, content <> (a ++ opening ++ g ++ closing ++ b)%string)
  \/ exists pre g rest,
       content = (pre ++ opening ++ g ++ closing ++ rest)%string /\
       (forall a b, content = (a ++ opening ++ b)%string ->
                    String.length pre <= String.length a) /\
       (forall a b, (g ++ closing ++ rest)%string = (a ++ closing ++ b)%string ->
                    String.length g <= String.length a) /\
       _parse_tag content "thoughts" = strip g.
Proof.
  apply (parse_tag_first_pair
           "<thoughts> a </thoughts><thoughts>b</thoughts>" "thoughts").
  reflexivity.
Defined.

(** *** Lines *)

Lemma splitlines_keepends_unfold c s :
  splitlines_keepends (String c s) =
  if is_cr c then
    match s with
    | String d s'' =>
        if is_lf d then String c (String d EmptyString) :: splitlines_keepends s''
        else String c EmptyString :: splitlines_keepends s
    | EmptyString => [String c EmptyString]
    end
  else if is_linebreak c then String c EmptyString :: splitlines_keepends s
  else match splitlines_keepends s with
       | [] => [String c EmptyString]
       | l :: ls => String c l :: ls
       end.
Proof. by destruct s. Qed.

Lemma join_empty_cons x l : join_empty (x :: l) = (x ++ join_empty l)%string.
Proof. reflexivity. Qed.

(** The lines of [splitlines(keepends=True)], put together again, are the
    string. *)
Lemma splitlines_keepends_join s : join_empty (splitlines_keepends s) = s.
Proof.
  remember (String.length s) as n eqn:Hn. revert s Hn.
  induction n as [n IH] using lt_wf_ind. intros [|c s] Hn; [done|].
  simpl in Hn. rewrite splitlines_keepends_unfold.
  destruct (is_cr c).
  - destruct s as [|d s'']; [done|]. destruct (is_lf d).
    + rewrite join_empty_cons, (IH (String.length s'')); [done|simpl in Hn; lia|done].
    + rewrite join_empty_cons, (IH (String.length (String d s''))); [done|lia|done].
  - destruct (is_linebreak c).
    + rewrite join_empty_cons, (IH (String.length s)); [done|lia|done].
    + pose proof (IH (String.length s) ltac:(lia) s eq_refl) as Hs.
      destruct (splitlines_keepends s) as [|l ls].
      * by rewrite <- Hs.
      * rewrite join_empty_cons, append_cons. by rewrite <- Hs.
Qed.

(** The first line of [splitlines(keepends=True)] is one line. *)
Lemma splitlines_keepends_first s f rest :
  splitlines_keepends s = f :: rest -> splitlines_keepends f = [f].
Proof.
  remember (String.length s) as n eqn:Hn. revert s f rest Hn.
  induction n as [n IH] using lt_wf_ind. intros [|c s] f rest Hn; [done|].
  simpl in Hn. rewrite splitlines_keepends_unfold.
  destruct (is_cr c) eqn:Hcr.
  - destruct s as [|d s''].
    + intros [= <- <-]. by rewrite splitlines_keepends_unfold, Hcr.
    + destruct (is_lf d) eqn:Hlf; intros [= <- <-].
      * by rewrite splitlines_keepends_unfold, Hcr, Hlf.
      * by rewrite splitlines_keepends_unfold, Hcr.
  - destruct (is_linebreak c) eqn:Hlb.
    + intros [= <- <-]. by rewrite splitlines_keepends_unfold, Hcr, Hlb.
    + destruct (splitlines_keepends s) as [|l ls] eqn:Hs; intros [= <- <-].
      * by rewrite splitlines_keepends_unfold, Hcr, Hlb.
      * rewrite splitlines_keepends_unfold, Hcr, Hlb.
        by rewrite (IH (String.length s) ltac:(lia) s l ls eq_refl Hs).
Qed.

Lemma lstrip_blank_app ws s : lstrip ws = "" -> lstrip (ws ++ s) = lstrip s.
Proof.
  induction ws as [|c ws IH]; [done|]. rewrite append_cons. simpl.
  destruct (is_space c); [done|discriminate].
Qed.



Lemma is_cr_linebreak c : is_cr c = true -> is_linebreak c = true.
Proof.
  unfold is_cr, is_linebreak, between. intros H%Nat.eqb_eq. by rewrite H.
Qed.

(** A first line, as [first_line] describes it, is the first line of
    [splitlines(keepends=True)], and the other lines make up the rest. *)
Lemma first_line_head l t rest :
  no_linebreak l = true -> ends_line t rest -> (l ++ t)%string <> "" ->
  splitlines_keepends (l ++ t ++ rest)
  = (l ++ t)%string :: splitlines_keepends rest.
Proof.
  intros Hl Ht. induction l as [|x l IH]; intros Hne.
  - rewrite !append_nil_l in *.
    destruct Ht as [[-> _]|[(c & -> & Hc & Hcr)|(c & d & -> & Hc & Hd)]].
    + done.
    + rewrite append_cons, append_nil_l, splitlines_keepends_unfold, Hc.
      destruct (is_cr c) eqn:Hcc; [|done].
      specialize (Hcr eq_refl). destruct rest as [|d rest]; [done|].
      simpl in Hcr. by rewrite Hcr.
    + rewrite !append_cons, append_nil_l, splitlines_keepends_unfold.
      by rewrite Hc, Hd.
  - simpl in Hl. apply andb_true_iff in Hl as [Hx Hl].
    apply negb_true_iff in Hx.
    assert (is_cr x = false) as Hxc.
    { destruct (is_cr x) eqn:E; [|done]. apply is_cr_linebreak in E. congruence. }
    rewrite !append_cons, splitlines_keepends_unfold, Hxc, Hx.
    destruct (decide ((l ++ t)%string = "")) as [Hnil|Hnn].
    + destruct l; [|done]. rewrite append_nil_l in Hnil. subst t.
      destruct Ht as [[_ ->]|[(c & ? & _)|(c & d & ? & _)]]; done.
    + by rewrite (IH Hl Hnn).
Qed.

Lemma first_line_split text first rest :
  first_line text first rest ->
  exists ls, splitlines_keepends text = first :: ls /\ join_empty ls = rest.
Proof.
  intros (-> & Hne & l & t & -> & Hl & Ht).
  exists (splitlines_keepends rest). split; [|apply splitlines_keepends_join].
  rewrite append_assoc. by apply first_line_head.
Qed.

(** A text that is not empty has a first line. *)
Lemma first_line_exists text :
  text <> "" -> exists first rest, first_line text first rest.
Proof.
  induction text as [|c s IH]; [done|]. intros _.
  destruct (is_linebreak c) eqn:Hlb.
  - destruct (is_cr c) eqn:Hcr.
    + destruct s as [|d s].
      * exists (String c ""), "". split_and!; [done..|].
        exists "", (String c ""). split_and!; [done..|].
        right. left. by exists c.
      * destruct (is_lf d) eqn:Hd.
        -- exists (String c (String d "")), s. split_and!; [done..|].
           exists "", (String c (String d "")). split_and!; [done..|].
           right. right. by exists c, d.
        -- exists (String c ""), (String d s). split_and!; [done..|].
           exists "", (String c ""). split_and!; [done..|].
           right. left. by exists c.
    + exists (String c ""), s. split_and!; [done..|].
      exists "", (String c ""). split_and!; [done..|].
      right. left. exists c. split_and!; [done..|]. congruence.
  - destruct s as [|d s].
    + exists (String c ""), "". split_and!; [done..|].
      exists (String c ""), "". split_and!; [done| |by left].
      simpl. by rewrite Hlb.
    + destruct IH as (first & rest & Heq & Hne & l & t & -> & Hl & Ht); [done|].
      exists (String c (l ++ t)), rest. split_and!; [by rewrite append_cons, <- Heq|done|].
      exists (String c l), t. split_and!; [done| |done].
      simpl. by rewrite Hlb, Hl.
Qed.


(** *** Stripping *)

Lemma lstrip_head s :
  lstrip s = "" \/ exists c r, lstrip s = String c r /\ is_space c = false.
Proof.
  induction s as [|c s IH]; [by left|]. simpl.
  destruct (is_space c) eqn:Hc; [done|]. right. by exists c, s.
Qed.

Lemma lstrip_fixed c r : is_space c = false -> lstrip (String c r) = String c r.
Proof. intros H. simpl. by rewrite H. Qed.

Lemma rstrip_unfold c s :
  rstrip (String c s) =
  match rstrip s with
  | EmptyString => if is_space c then EmptyString else String c EmptyString
  | r => String c r
  end.
Proof. reflexivity. Qed.

Lemma rstrip_idempotent s : rstrip (rstrip s) = rstrip s.
Proof.
  induction s as [|c s IH]; [done|]. rewrite rstrip_unfold.
  destruct (rstrip s) as [|d r] eqn:Hr.
  - destruct (is_space c) eqn:Hc; [done|]. rewrite rstrip_unfold. simpl.
    by rewrite Hc.
  - rewrite rstrip_unfold, IH. done.
Qed.

Lemma rstrip_head c r :
  is_space c = false -> exists r', rstrip (String c r) = String c r'.
Proof.
  intros Hc. rewrite rstrip_unfold. destruct (rstrip r); rewrite ?Hc; eauto.
Qed.

(** [strip] is idempotent. *)
Lemma strip_idempotent s : strip (strip s) = strip s.
Proof.
  unfold strip. destruct (lstrip_head s) as [->|(c & r & -> & Hc)]; [done|].
  destruct (rstrip_head c r Hc) as [r' Hr']. rewrite Hr', lstrip_fixed by done.
  by rewrite <- Hr', rstrip_idempotent.
Qed.

Lemma strip_backticks_stripped text :
  strip (_strip_backticks text) = _strip_backticks text.
Proof.
  unfold _strip_backticks. cbv zeta.
  destruct (startswith (strip text) fence); [apply strip_idempotent|].
  destruct (_ && _); apply strip_idempotent.
Qed.

(** *** Actions *)

Lemma search_tag_shorter tag content g rest :
  search_tag tag content = Some (g, rest) ->
  String.length rest < String.length content.
Proof.
  unfold search_tag.
  destruct (split_at_first _ content) as [[pre after]|] eqn:Ho; [|done].
  intros Hc. apply split_at_first_Some in Ho as [-> _], Hc as [-> _].
  rewrite !length_append. simpl. lia.
Qed.

Lemma find_tags_total tag fuel content :
  String.length content < fuel -> is_Some (find_tags fuel tag content).
Proof.
  revert content. induction fuel as [|fuel IH]; intros content Hlen; [lia|].
  simpl. destruct (search_tag tag content) as [[g rest]|] eqn:Hs; [|done].
  apply search_tag_shorter in Hs.
  destruct (IH rest) as [l ->]; [lia|done].
Qed.

(** [_parse_actions] returns, and every action it returns is non-empty and
    has neither leading nor trailing whitespace, nor the backticks of a code
    span around it. *)
Theorem parse_actions_stripped content :
  exists actions,
    _parse_actions content = Some actions /\
    Forall (fun a => a <> "" /\ strip a = a) actions.
Proof.
  unfold _parse_actions.
  destruct (find_tags_total "action" (S (String.length content)) content)
    as [groups ->]; [lia|].
  eexists. split; [done|]. apply Forall_forall. intros a Ha.
  apply list_elem_of_In, filter_In in Ha as [Ha Hne].
  apply in_map_iff in Ha as (g & <- & _). split.
  - intros Heq. by rewrite Heq in Hne.
  - apply strip_backticks_stripped.
Qed.

(** *** Unique code chunks *)

Lemma chunk_key_eqb_spec a b :
  chunk_key_eqb a b = true <-> _chunk_key a = _chunk_key b.
Proof.
  unfold chunk_key_eqb, _chunk_key.
  rewrite !andb_true_iff, !String.eqb_eq, Bool.eqb_true_iff, bool_decide_eq_true.
  split; [by intros ((((-> & ->) & ->) & ->) & ->)|by intros [= -> -> -> -> ->]].
Qed.

Lemma existsb_chunk_key chunk chunks :
  existsb (fun c => chunk_key_eqb chunk c) chunks = true <->
  In (_chunk_key chunk) (map _chunk_key chunks).
Proof.
  rewrite existsb_exists, in_map_iff. split.
  - intros (c & Hc & Hk). exists c. by apply chunk_key_eqb_spec in Hk.
  - intros (c & Hk & Hc). exists c. split; [done|]. by apply chunk_key_eqb_spec.
Qed.

(** [_append_unique_code_chunk]: the list only grows at its end, by the chunk
    itself and only when its key is new; afterwards the key is in the list;
    pairwise distinct keys stay pairwise distinct; appending the same chunk
    again changes nothing. *)
Theorem append_unique_code_chunk_keys chunks chunk :
  let r := _append_unique_code_chunk chunks chunk in
  (r = chunks /\ In (_chunk_key chunk) (map _chunk_key chunks)
   \/ r = chunks ++ [chunk] /\ ~ In (_chunk_key chunk) (map _chunk_key chunks)) /\
  In (_chunk_key chunk) (map _chunk_key r) /\
  (NoDup (map _chunk_key chunks) -> NoDup (map _chunk_key r)) /\
  _append_unique_code_chunk r chunk = r.
Proof.
  cbv zeta. unfold _append_unique_code_chunk.
  destruct (existsb _ chunks) eqn:Hex.
  - apply existsb_chunk_key in Hex as Hin. split_and!; [by left|done|done|].
    by rewrite Hex.
  - assert (~ In (_chunk_key chunk) (map _chunk_key chunks)) as Hnot.
    { intros Hin%existsb_chunk_key. congruence. }
    assert (In (_chunk_key chunk) (map _chunk_key (chunks ++ [chunk]))) as Hin.
    { rewrite map_app, in_app_iff. right. by left. }
    split_and!; [by right|done| |].
    + intros Hnd. rewrite map_app. apply NoDup_app. split_and!; [done| |].
      * intros k Hk [->|[]%elem_of_nil]%elem_of_cons.
        by apply Hnot, list_elem_of_In.
      * repeat constructor. by intros ?%elem_of_nil.
    + by apply existsb_chunk_key in Hin as ->.
Qed.

(** ** The agent: executing a response *)

Lemma alter_fixed {A} (f : A -> A) i (l : list A) :
  (forall x, l !! i = Some x -> f x = x) -> alter f i l = l.
Proof.
  intros Hf. apply list_eq. intros j. rewrite list_lookup_alter.
  case_decide as Hd; [subst j|done].
  destruct (l !! i) as [x|] eqn:Hx; [|done]. simpl. by rewrite Hf.
Qed.

Lemma update_fixed r f st :
  f (node st r) = node st r -> update r f st = st.
Proof.
  intros Hf. unfold update. rewrite alter_fixed; [by destruct st|].
  intros x Hx. unfold node in Hf. by rewrite (list_lookup_total_correct _ _ _ Hx) in Hf.
Qed.

Lemma same_but_notes_refl n : same_but_notes n n.
Proof. by destruct n. Qed.

Lemma same_but_notes_trans n1 n2 n3 :
  same_but_notes n1 n2 -> same_but_notes n2 n3 -> same_but_notes n1 n3.
Proof.
  destruct n1, n2, n3. unfold same_but_notes. simpl.
  intros [= -> -> -> -> -> -> -> -> -> -> -> ->] [= -> -> -> -> -> -> -> -> -> -> -> ->].
  done.
Qed.

Lemma active_write_notes f n : active_write f -> same_but_notes n (f n).
Proof. by intros [ch|ch|pkg st|diff]; destruct n. Qed.

Lemma notes_only_refl am : notes_only am am.
Proof. split; auto using same_but_notes_refl. Qed.

Lemma notes_only_trans am1 am2 am3 :
  notes_only am1 am2 -> notes_only am2 am3 -> notes_only am1 am3.
Proof.
  intros [a1 a2 a3 a4 a5 a6] [b1 b2 b3 b4 b5 b6].
  assert (active_node am2 = active_node am1) as Hact.
  { unfold active_node, has_real_current. by rewrite a2, a3. }
  split; try congruence.
  - intros x. by eapply same_but_notes_trans.
  - intros x Hx. rewrite b6, a6; [done..|by rewrite Hact].
Qed.

Lemma notes_only_on_active f am :
  active_write f -> notes_only am (on_active f am).
Proof.
  intros Hf. unfold on_active.
  destruct (active_node am) as [r|] eqn:Hr; [|apply notes_only_refl].
  split; try done.
  - apply length_update.
  - intros x. unfold node, update; simpl. rewrite list_lookup_total_alter.
    case_decide as Hd; [|apply same_but_notes_refl].
    destruct Hd as [-> _]. by apply active_write_notes.
  - intros x Hx. apply node_update_ne. congruence.
Qed.

Lemma reachable_on_active f am :
  active_write f -> reachable am -> reachable (on_active f am).
Proof.
  intros Hf Hreach. destruct Hf as [ch|ch|pkg st|diff];
    try (eapply reachable_step; [done|by constructor]).
  unfold on_active. destruct (active_node am) as [r|] eqn:Hr; [|done].
  destruct (existsb (fun c => chunk_key_eqb ch c) (code_chunks (node am r)))
    eqn:Hex.
  - rewrite update_fixed; [done|]. cbv beta. unfold _append_unique_code_chunk.
    rewrite Hex. by destruct (node am r).
  - replace (update r _ am) with (on_active (append_code_chunk ch) am).
    + eapply reachable_step; [done|by constructor].
    + unfold on_active. rewrite Hr. unfold update. f_equal.
      apply list_eq. intros j. rewrite !list_lookup_alter.
      case_decide as Hd; [subst j|done].
      match goal with
      | |- _ <$> ?o = _ => destruct o as [x|] eqn:Hx; [|done]
      end. simpl.
      assert (node am r = x) as Hnode by (by apply list_lookup_total_correct).
      rewrite Hnode in Hex. unfold _append_unique_code_chunk. by rewrite Hex.
Qed.

(** *** What the conversions of a tool response raise *)

Lemma code_context_items_errors items e :
  code_context_items items = inl e -> e = AttributeError.
Proof.
  induction items as [|item rest IH]; [done|]. simpl.
  destruct item; try (by intros [= <-]).
  destruct (code_context_items rest); [|done]. intros [= <-]. by apply IH.
Qed.

Lemma from_data_errors data e :
  from_data data = inl e -> e = AttributeError \/ e = TypeError.
Proof.
  destruct data as [| | | | |items|d]; simpl; try (intros [= <-]; by left).
  destruct (json_get "code_context" d) as [| | | |s|items|d']; simpl;
    try done; try (intros [= <-]; by right).
  - destruct s; [done|]. intros [= <-]. by left.
  - destruct (code_context_items items) eqn:E; [|done].
    intros [= <-]. left. by eapply code_context_items_errors.
  - destruct d'; [done|]. intros [= <-]. by left.
Qed.

Lemma py_int_errors v e :
  py_int v = inl e -> e = TypeError \/ e = ValueError \/ e = OverflowError.
Proof.
  destruct v as [| | |[| |]|s| |]; simpl; try done; try (intros [= <-]; auto).
  destruct (int_of_string s); [done|]. intros [= <-]. auto.
Qed.

Lemma output_items_errors trs e : output_items trs = inl e -> e = TypeError.
Proof.
  induction trs as [|tr rest IH]; [done|]. simpl.
  destruct (output_item tr) as [e'|text] eqn:E.
  - intros [= <-]. unfold output_item in E.
    destruct (negb _); [done|]. destruct (tr_output tr); congruence.
  - destruct (output_items rest); [|done]. intros [= <-]. by apply IH.
Qed.

Create HintDb keeps discriminated.

Section AgentFacts.

Context {World : Type} {sandbox : Externals World}.

Implicit Types a : LLMIDEAgent World.

(** *** The frame rules *)

Section Frame.

Context (R : LLMIDEAgent World -> LLMIDEAgent World -> Prop) (P : exn -> Prop)
  `{!PreOrder R}.

Lemma keeps_ret {A} (x : A) : keeps R P (ret x).
Proof. by intros a. Qed.

Lemma keeps_raise {A} e : P e -> keeps R P (raise (A := A) e).
Proof. by intros He a. Qed.

Lemma keeps_get_agent : keeps R P get_agent.
Proof. by intros a. Qed.

Lemma keeps_lift {A} (r : exn + A) :
  (forall e, r = inl e -> P e) -> keeps R P (lift r).
Proof. intros He a. destruct r as [e|x]; [|done]. split; [done|]. by apply He. Qed.

Lemma keeps_bind {A B} (m : M A) (f : A -> M B) :
  keeps R P m -> (forall x, keeps R P (f x)) -> keeps R P (bind m f).
Proof.
  intros Hm Hf a. unfold bind. destruct (Hm a) as [HR He].
  destruct (m a) as [[x|e|] a1]; simpl in *; [|done..].
  destruct (Hf x a1) as [HR' He']. split; [by etrans|done].
Qed.

Lemma keeps_modify f : (forall a, R a (f a)) -> keeps R P (modify f).
Proof. intros Hf a. by split; [apply Hf|]. Qed.

Lemma keeps_for_each {A} (l : list A) body :
  (forall x, keeps R P (body x)) -> keeps R P (for_each l body).
Proof.
  intros Hbody. induction l as [|x l IH]; [apply keeps_ret|].
  simpl. apply keeps_bind; [apply Hbody|done].
Qed.

End Frame.

End AgentFacts.

Ltac keeps_leaf := eauto 3 with keeps typeclass_instances.

Ltac keeps_step :=
  lazymatch goal with
  | |- keeps _ _ (bind _ _) =>
      apply keeps_bind; [..|intros ?; cbv beta]; try apply _
  | |- keeps _ _ (ret _) => apply keeps_ret; try apply _
  | |- keeps _ _ get_agent => apply keeps_get_agent; try apply _
  | |- keeps _ _ (for_each _ _) =>
      apply keeps_for_each; [..|intros ?; cbv beta]; try apply _
  | |- keeps _ _ (if ?b then _ else _) => destruct b
  | |- keeps _ _ (match ?x with _ => _ end) => destruct x eqn:?
  end.

Section AgentMethods.

Context {World : Type} {sandbox : Externals World}.

Implicit Types a : LLMIDEAgent World.

Section World.

Context (R : LLMIDEAgent World -> LLMIDEAgent World -> Prop) (P : exn -> Prop)
  `{!WorldFrame R, !WorldExn P}.

Lemma keeps_env_execute command : keeps R P (env_execute command).
Proof.
  intros a. unfold env_execute.
  destruct (execute command (env a)) as [[output rc|output] w];
    split; simpl; first [apply frame_env|apply frame_timeout|done].
Qed.

Lemma keeps_get_git_diff : keeps R P _get_git_diff.
Proof.
  unfold _get_git_diff. repeat keeps_step; apply keeps_env_execute.
Qed.

Lemma keeps_apply_patch diff : keeps R P (_apply_patch diff).
Proof. unfold _apply_patch. repeat keeps_step. apply keeps_env_execute. Qed.

Lemma keeps_sync_version_control : keeps R P _sync_version_control.
Proof.
  unfold _sync_version_control.
  repeat keeps_step;
    auto using keeps_get_git_diff, keeps_env_execute, keeps_apply_patch.
Qed.

Lemma keeps_update_tool_status : keeps R P _update_tool_status.
Proof.
  unfold _update_tool_status. repeat keeps_step.
  apply keeps_modify; try apply _. intros a. apply frame_tools.
Qed.

Lemma keeps_save_history_text round_index kind text :
  keeps R P (_save_history_text round_index kind text).
Proof.
  unfold _save_history_text. keeps_step; [|keeps_step].
  apply keeps_modify; try apply _. intros a. apply frame_history.
Qed.

End World.

Hint Resolve keeps_env_execute keeps_get_git_diff keeps_apply_patch
  keeps_sync_version_control keeps_update_tool_status keeps_save_history_text
  : keeps.

Section Tool.

Context (R : LLMIDEAgent World -> LLMIDEAgent World -> Prop) (P : exn -> Prop)
  `{!ToolFrame R, !ToolExn P}.

Lemma keeps_on_active f : active_write f -> keeps R P (tree (on_active f)).
Proof. intros Hf a. by split; [apply frame_active|]. Qed.

Lemma keeps_with_manager {A}
    (f : file_reader -> CodeContextManager -> A * CodeContextManager) m :
  keeps R P (with_manager f m).
Proof.
  intros a. unfold with_manager. destruct (f _ m) as [x m'].
  by split; [apply frame_manager|].
Qed.

Lemma keeps_handle_code_chunk chunk : keeps R P (_handle_code_chunk chunk).
Proof.
  unfold _handle_code_chunk. keeps_step; [|keeps_step].
  apply keeps_on_active. constructor.
Qed.

Lemma keeps_int_arg part : keeps R P (int_arg part).
Proof.
  unfold int_arg. repeat keeps_step. apply keeps_raise; try apply _; apply frame_value_error.
Qed.

Lemma keeps_type_error {A} : keeps R P (raise (A := A) TypeError).
Proof. apply keeps_raise; try apply _; apply frame_type_error. Qed.

Lemma keeps_call_get_nearby parts m :
  keeps R P (call_get_nearby_code_context parts m).
Proof.
  unfold call_get_nearby_code_context.
  repeat keeps_step;
    auto using keeps_int_arg, keeps_with_manager, keeps_handle_code_chunk,
               keeps_type_error.
Qed.

Lemma keeps_call_get_code_lines parts m :
  keeps R P (call_get_code_lines parts m).
Proof.
  unfold call_get_code_lines.
  repeat keeps_step;
    auto using keeps_int_arg, keeps_with_manager, keeps_handle_code_chunk,
               keeps_type_error.
Qed.

Lemma keeps_run_builtin_tool command : keeps R P (_run_builtin_tool command).
Proof.
  unfold _run_builtin_tool.
  repeat keeps_step;
    auto using keeps_call_get_nearby, keeps_call_get_code_lines.
Qed.

End Tool.

Section Action.

Context (R : LLMIDEAgent World -> LLMIDEAgent World -> Prop) (P : exn -> Prop)
  `{!ActionFrame R, !ActionExn P}.

Lemma keeps_check_submission output : keeps R P (_check_submission output).
Proof.
  unfold _check_submission. destruct (submitted_text output); [|keeps_step].
  keeps_step; [keeps_step|]. keeps_step.
  - apply keeps_save_history_text; apply _.
  - apply keeps_raise; try apply _; apply frame_submitted.
Qed.

Lemma keeps_execute_command command : keeps R P (_execute_command command).
Proof.
  unfold _execute_command. keeps_step; [apply keeps_run_builtin_tool; apply _|].
  keeps_step; [keeps_step|]. intros a.
  destruct (execute command (env a)) as [[output rc|output] w] eqn:He.
  - assert (keeps R P (bind (_check_submission output)
                         (fun _ => ret (output, rc)))) as Hk.
    { repeat keeps_step. apply keeps_check_submission. }
    destruct (Hk (set_env w a)) as [HR Hfuel]. split; [|done].
    etrans; [apply frame_env|exact HR].
  - split; [apply frame_env|apply frame_execution_timeout].
Qed.

Lemma keeps_decode_all json_strs : keeps R P (decode_all json_strs).
Proof.
  induction json_strs as [|json_str rest IH]; simpl; [keeps_step|].
  destruct (decode json_str) as [data|]; [|done].
  keeps_step; [|repeat keeps_step; done].
  apply keeps_lift; [apply _|]. intros e [->| ->]%from_data_errors.
  - apply frame_attribute_error.
  - apply frame_type_error.
Qed.

Lemma keeps_from_string raw_str : keeps R P (from_string raw_str).
Proof.
  unfold from_string.
  destruct (find_tags_total "tool-response" (S (String.length raw_str)) raw_str)
    as [groups ->]; [lia|].
  destruct groups; apply keeps_decode_all.
Qed.

Lemma keeps_attach_nearby file_path_ line m :
  keeps R P (attach_nearby file_path_ line m).
Proof.
  unfold attach_nearby.
  destruct file_path_;
    repeat keeps_step;
    try (apply keeps_with_manager; apply _);
    try (apply keeps_on_active; [apply _|constructor]);
    try (apply keeps_raise; [apply _|]);
    first [apply frame_attribute_error|apply frame_type_error].
Qed.

Lemma keeps_attach_code_context cc : keeps R P (attach_code_context cc).
Proof.
  unfold attach_code_context. cbv zeta.
  destruct (negb _ || _); [keeps_step|].
  destruct (py_int (cc_line_number cc)) as [e|line] eqn:Hint.
  - apply py_int_errors in Hint as [->|[->| ->]]; try keeps_step.
    apply keeps_raise; [apply _|]. apply frame_overflow_error.
  - repeat keeps_step. apply keeps_attach_nearby.
Qed.

Lemma keeps_attach_code_context_chunks ccs :
  keeps R P (_attach_code_context_chunks ccs).
Proof.
  unfold _attach_code_context_chunks. repeat keeps_step;
    apply keeps_attach_code_context.
Qed.

Lemma keeps_apply_tool_status_updates trs :
  keeps R P (_apply_tool_status_updates trs).
Proof.
  unfold _apply_tool_status_updates. repeat keeps_step.
  - apply keeps_on_active; [apply _|constructor].
  - apply keeps_raise; [apply _|]. apply frame_type_error.
  - apply keeps_modify; try apply _. intros a. apply frame_tools.
Qed.

Lemma keeps_process_tool_response raw : keeps R P (_process_tool_response raw).
Proof.
  unfold _process_tool_response. keeps_step; [apply keeps_from_string|].
  keeps_step; [keeps_step|].
  keeps_step.
  { apply keeps_lift; [apply _|]. intros e ->%output_items_errors.
    apply frame_type_error. }
  keeps_step.
  { apply keeps_lift; [apply _|]. intros e [->|[->| ->]]%py_int_errors.
    - apply frame_type_error.
    - apply frame_value_error.
    - apply frame_overflow_error. }
  repeat keeps_step;
    auto using keeps_attach_code_context_chunks, keeps_apply_tool_status_updates.
Qed.

Lemma keeps_execute_loop actions state : keeps R P (execute_loop actions state).
Proof.
  revert state. induction actions as [|action_ rest IH]; intros state; simpl.
  - keeps_step.
  - repeat keeps_step;
      auto using keeps_execute_command, keeps_process_tool_response.
Qed.

Lemma keeps_execute_actions actions : keeps R P (_execute_actions actions).
Proof.
  unfold _execute_actions. keeps_step; [apply keeps_execute_loop|].
  keeps_step; [keeps_step|]. keeps_step; [|keeps_step].
  keeps_step; [apply keeps_get_git_diff; apply _|].
  keeps_step; [|keeps_step]. apply keeps_on_active; [apply _|constructor].
Qed.

End Action.

End AgentMethods.

Lemma same_but_notes_fields n n' :
  same_but_notes n n' ->
  thoughts n' = thoughts n /\ action n' = action n /\
  action_property n' = action_property n /\
  observations n' = observations n /\ summary n' = summary n /\
  valid n' = valid n /\ lessons n' = lessons n /\
  dead_path_summaries n' = dead_path_summaries n /\
  dead_path n' = dead_path n /\ invalid_ops n' = invalid_ops n /\
  parent n' = parent n /\ children n' = children n.
Proof. intros Hn. rewrite Hn. by destruct n. Qed.

Section AgentTheorems.

Context {World : Type} {sandbox : Externals World}.

Implicit Types a : LLMIDEAgent World.

#[global] Instance keeps_reachable_preorder : PreOrder (keeps_reachable (World := World)).
Proof.
  split; [intros a Ha; exact Ha|].
  intros a1 a2 a3 H12 H23 H1. apply H23, H12, H1.
Qed.

#[global] Instance keeps_reachable_world : WorldFrame (keeps_reachable (World := World)).
Proof. split; [apply _|..]; intros a; intros; intros Ha; exact Ha. Qed.

#[global] Instance keeps_reachable_tool : ToolFrame (keeps_reachable (World := World)).
Proof.
  split; [apply _|intros a ? Ha; exact Ha|].
  intros a f Hf Hreach. by apply reachable_on_active.
Qed.

#[global] Instance keeps_reachable_action : ActionFrame (keeps_reachable (World := World)).
Proof. split; apply _. Qed.

#[global] Instance keeps_tree_preorder : PreOrder (keeps_tree (World := World)).
Proof.
  split.
  - intros a. split; [apply notes_only_refl|done].
  - intros a1 a2 a3 (H1 & H2 & H3) (H4 & H5 & H6).
    split; [by eapply notes_only_trans|]. split; congruence.
Qed.

#[global] Instance keeps_tree_world : WorldFrame (keeps_tree (World := World)).
Proof.
  split; [apply _|..]; intros a; intros; (split; [apply notes_only_refl|done]).
Qed.

#[global] Instance keeps_tree_tool : ToolFrame (keeps_tree (World := World)).
Proof.
  split; [apply _|..].
  - intros a ?. split; [apply notes_only_refl|done].
  - intros a f Hf. split; [by apply notes_only_on_active|done].
Qed.

#[global] Instance keeps_tree_action : ActionFrame (keeps_tree (World := World)).
Proof. split; apply _. Qed.

#[global] Instance same_tree_preorder : PreOrder (same_tree (World := World)).
Proof.
  split; [by intros a|].
  intros a1 a2 a3 (? & ? & ? & ?) (? & ? & ? & ?). split_and!; congruence.
Qed.

#[global] Instance same_tree_world : WorldFrame (same_tree (World := World)).
Proof. split; [apply _|..]; by intros a; intros. Qed.

#[global] Instance world_exn_world : WorldExn world_exn.
Proof. split. intros output. by exists output. Qed.

#[global] Instance action_exn_action : ActionExn action_exn.
Proof.
  split; unfold action_exn.
  - split. intros output. left. by exists output.
  - split; auto.
  - intros msg. right. right. right. left. by exists msg.
  - intros msg. right. right. right. right. left. by exists msg.
  - auto 10.
  - auto 10.
Qed.

(** *** A response without action *)

Lemma search_tag_Some tag content g rest :
  search_tag tag content = Some (g, rest) ->
  exists pre, content
              = (pre ++ ("<" ++ tag ++ ">") ++ g ++ ("</" ++ tag ++ ">") ++ rest)%string.
Proof.
  unfold search_tag.
  destruct (split_at_first _ content) as [[pre after]|] eqn:Ho; [|done].
  intros Hc. apply split_at_first_Some in Ho as [-> _], Hc as [-> _].
  by exists pre.
Qed.

(** [_process_action] on a response from which no action is parsed, which
    is the case of every response without an [<action>...</action>] pair,
    raises [FormatError] and leaves the whole agent, tree and sandbox
    included, as it was: nothing is created, counted or executed. *)
Theorem process_action_format_error content a :
  ((forall pre g post,
      content <> (pre ++ "<action>" ++ g ++ "</action>" ++ post)%string) ->
   _parse_actions content = Some []) /\
  (_parse_actions content = Some [] ->
   _process_action content a
   = (Raise (FormatError (format_error_message (env a))), a)).
Proof.
  split.
  - intros Hnone. unfold _parse_actions. simpl.
    destruct (search_tag "action" content) as [[g rest]|] eqn:Hs; [|done].
    apply search_tag_Some in Hs as [pre Hs]. by destruct (Hnone pre g rest).
  - intros Hparse. unfold _process_action. by rewrite Hparse.
Qed.

End AgentTheorems.

(** *** A response with actions *)

Section AgentPending.

Context {World : Type} {sandbox : Externals World}.

Implicit Types a : LLMIDEAgent World.

Lemma node_snoc_old st n c mi tn x :
  x < length (nodes st) -> node (mkAM (nodes st ++ [n]) c mi tn) x = node st x.
Proof. intros Hx. unfold node. simpl. by rewrite lookup_total_app_l. Qed.

Lemma node_snoc_new st n c mi tn :
  node (mkAM (nodes st ++ [n]) c mi tn) (length (nodes st)) = n.
Proof.
  unfold node. simpl. rewrite lookup_total_app_r by done.
  by rewrite Nat.sub_diag.
Qed.

Lemma process_action_pending_spec content a actions r a' :
  _parse_actions content = Some actions -> actions <> [] ->
  _process_action content a = (r, a') ->
  let am := action_manager a in
  let am' := action_manager a' in
  let t := length (nodes am) in
  temp_node am' = Some t /\ current am' = current am /\
  length (nodes am') = S t /\
  n_operations a' = (n_operations a + 1)%Z /\
  (forall x, x < t -> node am' x = node am x) /\
  thoughts (node am' t) = _parse_tag content "thoughts" /\
  action (node am' t) = join newline actions /\
  action_property (node am' t)
    = ActionProperty_of_string (lower (strip (_parse_tag content "property"))) /\
  parent (node am' t) = None /\ children (node am' t) = [] /\
  valid (node am' t) = None /\
  match r with
  | Ok (observations_, _) => observations (node am' t) = observations_
  | Raise e => observations (node am' t) = [] /\
               action_exn e
  | OutOfFuel => False
  end.
Proof.
  intros Hparse Hne. unfold _process_action. rewrite Hparse.
  destruct actions as [|action0 rest]; [done|]. clear Hne.
  set (th := _parse_tag content "thoughts").
  set (ac := join newline (action0 :: rest)).
  set (pr := ActionProperty_of_string _).
  unfold bind at 1 2. unfold tree at 1. unfold modify at 1 2. cbv beta iota.
  set (a1 := set_n_operations _ _).
  destruct (keeps_execute_actions keeps_tree action_exn (action0 :: rest) a1)
    as [(Hnotes & Hn & _) Hres].
  unfold bind at 1.
  destruct (_execute_actions (action0 :: rest) a1) as [[[obs rc]|e|] a2];
    simpl in Hnotes, Hn, Hres; [| |done].
  - unfold bind, tree, modify, ret. simpl. intros [= <- <-]. cbv zeta.
    destruct Hnotes as [H1 H2 H3 H4 H5 H6]. simpl in *.
    unfold set_observation. rewrite H3. simpl.
    pose proof (same_but_notes_fields _ _
                  (H5 (length (nodes (action_manager a))))) as HF.
    rewrite node_snoc_new in HF. simpl in HF.
    destruct HF as (F1 & F2 & F3 & F4 & F5 & F6 & F7 & F8 & F9 & F10 & F11 & F12).
    rewrite length_app in H1. simpl in H1.
    rewrite length_alter.
    rewrite !node_update_eq by lia.
    split_and!; try done; try lia.
    intros x Hx. rewrite node_update_ne by lia.
    rewrite H6; [by apply node_snoc_old|].
    unfold active_node. simpl. intros [= ?]. lia.
  - intros [= <- <-]. cbv zeta.
    destruct Hnotes as [H1 H2 H3 H4 H5 H6]. simpl in *.
    pose proof (same_but_notes_fields _ _
                  (H5 (length (nodes (action_manager a))))) as HF.
    rewrite node_snoc_new in HF. simpl in HF.
    destruct HF as (F1 & F2 & F3 & F4 & F5 & F6 & F7 & F8 & F9 & F10 & F11 & F12).
    rewrite length_app in H1. simpl in H1.
    split_and!; try done; try lia.
    intros x Hx. rewrite H6; [by apply node_snoc_old|].
    unfold active_node. simpl. intros [= ?]. lia.
Qed.



End AgentPending.


(** A tool response whose return code is [1e999]: [int] raises
    [OverflowError], which leaves [_process_action]; the pending node has no
    observation. *)
Lemma process_action_overflow :
  let r := _process_action (sandbox := overflow_world) "<action>ls</action>"
             new_agent in
  fst r = Raise OverflowError /\
  temp_node (action_manager (snd r)) = Some 1 /\
  observations (node (action_manager (snd r)) 1) = [].
Proof. by vm_compute. Qed.

(** The same for a line number [1e999] in the code context of a tool
    response, with an agent that has a code context manager. *)
Lemma attach_code_context_overflow :
  let a := mkAgent (init 3) (Some (new_manager "/testbed")) 0 [] [] [] tt in
  let r := _process_action (sandbox := far_line_world) "<action>ls</action>" a in
  fst r = Raise OverflowError /\
  observations (node (action_manager (snd r)) 1) = [].
Proof. by vm_compute. Qed.

(** *** Reflection *)

Section AgentReflection.

Context {World : Type} {sandbox : Externals World}.

Implicit Types a : LLMIDEAgent World.

Lemma current_update r f st : current (update r f st) = current st.
Proof. reflexivity. Qed.

Lemma temp_update r f st : temp_node (update r f st) = temp_node st.
Proof. reflexivity. Qed.

Lemma process_action_no_action content a :
  _parse_actions content = Some [] ->
  _process_action content a
  = (Raise (FormatError (format_error_message (env a))), a).
Proof. intros Hparse. unfold _process_action. by rewrite Hparse. Qed.

Lemma parse_tag_stripped content tag :
  strip (_parse_tag content tag) = _parse_tag content tag.
Proof.
  unfold _parse_tag. destruct (search_tag tag content) as [[g rest]|]; [|done].
  apply strip_idempotent.
Qed.

(** What [_update_tool_status] and [_sync_version_control] leave alone. *)
Lemma after_commit_same_tree a :
  let r := bind _update_tool_status (fun _ => _sync_version_control) a in
  same_tree a (snd r) /\
  (fst r = Ok tt \/ exists output, fst r = Raise (TimeoutExpired output)).
Proof.
  cbv zeta.
  assert (keeps same_tree world_exn
            (bind _update_tool_status (fun _ => _sync_version_control))) as Hk.
  { apply keeps_bind; [apply _| |intros _].
    - apply keeps_update_tool_status; apply _.
    - apply keeps_sync_version_control; apply _. }
  destruct (Hk a) as [Hsame Hres]. split; [done|].
  destruct (fst _) as [[]|e|]; [by left| |done].
  destruct Hres as [output ->]. right. by exists output.
Qed.

Lemma process_reflection_spec content a t r a' :
  reachable (action_manager a) ->
  temp_node (action_manager a) = Some t ->
  _process_reflection content a = (r, a') ->
  let am := action_manager a in
  let am' := action_manager a' in
  let c := current am in
  let rejected := String.eqb (lower (_parse_tag content "decision")) "reject" in
  temp_node am' = None /\ reachable am' /\
  n_operations a' = n_operations a /\
  code_context_manager a' = code_context_manager a /\
  valid (node am' t) = Some (negb rejected) /\
  lessons (node am' t) = _parse_tag content "lessons" /\
  summary (node am' t) = _parse_tag content "summary" /\
  parent (node am' t) = Some c /\
  if rejected then
    current am' = c /\
    invalid_ops (node am' c) = invalid_ops (node am c) ++ [t] /\
    children (node am' c) = children (node am c) /\
    env a' = env a /\ installed_tools a' = installed_tools a /\
    r = if (max_invalid am <=? Z.of_nat (length (invalid_ops (node am c)) + 1))%Z
        then Raise (NotImplementedError
               "Dead-end handling via consecutive invalid overflow is not yet implemented.")
        else Ok tt
  else
    current am' = t /\
    children (node am' c) = children (node am c) ++ [t] /\
    invalid_ops (node am' c) = invalid_ops (node am c) /\
    (r = Ok tt \/ exists output, r = Raise (TimeoutExpired output)).
Proof.
  intros Hreach Ht. cbv zeta.
  destruct (reachable_path_inv _ Hreach) as [p Hinv].
  pose proof (path_inv_current_lt _ _ Hinv) as Hc.
  destruct Hinv as [_ _ _ _ _ Hfresh Htemp].
  destruct (Htemp t Ht) as (Htlen & _).
  unfold fresh_bound in Hc, Hfresh. rewrite Ht in Hc, Hfresh.
  unfold _process_reflection. rewrite parse_tag_stripped.
  set (decision := lower (_parse_tag content "decision")).
  set (l := _parse_tag content "lessons").
  set (s := _parse_tag content "summary").
  unfold bind at 1. unfold tree at 1. unfold modify at 1. cbv beta iota.
  set (am := action_manager a) in *.
  set (am1 := set_reflection _ l s am).
  assert (reachable am1) as Hreach1.
  { eapply reachable_step; [exact Hreach|apply step_set_reflection]. }
  assert (am1 = update t (set_reflection_fields
                            (negb (String.eqb decision "reject")) l s) am)
    as Ham1.
  { unfold am1, set_reflection. by rewrite Ht. }
  clearbody am1. subst am1.
  set (c := current am) in *.
  destruct (String.eqb decision "reject") eqn:Hd; cbn [negb] in *.
  - unfold bind at 1. unfold get_agent. cbv beta iota.
    cbn [action_manager set_action_manager].
    pose proof (reachable_step _ _ Hreach1 (step_commit_invalid _)) as Hreach2.
    unfold commit_invalid in *. rewrite temp_update, Ht in *.
    rewrite !current_update in *. fold c in Hreach2 |- *.
    cbn [snd] in Hreach2. unfold bind, modify. cbv beta iota.
    set (am2 := mkAM _ _ _ None) in *.
    assert (forall x, node am2 x
              = node (update c
                        (fun n => set_invalid_ops (invalid_ops n ++ [t]) n)
                        (update t (set_parent (Some c))
                           (update t (set_reflection_fields false l s) am))) x)
      as Hnode by done.
    assert (node am2 t
            = set_parent (Some c) (set_reflection_fields false l s (node am t)))
      as Hnt.
    { rewrite Hnode, node_update_ne by lia.
      rewrite node_update_eq by (by rewrite length_update).
      by rewrite node_update_eq. }
    assert (node am2 c
            = set_invalid_ops (invalid_ops (node am c) ++ [t]) (node am c))
      as Hnc.
    { rewrite Hnode, node_update_eq by (rewrite !length_update; lia).
      by rewrite !node_update_ne by lia. }
    match goal with
    | |- (if ?b then _ else _) _ = _ -> _ =>
        assert (b = (max_invalid am
                     <=? Z.of_nat (length (invalid_ops (node am c)) + 1))%Z)
          as ->
    end.
    { change (current am2) with c. rewrite Hnc.
      cbn [invalid_ops set_invalid_ops]. by rewrite length_app. }
    destruct (_ <=? _)%Z; intros [= <- <-];
      cbn [action_manager set_action_manager n_operations
           code_context_manager env installed_tools];
      rewrite Hnt, Hnc; by split_and!.
  - unfold bind at 1. unfold tree at 1. unfold modify at 1. cbv beta iota.
    cbn [action_manager set_action_manager].
    pose proof (reachable_step _ _ Hreach1 (step_commit_admissible _))
      as Hreach2.
    unfold commit_admissible in *. rewrite temp_update, Ht in *.
    rewrite !current_update in *. fold c in Hreach2 |- *.
    set (am2 := mkAM _ t _ None) in *.
    assert (forall x, node am2 x
              = node (update c
                        (fun n => set_children (children n ++ [t]) n)
                        (update t (set_parent (Some c))
                           (update t (set_reflection_fields true l s) am))) x)
      as Hnode by done.
    assert (node am2 t
            = set_parent (Some c) (set_reflection_fields true l s (node am t)))
      as Hnt.
    { rewrite Hnode, node_update_ne by lia.
      rewrite node_update_eq by (by rewrite length_update).
      by rewrite node_update_eq. }
    assert (node am2 c
            = set_children (children (node am c) ++ [t]) (node am c))
      as Hnc.
    { rewrite Hnode, node_update_eq by (rewrite !length_update; lia).
      by rewrite !node_update_ne by lia. }
    set (a2 := set_action_manager am2 _).
    destruct (after_commit_same_tree a2) as [(S1 & S2 & S3 & S4) Hres].
    intros Heq. rewrite Heq in S1, S2, S3, S4, Hres. cbn [fst snd] in *.
    rewrite S1. cbn [action_manager set_action_manager a2] in *.
    rewrite Hnt, Hnc. by split_and!.
Qed.


Lemma reflection_then_format_error content a t r a' :
  reachable (action_manager a) ->
  temp_node (action_manager a) = Some t ->
  _parse_actions content = Some [] ->
  process_response true content a = (r, a') ->
  let am := action_manager a in
  let am' := action_manager a' in
  let c := current am in
  let rejected := String.eqb (lower (_parse_tag content "decision")) "reject" in
  am' <> am /\ temp_node am' = None /\ parent (node am' t) = Some c /\
  (if rejected
   then invalid_ops (node am' c) = invalid_ops (node am c) ++ [t]
   else children (node am' c) = children (node am c) ++ [t] /\ current am' = t) /\
  (r = Raise (FormatError (format_error_message (env a')))
   \/ (exists msg, r = Raise (NotImplementedError msg))
   \/ (exists output, r = Raise (TimeoutExpired output))).
Proof.
  intros Hreach Ht Hparse. unfold process_response, bind.
  destruct (_process_reflection content a) as [r1 a1] eqn:Hrefl.
  pose proof (process_reflection_spec _ _ _ _ _ Hreach Ht Hrefl) as Hspec.
  cbv zeta in Hspec.
  destruct Hspec as (H1 & _ & _ & _ & _ & _ & _ & H8 & Hcase). cbv zeta.
  assert (action_manager a1 <> action_manager a) as Hne.
  { intros Heq. rewrite Heq in H1. congruence. }
  destruct r1 as [[]|e|].
  - rewrite process_action_no_action by done. intros [= <- <-].
    split_and!; [done..| |by left].
    destruct (String.eqb _ "reject"); [by destruct Hcase as (_ & ? & _)|].
    by destruct Hcase as (? & ? & _).
  - intros [= <- <-]. split_and!; [done..| |].
    + destruct (String.eqb _ "reject"); [by destruct Hcase as (_ & ? & _)|].
      by destruct Hcase as (? & ? & _).
    + destruct (String.eqb _ "reject").
      * destruct Hcase as (_ & _ & _ & _ & _ & Hr). right. left.
        destruct (_ <=? _)%Z; [|done]. injection Hr as ->. by eexists.
      * destruct Hcase as (_ & _ & _ & [Hr|[output Hr]]); [done|].
        injection Hr as ->. right. right. by eexists.
  - intros [= <- <-]. exfalso.
    destruct (String.eqb _ "reject").
    + destruct Hcase as (_ & _ & _ & _ & _ & Hr). by destruct (_ <=? _)%Z.
    + by destruct Hcase as (_ & _ & _ & [Hr|[output Hr]]).
Qed.

(** In [step] the reflection on the pending node comes before the action is
    parsed.  With a pending node [t] and a response from which no action is
    parsed, the node is committed or rejected first: the exception that
    leaves the step ([FormatError], unless the reflection itself raised)
    finds a tree that differs from the one before the step, with the pending
    slot cleared and [t] linked under [current]. *)
Theorem format_error_after_reflection content a t r a' :
  reachable (action_manager a) ->
  temp_node (action_manager a) = Some t ->
  _parse_actions content = Some [] ->
  process_response true content a = (r, a') ->
  let am := action_manager a in
  let am' := action_manager a' in
  let c := current am in
  let rejected := String.eqb (lower (_parse_tag content "decision")) "reject" in
  am' <> am /\ temp_node am' = None /\ parent (node am' t) = Some c /\
  (if rejected
   then invalid_ops (node am' c) = invalid_ops (node am c) ++ [t]
   else children (node am' c) = children (node am c) ++ [t] /\ current am' = t) /\
  (r = Raise (FormatError (format_error_message (env a')))
   \/ (exists msg, r = Raise (NotImplementedError msg))
   \/ (exists output, r = Raise (TimeoutExpired output))).
Proof. apply reflection_then_format_error. Qed.

End AgentReflection.

(** *** The tree of the agent *)

Lemma set_tool_state_names pkg status_ tools :
  map tool_name (set_tool_state pkg status_ tools) = map tool_name tools.
Proof.
  induction tools as [|tool rest IH]; [done|]. simpl.
  destruct (match pkg with JStr name => _ | _ => _ end); simpl; congruence.
Qed.

Section AgentTree.

Context {World : Type} {sandbox : Externals World}.

Implicit Types a : LLMIDEAgent World.

#[global] Instance response_exn_action : ActionExn response_exn.
Proof.
  split; unfold response_exn; [split|split|..]; intros; left;
    first [apply frame_timeout|apply frame_value_error|apply frame_type_error
          |apply frame_execution_timeout|apply frame_submitted
          |apply frame_attribute_error|apply frame_overflow_error].
Qed.

#[global] Instance response_exn_response : ResponseExn response_exn.
Proof.
  split; [apply _|..]; intros msg; unfold response_exn;
    [right; left|right; right]; by exists msg.
Qed.

#[global] Instance keeps_reachable_response :
  ResponseFrame (keeps_reachable (World := World)).
Proof.
  split; [apply _| |by intros a Ha].
  intros a am' Hstep Hreach. by eapply reachable_step.
Qed.

#[global] Instance keeps_tools_preorder : PreOrder (keeps_tools (World := World)).
Proof.
  split; [by intros a|].
  intros a1 a2 a3 (H1 & H2 & H3) (H4 & H5 & H6). split_and!; [congruence..|lia].
Qed.

#[global] Instance keeps_tools_world : WorldFrame (keeps_tools (World := World)).
Proof.
  split; [apply _|..]; intros a; intros; split_and!; try done.
  apply set_tool_state_names.
Qed.

#[global] Instance keeps_tools_tool : ToolFrame (keeps_tools (World := World)).
Proof. split; [apply _|..]; by intros a; intros. Qed.

#[global] Instance keeps_tools_action : ActionFrame (keeps_tools (World := World)).
Proof. split; apply _. Qed.

#[global] Instance keeps_tools_response :
  ResponseFrame (keeps_tools (World := World)).
Proof.
  split; [apply _|by intros a; intros|].
  intros a. split_and!; [done..|]. simpl. lia.
Qed.

Section Response.

Context (R : LLMIDEAgent World -> LLMIDEAgent World -> Prop) (P : exn -> Prop)
  `{!ResponseFrame R, !ResponseExn P}.

Lemma keeps_tree_step (f : ActionManager -> ActionManager) :
  (forall am, step am (f am)) -> keeps R P (tree f).
Proof. intros Hf a. split; [|done]. by apply frame_step. Qed.

Lemma keeps_process_action content : keeps R P (_process_action content).
Proof.
  unfold _process_action, _parse_actions.
  destruct (find_tags_total "action" (S (String.length content)) content)
    as [groups ->]; [lia|].
  destruct (List.filter _ _) as [|action0 rest].
  - keeps_step; [keeps_step|]. apply keeps_raise; try apply _.
    apply frame_format_error.
  - keeps_step; [apply keeps_tree_step; intros am; apply step_create_temp_node|].
    keeps_step; [apply keeps_modify; try apply _; apply frame_count|].
    keeps_step; [apply keeps_execute_actions; apply _|].
    keeps_step; [|keeps_step].
    apply keeps_tree_step. intros am. apply step_set_observation.
Qed.

Lemma keeps_process_reflection content : keeps R P (_process_reflection content).
Proof.
  unfold _process_reflection. cbv zeta.
  keeps_step; [apply keeps_tree_step; intros am; apply step_set_reflection|].
  destruct (negb _).
  - keeps_step; [apply keeps_tree_step; intros am; apply step_commit_admissible|].
    keeps_step.
    + apply keeps_update_tool_status; apply _.
    + apply keeps_sync_version_control; apply _.
  - intros a. unfold bind, get_agent, modify. cbv beta iota.
    pose proof (frame_step a _ (step_commit_invalid _)) as Hstep.
    destruct (commit_invalid (action_manager a)) as [overflow am2].
    destruct overflow; (split; [exact Hstep|]); simpl; [|done].
    apply frame_not_implemented.
Qed.

Lemma keeps_process_response has_incoming_op content :
  keeps R P (process_response has_incoming_op content).
Proof.
  unfold process_response. keeps_step; [|apply keeps_process_action].
  destruct has_incoming_op; [apply keeps_process_reflection|keeps_step].
Qed.

End Response.


(** What the handling of a response never does: it adds, removes or renames
    no installed tool (only a status may change), it leaves the default code
    chunks alone, and it never lowers the operation counter. *)
Theorem process_response_keeps_tools has_incoming_op content a :
  let a' := snd (process_response has_incoming_op content a) in
  map tool_name (installed_tools a') = map tool_name (installed_tools a) /\
  default_code_chunks a' = default_code_chunks a /\
  (n_operations a <= n_operations a')%Z.
Proof.
  apply (keeps_process_response keeps_tools response_exn
           has_incoming_op content a).
Qed.

End AgentTree.


Lemma agent_after_ls_pending :
  reachable (action_manager agent_after_ls) /\
  temp_node (action_manager agent_after_ls) = Some 1.
Proof.
  split; [|reflexivity].
  destruct (keeps_process_action (sandbox := quiet_world)
              keeps_reachable response_exn
              "<thoughts>look</thoughts><action>ls</action>" new_agent)
    as [HR _].
  apply HR, (reachable_init 3).
Qed.


Lemma format_error_after_reflection_witness :
  let content := "<decision>accept</decision> and then nothing" in
  let r := process_response (sandbox := quiet_world) true content agent_after_ls in
  let am := action_manager agent_after_ls in
  let am' := action_manager (snd r) in
  let c := current am in
  let rejected := String.eqb (lower (_parse_tag content "decision")) "reject" in
  am' <> am /\ temp_node am' = None /\ parent (node am' 1) = Some c /\
  (if rejected
   then invalid_ops (node am' c) = invalid_ops (node am c) ++ [1]
   else children (node am' c) = children (node am c) ++ [1] /\ current am' = 1) /\
  (fst r = Raise (FormatError
                    (format_error_message (Externals := quiet_world) (env (snd r))))
   \/ (exists msg, fst r = Raise (NotImplementedError msg))
   \/ (exists output, fst r = Raise (TimeoutExpired output))).
Proof.
  destruct agent_after_ls_pending as [Hreach Ht].
  apply (format_error_after_reflection (sandbox := quiet_world)
           "<decision>accept</decision> and then nothing"
           agent_after_ls 1 _ _ Hreach Ht eq_refl).
  by destruct (process_response _ _ _).
Defined.

(** *** Observations *)

Section AgentObservations.

Context {World : Type} {sandbox : Externals World}.

Implicit Types a : LLMIDEAgent World.

Lemma removelast_cons_In {A} (x y : A) l :
  In y (removelast (x :: l)) -> l <> [] /\ (y = x \/ In y (removelast l)).
Proof.
  destruct l as [|z l]; [done|]. intros [<-|Hin]; (split; [done|]); auto.
Qed.

Lemma execute_loop_observations actions :
  forall state a obs rc a',
    execute_loop actions state a = (Ok (obs, rc), a') ->
    exists new,
      obs = fst state ++ new /\
      map ao_action new `prefix_of` actions /\
      (new = [] <-> actions = []) /\
      (actions = [] -> rc = snd state) /\
      (rc = 0%Z -> actions <> [] -> map ao_action new = actions) /\
      forall o, In o (removelast new) ->
        exists text, ao_observation o
                     = ("[returncode: 0]" ++ newline ++ text)%string.
Proof.
  induction actions as [|action0 rest IH]; intros state a obs rc a'; simpl.
  - unfold ret. intros [= -> <-]. exists []. rewrite app_nil_r. by split_and!.
  - unfold bind at 1.
    destruct (_execute_command action0 a) as [[raw|e|] a1]; [|done..].
    unfold bind at 1.
    destruct (_process_tool_response raw a1) as [[r|e|] a2]; [|done..].
    destruct (snd r =? 0)%Z eqn:Hrc; cbn [negb].
    + apply Z.eqb_eq in Hrc. intros Hloop.
      destruct (IH _ _ _ _ _ Hloop) as (new & -> & Hpre & Hnil & Hrc0 & Hall & Hobs).
      cbn [fst snd] in *.
      eexists (_ :: new). rewrite <- app_assoc. split; [done|].
      split; [by apply prefix_cons|]. split; [done|]. split; [done|].
      split.
      * intros Hz _. cbn [map ao_action]. f_equal.
        destruct rest as [|action1 rest']; [|by apply Hall].
        by rewrite (proj2 Hnil).
      * intros o [Hne [->|Hin]]%removelast_cons_In; [|by apply Hobs].
        cbn [ao_observation]. rewrite Hrc. by eexists.
    + apply Z.eqb_neq in Hrc. intros [= <- <-].
      eexists [_]. split; [done|]. cbn [map ao_action].
      split; [apply prefix_cons, prefix_nil|]. by split_and!.
Qed.

(** [_execute_actions] runs the actions in order and stops behind the first
    one whose return code is not zero: the observations it returns are those
    of a prefix of the actions, of all of them when the last return code is
    zero, and of at least one when there is an action; every observation but
    the last records the return code zero. *)
Theorem execute_actions_observations actions a obs rc a' :
  _execute_actions actions a = (Ok (obs, rc), a') ->
  map ao_action obs `prefix_of` actions /\
  (obs = [] <-> actions = []) /\
  (actions = [] -> rc = 0%Z) /\
  (rc = 0%Z -> map ao_action obs = actions) /\
  forall o, In o (removelast obs) ->
    exists text, ao_observation o = ("[returncode: 0]" ++ newline ++ text)%string.
Proof.
  unfold _execute_actions. unfold bind at 1.
  destruct (execute_loop actions ([], 0%Z) a) as [[[obs0 rc0]|e|] a1] eqn:Hloop;
    [|done..].
  intros Hres. assert ((obs0, rc0) = (obs, rc)) as [= -> ->].
  { unfold bind, get_agent in Hres. cbv beta iota in Hres.
    destruct (active_node (action_manager a1));
      [|unfold ret in Hres; congruence].
    destruct (_get_git_diff a1) as [[diff|e|] a2]; [|done..].
    unfold tree, modify, ret in Hres. congruence. }
  destruct (execute_loop_observations _ _ _ _ _ _ Hloop)
    as (new & -> & Hpre & Hnil & Hrc0 & Hall & Hobs).
  cbn [fst snd app] in *. split_and!; try done.
  intros Hz. destruct actions as [|action0 rest]; [by rewrite (proj2 Hnil)|].
  by apply Hall.
Qed.

End AgentObservations.

Lemma execute_actions_observations_witness :
  let r := _execute_actions (sandbox := quiet_world) ["ls"; "pwd"] new_agent in
  let obs := [mkObs "ls" ("[returncode: 0]" ++ newline);
              mkObs "pwd" ("[returncode: 0]" ++ newline)] in
  map ao_action obs `prefix_of` ["ls"; "pwd"] /\
  (obs = [] <-> ["ls"; "pwd"] = []) /\
  (["ls"; "pwd"] = [] -> 0%Z = 0%Z) /\
  (0%Z = 0%Z -> map ao_action obs = ["ls"; "pwd"]) /\
  forall o, In o (removelast obs) ->
    exists text, ao_observation o = ("[returncode: 0]" ++ newline ++ text)%string.
Proof.
  exact (execute_actions_observations (sandbox := quiet_world)
           ["ls"; "pwd"] new_agent _ 0%Z _ eq_refl).
Defined.

(** *** Built-in tools *)

Section AgentTools.

Context {World : Type} {sandbox : Externals World}.

Implicit Types a : LLMIDEAgent World.

#[global] Instance stays_inside_preorder : PreOrder (stays_inside (World := World)).
Proof.
  split; [by intros a|].
  intros a1 a2 a3 (? & ? & ? & ? & ?) (? & ? & ? & ? & ?). split_and!; congruence.
Qed.

#[global] Instance stays_inside_tool : ToolFrame (stays_inside (World := World)).
Proof. split; [apply _|..]; by intros a; intros. Qed.

#[global] Instance tool_exn_tool : ToolExn tool_exn.
Proof. split; unfold tool_exn; auto. Qed.








End AgentTools.


(** ** The agent: submission, verdicts and failures *)

(** *** C8: submission *)

Lemma lstrip_app_nonblank l s :
  lstrip l <> "" -> lstrip (l ++ s) = (lstrip l ++ s)%string.
Proof.
  induction l as [|c l IH]; [done|]. rewrite append_cons. simpl.
  destruct (is_space c); [done|]. by rewrite append_cons.
Qed.

Lemma no_linebreak_lstrip l :
  no_linebreak l = true -> no_linebreak (lstrip l) = true.
Proof.
  induction l as [|c l IH]; [done|]. simpl.
  intros [Hc Hl]%andb_true_iff. destruct (is_space c); [by apply IH|].
  simpl. by rewrite Hc, Hl.
Qed.

Lemma lstrip_idempotent s : lstrip (lstrip s) = lstrip s.
Proof.
  destruct (lstrip_head s) as [->|(c & r & -> & Hc)]; [done|].
  by apply lstrip_fixed.
Qed.

Lemma is_linebreak_space c : is_linebreak c = true -> is_space c = true.
Proof.
  unfold is_linebreak, is_space, between.
  intros H. repeat (apply orb_true_iff in H as [H|H]);
    repeat (apply andb_true_iff in H as [? ?]);
    repeat match goal with
           | H : (_ <=? _) = true |- _ => apply Nat.leb_le in H
           | H : (_ =? _) = true |- _ => apply Nat.eqb_eq in H
           end.
  - assert ((9 <=? code c) && (code c <=? 13) = true) as ->; [|done].
    apply andb_true_iff. split; apply Nat.leb_le; lia.
  - assert ((28 <=? code c) && (code c <=? 32) = true) as ->.
    { apply andb_true_iff. split; apply Nat.leb_le; lia. }
    by rewrite orb_true_r.
  - rewrite H. by rewrite !orb_true_r.
Qed.

(** The first line that is not blank is the first line of the output
    without its leading whitespace, up to the whitespace before its first
    character. *)
Lemma first_nonblank_line_lstrip output first rest :
  first_nonblank_line output first rest ->
  first_line (lstrip output) (lstrip first) rest /\
  strip (lstrip first) = strip first.
Proof.
  intros (pre & l & t & -> & -> & Hpre & _ & Hl & Hne & Ht).
  rewrite (lstrip_blank_app pre) by done.
  rewrite append_assoc, !lstrip_app_nonblank by done.
  split.
  - split; [by rewrite append_assoc|].
    split; [by destruct (lstrip l)|].
    exists (lstrip l), t. split_and!; [done| |done]. by apply no_linebreak_lstrip.
  - unfold strip. rewrite <- (lstrip_app_nonblank l t) by done.
    by rewrite lstrip_idempotent.
Qed.

(** An output that is not blank has a first line that is not blank. *)
Lemma first_nonblank_line_exists output :
  lstrip output <> "" -> exists first rest, first_nonblank_line output first rest.
Proof.
  induction output as [|c s IH]; [done|]. simpl.
  destruct (is_space c) eqn:Hc.
  - intros Hs. destruct (IH Hs) as (first & rest & pre & l & t & -> & -> & H).
    destruct H as (Hpre & Hstart & Hl & Hne & Ht).
    destruct pre as [|d pre].
    + destruct (is_linebreak c) eqn:Hlb.
      * exists (l ++ t)%string, rest, (String c ""), l, t.
        split_and!; try done. simpl. by rewrite Hc.
      * exists (String c l ++ t)%string, rest, "", (String c l), t.
        split_and!; try done.
        -- simpl. by rewrite Hlb, Hl.
        -- simpl. by rewrite Hc.
    + exists (l ++ t)%string, rest, (String c (String d pre)), l, t.
      split_and!; try done. simpl lstrip. by rewrite Hc.
  - intros _.
    destruct (first_line_exists (String c s)) as (first & rest & Hfirst); [done|].
    destruct Hfirst as (Heq & Hne & l & t & -> & Hl & Ht).
    exists (l ++ t)%string, rest, "", l, t. split_and!; try done.
    destruct l as [|d l].
    + exfalso. rewrite !append_nil_l in *.
      destruct Ht as [[-> ->]|[(e & -> & He & _)|(e & e' & -> & He & _)]].
      * done.
      * injection Heq as -> _. apply is_linebreak_space in He. congruence.
      * injection Heq as -> _. apply is_cr_linebreak, is_linebreak_space in He.
        congruence.
    + rewrite !append_cons in Heq. injection Heq as <- _. simpl. by rewrite Hc.
Qed.

Section Submission.

Context {World : Type} {sandbox : Externals World}.

Implicit Types a : LLMIDEAgent World.

Lemma check_submission_raises output text a :
  submitted_text output = Some text ->
  fst (_check_submission output a) = Raise (Submitted text).
Proof.
  intros Hs. unfold _check_submission. rewrite Hs.
  unfold bind, get_agent, _save_history_text. cbv beta iota.
  by destruct history_enabled.
Qed.

Lemma check_submission_returns output a :
  submitted_text output = None -> _check_submission output a = (Ok tt, a).
Proof. intros Hs. unfold _check_submission. by rewrite Hs. Qed.

Lemma submitted_text_first_line output first rest :
  first_line (lstrip output) first rest ->
  submitted_text output
  = if existsb (String.eqb (strip first)) submission_sentinels
    then Some rest else None.
Proof.
  intros (ls & Hsplit & <-)%first_line_split.
  unfold submitted_text. by rewrite Hsplit.
Qed.

Lemma sentinel_test s :
  existsb (String.eqb s) submission_sentinels = true <-> In s submission_sentinels.
Proof.
  rewrite existsb_exists. split.
  - by intros (x & Hx & ->%String.eqb_eq).
  - intros Hin. exists s. by rewrite String.eqb_refl.
Qed.

(** C8.  [_check_submission] on the output of a sandbox command, where a
    line ends at a line boundary of [str.splitlines].  A blank output never
    submits.  Every other output has a first line that is not blank: when
    that line, stripped, is one of the two sentinels, [Submitted] is raised
    and carries exactly the text behind that line; when it is not, the call
    returns and the agent is as before.  [_execute_command] raises the same
    [Submitted] for a command that is no built-in tool, and returns the
    output of the sandbox when the line is no sentinel.  Scenario S8 is the
    last clause. *)
Theorem submission_first_nonblank_line output a :
  (lstrip output = "" -> _check_submission output a = (Ok tt, a)) /\
  (lstrip output <> "" ->
   exists first rest, first_nonblank_line output first rest) /\
  (forall first rest,
     first_nonblank_line output first rest ->
     (In (strip first) submission_sentinels ->
      fst (_check_submission output a) = Raise (Submitted rest) /\
      forall command returncode w,
        _run_builtin_tool command a = (Ok None, a) ->
        execute command (env a) = (Completed output returncode, w) ->
        fst (_execute_command command a) = Raise (Submitted rest)) /\
     (~ In (strip first) submission_sentinels ->
      _check_submission output a = (Ok tt, a) /\
      forall command returncode w,
        _run_builtin_tool command a = (Ok None, a) ->
        execute command (env a) = (Completed output returncode, w) ->
        _execute_command command a = (Ok (output, returncode), set_env w a))) /\
  fst (_check_submission
         ("COMPLETE_TASK_AND_SUBMIT_FINAL_OUTPUT" ++ newline
          ++ "answer body" ++ newline) a)
  = Raise (Submitted ("answer body" ++ newline)).
Proof.
  split_and!.
  - intros Hblank. apply check_submission_returns.
    unfold submitted_text. by rewrite Hblank.
  - apply first_nonblank_line_exists.
  - intros first rest [Hline Hstrip]%first_nonblank_line_lstrip.
    pose proof (submitted_text_first_line _ _ _ Hline) as Htext.
    rewrite Hstrip in Htext. split.
    + intros Hin%sentinel_test. rewrite Hin in Htext. split.
      * by apply check_submission_raises.
      * intros command returncode w Hbuiltin Hexec.
        unfold _execute_command, bind. rewrite Hbuiltin, Hexec.
        pose proof (check_submission_raises output rest (set_env w a) Htext) as Hr.
        by destruct (_check_submission output (set_env w a)) as [[[]|e|] a1];
          simpl in Hr; simplify_eq.
    + intros Hnot.
      destruct (existsb (String.eqb (strip first)) submission_sentinels) eqn:Hex.
      { by apply sentinel_test in Hex. }
      split.
      * by apply check_submission_returns.
      * intros command returncode w Hbuiltin Hexec.
        unfold _execute_command, bind. rewrite Hbuiltin, Hexec.
        by rewrite check_submission_returns.
  - by apply check_submission_raises.
Qed.

End Submission.

(** *** C10: the verdict of the reflection *)

Section ReflectionVerdict.

Context {World : Type} {sandbox : Externals World}.

Implicit Types a : LLMIDEAgent World.



End ReflectionVerdict.


(** *** C2: failures that do not end the run *)

(** C2, as stated, fails on the code.  When the sandbox times out on the
    first action, [ExecutionTimeoutError] leaves [_process_action] with a
    tree that has changed: the node of the response is the pending node, and
    it has no observation.  And when a node is pending at the start of the
    iteration, the [FormatError] for a response without action is raised
    after the reflection has committed that node. *)
Lemma nonterminal_failures_change_tree :
  (let r := _process_action (sandbox := stuck_world) "<action>ls</action>"
              new_agent in
   fst r = Raise (ExecutionTimeoutError "") /\
   action_manager (snd r) <> action_manager new_agent /\
   temp_node (action_manager new_agent) = None /\
   temp_node (action_manager (snd r)) = Some 1 /\
   observations (node (action_manager (snd r)) 1) = []) /\
  (let r := process_response (sandbox := quiet_world) true
              "<decision>accept</decision> and then nothing" agent_after_ls in
   fst r = Raise (FormatError "format error") /\
   action_manager (snd r) <> action_manager agent_after_ls /\
   current (action_manager agent_after_ls) = sentinel /\
   current (action_manager (snd r)) = 1).
Proof. cbv zeta. split_and!; by vm_compute. Qed.

Section Failures.

Context {World : Type} {sandbox : Externals World}.

Implicit Types a : LLMIDEAgent World.

(** C2 (amended).  A response without action: [_process_action] raises
    [FormatError] before [create_temp_node], and leaves the agent, tree
    included, as it was; but in an iteration that starts with a pending node
    [t] in a reachable tree, the reflection comes first, and the exception
    of the iteration finds [t] committed or rejected under [current].  A
    response with actions: when [ExecutionTimeoutError] leaves
    [_process_action], the node of the response has been created and is the
    pending node, it has no observation, the operation has been counted, and
    [current] and every older node are as before. *)
Theorem nonterminal_failures content a :
  (_parse_actions content = Some [] ->
   _process_action content a
   = (Raise (FormatError (format_error_message (env a))), a)) /\
  (forall t,
     _parse_actions content = Some [] ->
     reachable (action_manager a) ->
     temp_node (action_manager a) = Some t ->
     let r := process_response true content a in
     let am := action_manager a in
     let am' := action_manager (snd r) in
     am' <> am /\ temp_node am' = None /\
     parent (node am' t) = Some (current am) /\
     (In t (children (node am' (current am)))
      \/ In t (invalid_ops (node am' (current am)))) /\
     (fst r = Raise (FormatError (format_error_message (env (snd r))))
      \/ (exists msg, fst r = Raise (NotImplementedError msg))
      \/ (exists output, fst r = Raise (TimeoutExpired output)))) /\
  (forall actions msg a',
     _parse_actions content = Some actions ->
     _process_action content a = (Raise (ExecutionTimeoutError msg), a') ->
     let am := action_manager a in
     let am' := action_manager a' in
     let t := length (nodes am) in
     actions <> [] /\ am' <> am /\
     temp_node am' = Some t /\ length (nodes am') = S t /\
     current am' = current am /\
     (forall x, x < t -> node am' x = node am x) /\
     action (node am' t) = join newline actions /\
     observations (node am' t) = [] /\
     n_operations a' = (n_operations a + 1)%Z).
Proof.
  split_and!.
  - apply process_action_no_action.
  - intros t Hparse Hreach Ht. cbv zeta.
    destruct (process_response true content a) as [r a'] eqn:Hresp.
    pose proof (reflection_then_format_error _ _ _ _ _ Hreach Ht Hparse Hresp)
      as Hspec.
    cbv zeta in Hspec. destruct Hspec as (H1 & H2 & H3 & H4 & H5).
    cbn [fst snd]. split_and!; try done.
    destruct (String.eqb _ "reject").
    + right. rewrite H4. apply in_app_iff. right. by left.
    + left. destruct H4 as [H4 _]. rewrite H4. apply in_app_iff. right. by left.
  - intros actions msg a' Hparse Hact. cbv zeta.
    assert (actions <> []) as Hne.
    { intros ->. by rewrite process_action_no_action in Hact. }
    pose proof (process_action_pending_spec _ _ _ _ _ Hparse Hne Hact) as Hspec.
    cbv zeta in Hspec.
    destruct Hspec as (H1 & H2 & H3 & H4 & H5 & _ & H7 & _ & _ & _ & _ & H12 & _).
    split_and!; try done.
    intros Heq. rewrite Heq in H3. lia.
Qed.

End Failures.
